(** * lbry-sdk wallet accounts and claimtrie rules

    A shallow embedding of [lbry/wallet/account.py] (channel key manager,
    address managers, account encryption and serialisation) and of the
    claimtrie rules exercised by
    [tests/integration/blockchain/test_blockchain.py].

    Python objects are records, dictionaries are [gmap]s, [int] is [Z],
    [str] and [bytes] are [string] (the argument of [validate_claim_id] is
    a list of code points or a list of bytes).  Methods that mutate [self]
    or raise are written in a state-and-exception monad: a raised exception
    keeps the mutations made before it, as in Python. *)

From Stdlib Require Import ZArith String Ascii List Lia Bool Sorted.
From stdpp Require Import base option gmap strings list pretty relations.

Local Open Scope string_scope.
Local Open Scope list_scope.

(** ** Python exceptions and the method monad *)

Inductive exn : Type :=
| ValueError
| TypeError
| IndexError
| InvalidPasswordError
| AssertionError
| AttributeError
| RuntimeError
| OtherError.

Inductive result (A : Type) : Type :=
| Ok (a : A)
| Raise (e : exn).
Arguments Ok {A} a.
Arguments Raise {A} e.

Definition exn_eqb (a b : exn) : bool :=
  match a, b with
  | ValueError, ValueError | TypeError, TypeError | IndexError, IndexError
  | InvalidPasswordError, InvalidPasswordError | AssertionError, AssertionError
  | AttributeError, AttributeError | RuntimeError, RuntimeError
  | OtherError, OtherError => true
  | _, _ => false
  end.

(** A method over a mutable state [S]. *)
Definition M (S A : Type) : Type := S -> result A * S.

Definition ret {S A} (a : A) : M S A := fun s => (Ok a, s).
Definition raise {S A} (e : exn) : M S A := fun s => (Raise e, s).
Definition bind {S A B} (m : M S A) (k : A -> M S B) : M S B :=
  fun s => match m s with
           | (Ok a, s') => k a s'
           | (Raise e, s') => (Raise e, s')
           end.
Definition get {S} : M S S := fun s => (Ok s, s).
Definition gets {S A} (f : S -> A) : M S A := fun s => (Ok (f s), s).
Definition modify {S} (f : S -> S) : M S unit := fun s => (Ok tt, f s).
Definition lift {S A} (r : result A) : M S A := fun s => (r, s).

(** [try: m except classes: handler]. *)
Definition try_except {S A} (m : M S A) (classes : list exn) (handler : M S A)
  : M S A :=
  fun s => match m s with
           | (Ok a, s') => (Ok a, s')
           | (Raise e, s') =>
               if existsb (exn_eqb e) classes then handler s' else (Raise e, s')
           end.

(** [try: m except classes: ...] where the handler leaves the method:
    [None] when one of [classes] was caught. *)
Definition attempt {S A} (m : M S A) (classes : list exn) : M S (option A) :=
  fun s => match m s with
           | (Ok a, s') => (Ok (Some a), s')
           | (Raise e, s') =>
               if existsb (exn_eqb e) classes then (Ok None, s') else (Raise e, s')
           end.

(** [assert c]. *)
Definition py_assert {S} (c : bool) : M S unit :=
  if c then ret tt else raise AssertionError.

#[global] Instance M_ret {S} : MRet (M S) := fun A a => ret a.
#[global] Instance M_bind {S} : MBind (M S) := fun A B k m => bind m k.

(** Truthiness of a [str]. *)
Definition truthy (s : string) : bool :=
  match s with EmptyString => false | String _ _ => true end.

(** Truthiness of an [Optional[str]]. *)
Definition truthy_opt (o : option string) : bool :=
  match o with Some s => truthy s | None => false end.

Lemma truthy_false s : truthy s = false -> s = "".
Proof. destruct s; [reflexivity | discriminate]. Qed.

(** Unfolds the monad operations in the goal and the hypotheses. *)
Ltac unfold_M :=
  unfold mbind, M_bind, bind, mret, M_ret, ret, get, gets, modify, raise,
    lift, py_assert, try_except, attempt in *.

Ltac inv_pair H := inversion H; subst; clear H.

(** Runs a method whose branches are decided by equations in the context
    and by lookups in a dictionary built by insertions. *)
Ltac run_lookups :=
  repeat first
    [ progress simpl
    | rewrite lookup_insert_eq
    | rewrite lookup_insert_ne by discriminate
    | match goal with
      | H : ?x = _ |- context [?x] => rewrite H
      end ].

(** Modelled from the spec: the fixed child indices of [KeyPath]
    ([lbry/wallet/bip32.py] is not among the sources): RECEIVE=0, CHANGE=1,
    CHANNEL=2. *)
Module KeyPath.
Definition RECEIVE : Z := 0.
Definition CHANGE : Z := 1.
Definition CHANNEL : Z := 2.
End KeyPath.

(** ** class DeterministicChannelKeyManager *)

Module DeterministicChannelKeyManager.
Section Manager.
Local Open Scope Z_scope.

(** bip32 keys: [PrivateKey.child], [.public_key], [PublicKey.pubkey_bytes]
    and [.address]. *)
Context {PrivateKey PublicKey : Type}.
Variable child : PrivateKey -> Z -> PrivateKey.
Variable public_key_of : PrivateKey -> PublicKey.
Variable pubkey_bytes : PublicKey -> string.
Variable address : PublicKey -> string.
(** [db.is_channel_key_used(account, public_key)]. *)
Variable is_channel_key_used : PublicKey -> bool.

Record t : Type := mk {
  last_known : Z;
  cache : gmap string PrivateKey;
  private_key : option PrivateKey
}.

Definition set_cache (f : gmap string PrivateKey -> gmap string PrivateKey)
  (self : t) : t :=
  {| last_known := last_known self; cache := f (cache self);
     private_key := private_key self |}.

Definition set_last_known (f : Z -> Z) (self : t) : t :=
  {| last_known := f (last_known self); cache := cache self;
     private_key := private_key self |}.

(** [__init__(account)]. *)
Definition __init__ (account_private_key : option PrivateKey) : t :=
  {| last_known := 0; cache := ∅;
     private_key := (fun k => child k KeyPath.CHANNEL) <$> account_private_key |}.

(** [maybe_generate_deterministic_key_for_channel(txo)], where
    [channel_public_key_bytes] is [txo.claim.channel.public_key_bytes]. *)
Definition maybe_generate_deterministic_key_for_channel
  (channel_public_key_bytes : string) : M t unit :=
  self ← get;
  match private_key self with
  | None => mret tt
  | Some sk =>
      let next_private_key := child sk (last_known self) in
      let public_key := public_key_of next_private_key in
      let public_key_bytes := pubkey_bytes public_key in
      if String.eqb channel_public_key_bytes public_key_bytes then
        modify (set_cache <[address public_key := next_private_key]>);;
        modify (set_last_known (fun n => n + 1))
      else mret tt
  end.

(** [generate_next_key()]: the [while True] loop, one iteration per unit of
    fuel; [None] is returned when the fuel runs out with the loop still
    running. [self.private_key.child] on [None] raises [AttributeError]. *)
Fixpoint generate_next_key (fuel : nat) : M t (option PrivateKey) :=
  match fuel with
  | O => mret None
  | S fuel' =>
      self ← get;
      match private_key self with
      | None => raise AttributeError
      | Some sk =>
          let next_private_key := child sk (last_known self) in
          let public_key := public_key_of next_private_key in
          modify (set_cache <[address public_key := next_private_key]>);;
          if negb (is_channel_key_used public_key) then
            mret (Some next_private_key)
          else
            modify (set_last_known (fun n => n + 1));;
            generate_next_key fuel'
      end
  end.

(** [ensure_cache_primed()]. *)
Definition ensure_cache_primed (fuel : nat) : M t unit :=
  self ← get;
  match private_key self with
  | Some _ => generate_next_key fuel;; mret tt
  | None => mret tt
  end.

(** [get_private_key_from_pubkey_hash(pubkey_hash)]. *)
Definition get_private_key_from_pubkey_hash (pubkey_hash : string) (self : t)
  : option PrivateKey :=
  cache self !! pubkey_hash.

(** One operation of the manager on a live account. *)
Inductive step (self self' : t) : Prop :=
| step_maybe_generate bytes r :
    maybe_generate_deterministic_key_for_channel bytes self = (r, self') ->
    step self self'
| step_generate_next_key fuel r :
    generate_next_key fuel self = (r, self') ->
    step self self'
| step_ensure_cache_primed fuel r :
    ensure_cache_primed fuel self = (r, self') ->
    step self self'.

(** The states a manager created by [__init__] can be in. *)
Definition live (account_private_key : option PrivateKey) (self : t) : Prop :=
  rtc step (__init__ account_private_key) self.

(** Every cached entry is a derived child stored under its own address. *)
Definition derived_entries (self : t) : Prop :=
  forall a k, cache self !! a = Some k ->
    a = address (public_key_of k) /\
    exists sk i, private_key self = Some sk /\ k = child sk i.

(** *** The cache is append-only *)

(** Two derived children with the same address are the same key (the
    address is a hash of the public key). *)
Hypothesis address_collision_free : forall sk i j,
  address (public_key_of (child sk i)) = address (public_key_of (child sk j)) ->
  child sk i = child sk j.

Lemma insert_child_subseteq self sk i :
  derived_entries self -> private_key self = Some sk ->
  cache self ⊆ <[address (public_key_of (child sk i)) := child sk i]> (cache self).
Proof using address_collision_free.
  intros Hd Hsk. apply map_subseteq_spec. intros a k Hak.
  destruct (decide (address (public_key_of (child sk i)) = a)) as [Heq | Hne].
  - destruct (Hd a k Hak) as [Ha (sk' & j & Hsk' & Hk)].
    rewrite Hsk in Hsk'. injection Hsk' as <-.
    rewrite <- Heq, lookup_insert_eq. f_equal. rewrite Hk.
    apply address_collision_free. rewrite Heq, Ha, Hk. reflexivity.
  - rewrite lookup_insert_ne; assumption.
Qed.

Lemma insert_child_derived self sk i :
  derived_entries self -> private_key self = Some sk ->
  derived_entries
    (set_cache <[address (public_key_of (child sk i)) := child sk i]> self).
Proof.
  intros Hd Hsk a k. simpl.
  destruct (decide (address (public_key_of (child sk i)) = a)) as [Heq | Hne].
  - subst a. rewrite lookup_insert_eq. intros [= <-]. eauto.
  - rewrite lookup_insert_ne by assumption. apply Hd.
Qed.

Lemma set_last_known_derived f self :
  derived_entries self -> derived_entries (set_last_known f self).
Proof. intros Hd a k. simpl. apply Hd. Qed.

(** What a single operation keeps. *)
Definition extends (self self' : t) : Prop :=
  cache self ⊆ cache self' /\ last_known self <= last_known self' /\
  private_key self' = private_key self /\ derived_entries self'.

Lemma extends_refl self : derived_entries self -> extends self self.
Proof. intros Hd. split; [reflexivity | split; [lia | split; [reflexivity | assumption]]]. Qed.

Lemma maybe_generate_extends bytes self r self' :
  derived_entries self ->
  maybe_generate_deterministic_key_for_channel bytes self = (r, self') ->
  extends self self'.
Proof using address_collision_free.
  intros Hd. unfold maybe_generate_deterministic_key_for_channel. unfold_M.
  destruct (private_key self) as [sk |] eqn:Hsk.
  - destruct (String.eqb _ _); intros H; inv_pair H.
    + split; [| split; [| split]]; simpl; try reflexivity; try lia.
      * apply insert_child_subseteq; assumption.
      * apply set_last_known_derived, insert_child_derived; assumption.
    + apply extends_refl; assumption.
  - intros H; inv_pair H. apply extends_refl; assumption.
Qed.

Lemma generate_next_key_extends fuel : forall self r self',
  derived_entries self ->
  generate_next_key fuel self = (r, self') ->
  extends self self'.
Proof using address_collision_free.
  induction fuel as [| fuel IH]; intros self r self' Hd; simpl; unfold_M.
  - intros H; inv_pair H. apply extends_refl; assumption.
  - destruct (private_key self) as [sk |] eqn:Hsk.
    + pose proof (insert_child_subseteq self sk (last_known self) Hd Hsk) as Hsub.
      pose proof (insert_child_derived self sk (last_known self) Hd Hsk) as Hd'.
      destruct (is_channel_key_used _); simpl.
      * intros H. apply IH in H.
        -- destruct H as (Hc & Hl & Hp & Hdd). simpl in *.
           split; [| split; [| split]]; try assumption; try lia.
           etransitivity; eassumption.
        -- apply set_last_known_derived; assumption.
      * intros H; inv_pair H.
        split; [| split; [| split]]; simpl; try assumption; try reflexivity; lia.
    + intros H; inv_pair H. apply extends_refl; assumption.
Qed.

Lemma step_extends self self' :
  derived_entries self -> step self self' -> extends self self'.
Proof using address_collision_free.
  intros Hd [bytes r H | fuel r H | fuel r H].
  - eapply maybe_generate_extends; eassumption.
  - eapply generate_next_key_extends; eassumption.
  - revert H. unfold ensure_cache_primed. unfold_M.
    destruct (private_key self) eqn:Hsk.
    + destruct (generate_next_key fuel self) as [[k | e] s1] eqn:Hg;
        intros H; inv_pair H;
        eapply generate_next_key_extends; eassumption.
    + intros H; inv_pair H. apply extends_refl; assumption.
Qed.

Lemma init_derived account_private_key :
  derived_entries (__init__ account_private_key).
Proof. intros a k. simpl. rewrite lookup_empty. discriminate. Qed.

Lemma live_derived account_private_key self :
  live account_private_key self -> derived_entries self.
Proof using address_collision_free.
  unfold live. intros H.
  eapply (rtc_ind_r (fun s => derived_entries s)); [| | exact H].
  - apply init_derived.
  - intros s1 s2 _ Hstep IH. apply (step_extends s1 s2 IH Hstep).
Qed.

(** C9: on a live account, every operation of the channel key manager keeps
    each cached entry with the key it had (nothing is removed or replaced by
    a different key), never lowers [last_known], and leaves a cache whose
    entries map the address of a derived child key to that key. *)
Theorem cache_append_only account_private_key self self' :
  live account_private_key self -> step self self' ->
  cache self ⊆ cache self' /\
  last_known self <= last_known self' /\
  derived_entries self'.
Proof using address_collision_free.
  intros Hlive Hstep.
  destruct (step_extends self self' (live_derived _ _ Hlive) Hstep)
    as (Hc & Hl & _ & Hd).
  split; [assumption | split; assumption].
Qed.

(** One iteration of the loop of [generate_next_key]. *)
Lemma generate_next_key_S fuel self :
  generate_next_key (S fuel) self =
  match private_key self with
  | None => (Raise AttributeError, self)
  | Some sk =>
      let next_private_key := child sk (last_known self) in
      let self1 :=
        set_cache <[address (public_key_of next_private_key) := next_private_key]> self in
      if is_channel_key_used (public_key_of next_private_key)
      then generate_next_key fuel (set_last_known (fun n => n + 1) self1)
      else (Ok (Some next_private_key), self1)
  end.
Proof.
  simpl. unfold_M. destruct (private_key self); [| reflexivity].
  destruct (is_channel_key_used _); reflexivity.
Qed.

(** The loop of [generate_next_key] returns as soon as the index reports an
    unused key: with [n] used keys ahead of [last_known], [n + 1] iterations
    suffice, and the returned key is the child at the first unused index. *)
Lemma generate_next_key_returns n : forall self sk,
  private_key self = Some sk ->
  (forall i, (i < n)%nat ->
     is_channel_key_used (public_key_of (child sk (last_known self + Z.of_nat i))) = true) ->
  is_channel_key_used (public_key_of (child sk (last_known self + Z.of_nat n))) = false ->
  exists self',
    generate_next_key (S n) self
      = (Ok (Some (child sk (last_known self + Z.of_nat n))), self') /\
    last_known self' = last_known self + Z.of_nat n.
Proof.
  induction n as [| n IH]; intros self sk Hsk Hused Hfree;
    rewrite generate_next_key_S, Hsk; cbv zeta.
  - rewrite Z.add_0_r in *. rewrite Hfree.
    eexists; split; [reflexivity | simpl; lia].
  - pose proof (Hused O ltac:(lia)) as H0. rewrite Z.add_0_r in H0. rewrite H0.
    match goal with |- context [generate_next_key (S n) ?s] => set (s1 := s) end.
    assert (Hlk : last_known s1 = last_known self + 1) by reflexivity.
    destruct (IH s1 sk) as (self' & Hrun & Hlk').
    + exact Hsk.
    + intros i Hi. rewrite Hlk.
      replace (last_known self + 1 + Z.of_nat i)
        with (last_known self + Z.of_nat (S i)) by lia.
      apply Hused. lia.
    + rewrite Hlk.
      replace (last_known self + 1 + Z.of_nat n)
        with (last_known self + Z.of_nat (S n)) by lia.
      exact Hfree.
    + exists self'. rewrite Hlk in Hrun, Hlk'.
      replace (last_known self + Z.of_nat (S n))
        with (last_known self + 1 + Z.of_nat n) by lia.
      split; [exact Hrun | exact Hlk'].
Qed.

End Manager.

(** A small instance: keys are integers, [child sk i = sk + i], and the
    address of a key is its decimal numeral. *)
Definition example_child (sk i : Z) : Z := (sk + i)%Z.
Definition example_address (k : Z) : string := pretty k.

Lemma example_collision_free sk i j :
  example_address (id (example_child sk i)) = example_address (id (example_child sk j)) ->
  example_child sk i = example_child sk j.
Proof. unfold example_address, id. intros H. exact (inj pretty _ _ H). Qed.

Definition example_manager : t :=
  __init__ example_child (Some 0%Z).

Definition example_manager' : t :=
  (maybe_generate_deterministic_key_for_channel
     example_child id example_address example_address "2" example_manager).2.

Lemma cache_append_only_witness :
  cache example_manager ⊆ cache example_manager' /\
  (last_known example_manager <= last_known example_manager')%Z /\
  derived_entries example_child id example_address example_manager'.
Proof.
  apply (cache_append_only example_child id example_address example_address
           (fun _ => false) example_collision_free (Some 0%Z)).
  - apply rtc_refl.
  - apply (step_maybe_generate _ _ _ _ _ _ _ "2" (Ok tt)). reflexivity.
Defined.

Example example_manager'_state :
  last_known example_manager' = 1%Z /\
  cache example_manager' !! "2" = Some 2%Z.
Proof. split; reflexivity. Qed.

End DeterministicChannelKeyManager.

(** ** class AddressManager, HierarchicalDeterministic, SingleKey *)

Module AddressManager.
Section Managers.
Local Open Scope Z_scope.

(** bip32 public keys: [PublicKey.child(index)], [.n] and [.address]. *)
Context {PublicKey : Type}.
Variable child : PublicKey -> Z -> PublicKey.
Variable pk_n : PublicKey -> Z.
Variable pk_address : PublicKey -> string.

(** A row of the account's address table: [address['pubkey']],
    [address['used_times']], and the chain it belongs to. *)
Record AddressRow : Type := mkRow {
  chain : Z;
  pubkey : PublicKey;
  used_times : Z
}.

Definition row_n (r : AddressRow) : Z := pk_n (pubkey r).
Definition row_address (r : AddressRow) : string := pk_address (pubkey r).

Inductive OrderBy : Type :=
| n_asc
| n_desc
| used_times_asc_n_asc.

(** The keyword constraints the managers pass to the database. *)
Record Constraints : Type := mkConstraints {
  used_times__lt : option Z;
  order_by : option OrderBy;
  limit : option Z
}.

Definition no_constraints : Constraints :=
  {| used_times__lt := None; order_by := None; limit := None |}.

(** What the managers touch: the address table, the announcements sent to
    the ledger, and the manager's [address_generator_lock]. *)
Record World : Type := mkWorld {
  db : list AddressRow;
  announced : list (list string);
  address_generator_lock : bool
}.

Definition set_db (f : list AddressRow -> list AddressRow) (w : World) : World :=
  {| db := f (db w); announced := announced w;
     address_generator_lock := address_generator_lock w |}.

Definition set_announced (f : list (list string) -> list (list string))
  (w : World) : World :=
  {| db := db w; announced := f (announced w);
     address_generator_lock := address_generator_lock w |}.

Definition set_lock (b : bool) (w : World) : World :=
  {| db := db w; announced := announced w; address_generator_lock := b |}.

Definition order_leb (o : OrderBy) (a b : AddressRow) : bool :=
  match o with
  | n_asc => row_n a <=? row_n b
  | n_desc => row_n b <=? row_n a
  | used_times_asc_n_asc =>
      (used_times a <? used_times b)
      || ((used_times a =? used_times b) && (row_n a <=? row_n b))
  end.

Fixpoint insert_row (leb : AddressRow -> AddressRow -> bool) (x : AddressRow)
  (l : list AddressRow) : list AddressRow :=
  match l with
  | [] => [x]
  | y :: l' => if leb x y then x :: l else y :: insert_row leb x l'
  end.

Definition sort_rows (leb : AddressRow -> AddressRow -> bool)
  (l : list AddressRow) : list AddressRow :=
  foldr (insert_row leb) [] l.

Definition chain_rows (chain_number : Z) (rows : list AddressRow)
  : list AddressRow :=
  List.filter (fun r => chain r =? chain_number) rows.

(** Modelled from the spec: the address table of [lbry/wallet/database.py],
    which is not among the sources.  [db.get_addresses(accounts=[account],
    chain=chain_number, constraints)] selects the rows of the chain, keeps
    those with [used_times < used_times__lt], orders them by [order_by] and
    returns the first [limit] of them ([limit] is not negative). *)
Definition get_addresses_rows (chain_number : Z) (c : Constraints)
  (rows : list AddressRow) : list AddressRow :=
  let rows := chain_rows chain_number rows in
  let rows := match used_times__lt c with
              | Some m => List.filter (fun r => used_times r <? m) rows
              | None => rows
              end in
  let rows := match order_by c with
              | Some o => sort_rows (order_leb o) rows
              | None => rows
              end in
  match limit c with
  | Some k => firstn (Z.to_nat k) rows
  | None => rows
  end.

(** Modelled from the spec: [db.add_keys(account, chain, keys)] stores one
    row per key, not yet used. *)
Definition add_keys (chain_number : Z) (keys : list PublicKey)
  (rows : list AddressRow) : list AddressRow :=
  rows ++ map (fun k => {| chain := chain_number; pubkey := k; used_times := 0 |}) keys.

(** The two address managers. *)
Inductive t : Type :=
| HierarchicalDeterministic
    (public_key : PublicKey) (chain_number gap maximum_uses_per_address : Z)
| SingleKey (public_key : PublicKey) (chain_number : Z).

Definition public_key (self : t) : PublicKey :=
  match self with
  | HierarchicalDeterministic pk _ _ _ => pk
  | SingleKey pk _ => pk
  end.

Definition chain_number (self : t) : Z :=
  match self with
  | HierarchicalDeterministic _ c _ _ => c
  | SingleKey _ c => c
  end.

(** The [name] of the class. *)
Definition name (self : t) : string :=
  match self with
  | HierarchicalDeterministic _ _ _ _ => "deterministic-chain"
  | SingleKey _ _ => "single-address"
  end.

(** [to_dict_instance()]: the pair is [{'gap': ..,
    'maximum_uses_per_address': ..}]. *)
Definition to_dict_instance (self : t) : option (Z * Z) :=
  match self with
  | HierarchicalDeterministic _ _ gap maximum_uses_per_address =>
      Some (gap, maximum_uses_per_address)
  | SingleKey _ _ => None
  end.

(** The dictionary built by the class method [to_dict(receiving, change)];
    a key that is not set is [None]. *)
Record GeneratorDict : Type := mkGeneratorDict {
  d_name : string;
  d_receiving : option (Z * Z);
  d_change : option (Z * Z)
}.

Definition to_dict (cls_name : string) (receiving change : t) : GeneratorDict :=
  {| d_name := cls_name;
     d_receiving := to_dict_instance receiving;
     d_change := to_dict_instance change |}.

(** [async with self.address_generator_lock: body]. *)
Definition with_lock {A} (body : M World A) : M World A :=
  fun w => let '(r, w') := body (set_lock true w) in (r, set_lock false w').

(** [_query_addresses(constraints)]. *)
Definition _query_addresses (self : t) (c : Constraints)
  : M World (list AddressRow) :=
  gets (fun w => get_addresses_rows (chain_number self) c (db w)).

(** [ledger.announce_addresses(self, new_keys)]. *)
Definition announce_addresses (new_keys : list string) : M World unit :=
  modify (set_announced (fun log => log ++ [new_keys])).

(** The body of the [for] loop of [get_max_gap], on the pair
    [(max_gap, current_gap)]. *)
Definition max_gap_step (acc : Z * Z) (address : AddressRow) : Z * Z :=
  let '(max_gap, current_gap) := acc in
  if used_times address =? 0 then (max_gap, current_gap + 1)
  else (Z.max max_gap current_gap, 0).

Definition max_gap_loop (addresses : list AddressRow) : Z :=
  fst (fold_left max_gap_step addresses (0, 0)).

(** [get_max_gap()]. *)
Definition get_max_gap (self : t) : M World Z :=
  match self with
  | HierarchicalDeterministic _ _ _ _ =>
      addresses ← _query_addresses self
        {| used_times__lt := None; order_by := Some n_asc; limit := None |};
      mret (max_gap_loop addresses)
  | SingleKey _ _ => mret 0
  end.

(** The [for] loop of [ensure_address_gap], which leaves at the first used
    address. *)
Fixpoint existing_gap_loop (addresses : list AddressRow) (existing_gap : Z) : Z :=
  match addresses with
  | [] => existing_gap
  | address :: rest =>
      if used_times address =? 0 then existing_gap_loop rest (existing_gap + 1)
      else existing_gap
  end.

(** [_generate_keys(start, end)]; [range(start, end+1)] is
    [seqZ start (end + 1 - start)]. *)
Definition _generate_keys (self : t) (start end_ : Z) : M World (list string) :=
  locked ← gets address_generator_lock;
  if negb locked then raise RuntimeError
  else
    let keys := map (child (public_key self)) (seqZ start (end_ + 1 - start)) in
    modify (set_db (add_keys (chain_number self) keys));;
    mret (map pk_address keys).

(** [get_address_records(only_usable, constraints)]. *)
Definition get_address_records (self : t) (only_usable : bool) (c : Constraints)
  : M World (list AddressRow) :=
  match self with
  | HierarchicalDeterministic _ _ _ maximum_uses_per_address =>
      let c := if only_usable
               then {| used_times__lt := Some maximum_uses_per_address;
                       order_by := order_by c; limit := limit c |}
               else c in
      let c := match order_by c with
               | None => {| used_times__lt := used_times__lt c;
                            order_by := Some used_times_asc_n_asc;
                            limit := limit c |}
               | Some _ => c
               end in
      _query_addresses self c
  | SingleKey _ _ => _query_addresses self c
  end.

(** [get_addresses(only_usable, constraints)]. *)
Definition get_addresses (self : t) (only_usable : bool) (c : Constraints)
  : M World (list string) :=
  records ← get_address_records self only_usable c;
  mret (map row_address records).

(** [ensure_address_gap()]. *)
Definition ensure_address_gap (self : t) : M World (list string) :=
  match self with
  | HierarchicalDeterministic _ _ gap _ =>
      with_lock (
        addresses ← _query_addresses self
          {| used_times__lt := None; order_by := Some n_desc; limit := Some gap |};
        let existing_gap := existing_gap_loop addresses 0 in
        if existing_gap =? gap then mret []
        else
          let start := match addresses with
                       | a :: _ => row_n a + 1
                       | [] => 0
                       end in
          let end_ := start + (gap - existing_gap) in
          new_keys ← _generate_keys self start (end_ - 1);
          announce_addresses new_keys;;
          mret new_keys)
  | SingleKey pk c =>
      with_lock (
        exists_ ← get_address_records self false no_constraints;
        match exists_ with
        | [] =>
            modify (set_db (add_keys c [pk]));;
            let new_keys := [pk_address pk] in
            announce_addresses new_keys;;
            mret new_keys
        | _ :: _ => mret []
        end)
  end.

(** [random.choice(addresses)], with [draw] the random number drawn. *)
Definition random_choice (draw : nat) (addresses : list string) : M World string :=
  match addresses !! (draw mod length addresses)%nat with
  | Some a => mret a
  | None => raise IndexError
  end.

(** [get_or_create_usable_address()]. *)
Definition get_or_create_usable_address (self : t) (draw : nat) : M World string :=
  addresses ← with_lock (get_addresses self true
                 {| used_times__lt := None; order_by := None; limit := Some 10 |});
  match addresses with
  | _ :: _ => random_choice draw addresses
  | [] =>
      addresses ← ensure_address_gap self;
      match addresses with
      | a :: _ => mret a
      | [] => raise IndexError
      end
  end.

(** *** Runs of unused addresses *)

Definition unused (r : AddressRow) : Prop := used_times r = 0.

(** [l] ends with a run of [k] unused addresses. *)
Definition suffix_run (l : list AddressRow) (k : nat) : Prop :=
  exists pre run, l = pre ++ run /\ length run = k /\ Forall unused run.

(** [l] has a run of [k] unused addresses that is followed by a used one. *)
Definition closed_run (l : list AddressRow) (k : nat) : Prop :=
  exists pre run x post,
    l = pre ++ run ++ x :: post /\ length run = k /\ Forall unused run /\ ~ unused x.

(** The specification's reading of [get_max_gap]: the longest run of unused
    addresses, a run that reaches the end of the list included.
    [run_from l] is the length of the run that starts at the head. *)
Fixpoint run_from (l : list AddressRow) : nat :=
  match l with
  | [] => 0
  | a :: rest => if used_times a =? 0 then S (run_from rest) else 0
  end.

Fixpoint longest_unused_run (l : list AddressRow) : nat :=
  match l with
  | [] => 0
  | _ :: rest => Nat.max (run_from l) (longest_unused_run rest)
  end.

(** The greatest index among the rows. *)
Definition max_n (rows : list AddressRow) : option Z :=
  foldr (fun r acc => Some (match acc with
                            | Some m => Z.max (row_n r) m
                            | None => row_n r
                            end)) None rows.

(** What the loop of [get_max_gap] knows after the prefix [p]. *)
Record gap_invariant (p : list AddressRow) (acc : Z * Z) : Prop := {
  inv_max_nonneg : 0 <= fst acc;
  inv_cur_nonneg : 0 <= snd acc;
  inv_cur_run : suffix_run p (Z.to_nat (snd acc));
  inv_cur_longest : forall k, suffix_run p k -> Z.of_nat k <= snd acc;
  inv_max_bound : forall k, closed_run p k -> Z.of_nat k <= fst acc;
  inv_max_reached : fst acc = 0 \/ closed_run p (Z.to_nat (fst acc))
}.

Lemma snoc_eq_app (p : list AddressRow) x pre run :
  p ++ [x] = pre ++ run ->
  run = [] \/ exists run', run = run' ++ [x] /\ p = pre ++ run'.
Proof.
  destruct run as [| y run' _] using rev_ind; [left; reflexivity |].
  rewrite app_assoc. intros H. apply app_inj_tail in H as [Hp Hx]. subst y.
  right. exists run'. split; [reflexivity | assumption].
Qed.

Lemma closed_run_snoc p x k :
  closed_run (p ++ [x]) k ->
  closed_run p k \/ (suffix_run p k /\ ~ unused x).
Proof.
  intros (pre & run & y & post & Hl & Hlen & Hrun & Hy).
  destruct post as [| z post' _] using rev_ind.
  - right. replace (pre ++ run ++ [y]) with ((pre ++ run) ++ [y]) in Hl
      by (rewrite <- app_assoc; reflexivity).
    apply app_inj_tail in Hl as [Hp Hx]. subst y.
    split; [exists pre, run; auto | assumption].
  - left. replace (pre ++ run ++ y :: post' ++ [z])
      with ((pre ++ run ++ y :: post') ++ [z]) in Hl
      by (rewrite <- !app_assoc; reflexivity).
    apply app_inj_tail in Hl as [Hp Hx].
    exists pre, run, y, post'. auto.
Qed.

Lemma closed_run_extend p k l : closed_run p k -> closed_run (p ++ l) k.
Proof.
  intros (pre & run & y & post & Hl & Hlen & Hrun & Hy).
  exists pre, run, y, (post ++ l). subst p.
  rewrite <- !app_assoc. auto.
Qed.

Lemma gap_invariant_init : gap_invariant [] (0, 0).
Proof.
  split; simpl.
  - lia.
  - lia.
  - exists [], []. auto.
  - intros k (pre & run & Hl & Hlen & _).
    symmetry in Hl. apply app_eq_nil in Hl as [_ ->]. simpl in Hlen. lia.
  - intros k (pre & run & y & post & Hl & _).
    symmetry in Hl. apply app_eq_nil in Hl as [_ Hl].
    apply app_eq_nil in Hl as [_ Hl]. discriminate.
  - left; reflexivity.
Qed.

Lemma gap_invariant_step p acc x :
  gap_invariant p acc -> gap_invariant (p ++ [x]) (max_gap_step acc x).
Proof.
  destruct acc as [m c]. intros [Hm Hc Hrun Hlongest Hbound Hreached].
  simpl in *. destruct (Z.eqb_spec (used_times x) 0) as [Hx | Hx].
  - (* an unused address extends the current run *)
    split; simpl; [lia | lia | | | |].
    + destruct Hrun as (pre & run & Hp & Hlen & Hall).
      exists pre, (run ++ [x]). split; [| split].
      * subst p. rewrite app_assoc. reflexivity.
      * rewrite length_app. simpl. lia.
      * apply Forall_app. split; [assumption | constructor; [exact Hx | constructor]].
    + intros k (pre & run & Hl & Hlen & Hall).
      apply snoc_eq_app in Hl as [-> | (run' & -> & Hp)]; [simpl in Hlen; lia |].
      rewrite length_app in Hlen. simpl in Hlen.
      apply Forall_app in Hall as [Hall _].
      assert (Z.of_nat (length run') <= c)
        by (apply Hlongest; exists pre, run'; auto).
      lia.
    + intros k Hk. apply closed_run_snoc in Hk as [Hk | [_ Hk]].
      * apply Hbound; assumption.
      * contradiction.
    + destruct Hreached as [-> | Hk]; [left; reflexivity | right].
      apply closed_run_extend; assumption.
  - (* a used address closes the current run *)
    split; simpl; [lia | lia | | | |].
    + exists (p ++ [x]), []. rewrite app_nil_r. auto.
    + intros k (pre & run & Hl & Hlen & Hall).
      apply snoc_eq_app in Hl as [-> | (run' & -> & Hp)]; [simpl in Hlen; lia |].
      apply Forall_app in Hall as [_ Hall]. inversion Hall; subst. contradiction.
    + intros k Hk. apply closed_run_snoc in Hk as [Hk | [Hk _]].
      * specialize (Hbound k Hk). lia.
      * specialize (Hlongest k Hk). lia.
    + destruct (Z.max_spec m c) as [[Hlt ->] | [Hle ->]].
      * right. destruct Hrun as (pre & run & Hp & Hlen & Hall).
        exists pre, run, x, []. subst p. rewrite <- app_assoc. auto.
      * destruct Hreached as [-> | Hk]; [left; reflexivity | right].
        apply closed_run_extend; assumption.
Qed.

Lemma gap_invariant_fold l : forall p acc,
  gap_invariant p acc -> gap_invariant (p ++ l) (fold_left max_gap_step l acc).
Proof.
  induction l as [| x l IH]; intros p acc Hinv; simpl.
  - rewrite app_nil_r. assumption.
  - replace (p ++ x :: l) with ((p ++ [x]) ++ l)
      by (rewrite <- app_assoc; reflexivity).
    apply IH, gap_invariant_step, Hinv.
Qed.

(** The loop returns the length of the longest run of unused addresses that
    is followed by a used address. *)
Lemma max_gap_loop_closed_run addresses :
  exists m : nat,
    max_gap_loop addresses = Z.of_nat m /\
    (forall k, closed_run addresses k -> (k <= m)%nat) /\
    (m = 0%nat \/ closed_run addresses m).
Proof.
  pose proof (gap_invariant_fold addresses [] (0, 0) gap_invariant_init) as Hinv.
  simpl in Hinv. unfold max_gap_loop.
  destruct (fold_left max_gap_step addresses (0, 0)) as [m c].
  destruct Hinv as [Hm _ _ _ Hbound Hreached]. simpl in *.
  exists (Z.to_nat m). split; [lia | split].
  - intros k Hk. specialize (Hbound k Hk). lia.
  - destruct Hreached as [-> | Hk]; [left; reflexivity | right; assumption].
Qed.

(** C3: [get_max_gap] of a chain manager returns the length of the
    longest run of addresses with [used_times == 0] that is followed by a
    used address, among the chain's addresses by ascending index; the run at
    the end of the list is not counted. *)
Theorem get_max_gap_longest_closed_run pk cn gap mu w :
  let addresses :=
    get_addresses_rows cn
      {| used_times__lt := None; order_by := Some n_asc; limit := None |} (db w) in
  exists m : nat,
    get_max_gap (HierarchicalDeterministic pk cn gap mu) w = (Ok (Z.of_nat m), w) /\
    (forall k, closed_run addresses k -> (k <= m)%nat) /\
    (m = 0%nat \/ closed_run addresses m).
Proof.
  intros addresses.
  destruct (max_gap_loop_closed_run addresses) as (m & Hm & Hbound & Hreached).
  exists m. split; [| split; assumption].
  unfold get_max_gap, _query_addresses. unfold_M. simpl.
  fold addresses. rewrite Hm. reflexivity.
Qed.

(** *** The gap kept ahead of the used addresses *)

(** The rows the database returns for [order_by="n desc"] start with the
    greatest index. *)
Lemma sort_desc_head rows :
  match sort_rows (order_leb n_desc) rows with
  | a :: _ => max_n rows = Some (row_n a)
  | [] => rows = []
  end.
Proof.
  induction rows as [| x rows IH]; simpl; [reflexivity |].
  fold (sort_rows (order_leb n_desc) rows).
  destruct (sort_rows (order_leb n_desc) rows) as [| a sorted]; simpl.
  - subst rows. reflexivity.
  - fold (max_n rows). rewrite IH.
    destruct (Z.leb_spec (row_n a) (row_n x)); f_equal; lia.
Qed.

Lemma sort_rows_length leb rows : length (sort_rows leb rows) = length rows.
Proof.
  assert (Hins : forall x l, length (insert_row leb x l) = S (length l)).
  { intros x l. induction l as [| y l IHl]; simpl; [reflexivity |].
    destruct (leb x y); simpl; [reflexivity | rewrite IHl; reflexivity]. }
  induction rows as [| x rows IH]; simpl; [reflexivity |].
  fold (sort_rows leb rows). rewrite Hins, IH. reflexivity.
Qed.

(** The rows the database returns for [order_by="n asc"] are in ascending
    order of index. *)
Lemma sort_asc_sorted rows :
  Sorted (fun a b => row_n a <= row_n b) (sort_rows (order_leb n_asc) rows).
Proof.
  assert (Hins : forall x l,
    Sorted (fun a b => row_n a <= row_n b) l ->
    Sorted (fun a b => row_n a <= row_n b) (insert_row (order_leb n_asc) x l)).
  { intros x l Hl. induction Hl as [| y l Hl IHl Hhd]; simpl.
    - repeat constructor.
    - destruct (Z.leb_spec (row_n x) (row_n y)).
      + constructor; [constructor; assumption | constructor; assumption].
      + constructor; [assumption |].
        destruct Hhd as [| z l' Hz]; simpl.
        * constructor. lia.
        * destruct (Z.leb_spec (row_n x) (row_n z)); constructor; lia. }
  induction rows as [| x rows IH]; simpl; [constructor |].
  apply Hins, IH.
Qed.

(** The loop of [ensure_address_gap] counts the unused addresses at the
    front of the list, up to the first used one. *)
Lemma existing_gap_loop_spec addresses : forall acc,
  exists k : nat,
    existing_gap_loop addresses acc = acc + Z.of_nat k /\
    (k <= length addresses)%nat /\
    Forall unused (firstn k addresses) /\
    (k = length addresses \/
     exists r, addresses !! k = Some r /\ ~ unused r).
Proof.
  induction addresses as [| a rest IH]; intros acc; simpl.
  - exists 0%nat. repeat split; [lia | lia | constructor | left; reflexivity].
  - destruct (Z.eqb_spec (used_times a) 0) as [Ha | Ha].
    + destruct (IH (acc + 1)) as (k & Hk & Hlen & Hall & Hstop).
      exists (S k). repeat split; simpl.
      * lia.
      * lia.
      * constructor; assumption.
      * destruct Hstop as [-> | Hstop]; [left; reflexivity | right; exact Hstop].
    + exists 0%nat. repeat split; simpl.
      * lia.
      * lia.
      * constructor.
      * right. exists a. split; [reflexivity | exact Ha].
Qed.

(** The trailing run of unused addresses among the last [gap] addresses:
    [k] of the addresses with the greatest indices are unused, and the next
    one down, if there is one among the last [gap], is used. *)
Definition trailing_unused (gap cn : Z) (rows : list AddressRow) (k : nat) : Prop :=
  let last :=
    get_addresses_rows cn
      {| used_times__lt := None; order_by := Some n_desc; limit := Some gap |} rows in
  (k <= length last)%nat /\
  Forall unused (firstn k last) /\
  (k = length last \/ exists r, last !! k = Some r /\ ~ unused r).

(** C4: with [existing_gap] the trailing run of unused addresses among the
    last [gap] addresses of the chain, [ensure_address_gap] returns [[]] and
    changes nothing when [existing_gap = gap]; otherwise it derives the
    [gap - existing_gap] keys at the indices [max_n + 1, max_n + 2, ...]
    (from [0] for an empty chain), stores them, announces their addresses
    and returns them. *)
Theorem ensure_address_gap_spec pk cn gap mu w :
  0 <= gap -> address_generator_lock w = false ->
  exists existing_gap : nat,
    trailing_unused gap cn (db w) existing_gap /\
    if decide (Z.of_nat existing_gap = gap) then
      ensure_address_gap (HierarchicalDeterministic pk cn gap mu) w = (Ok [], w)
    else
      let start := match max_n (chain_rows cn (db w)) with
                   | Some m => m + 1
                   | None => 0
                   end in
      let keys := map (child pk) (seqZ start (gap - Z.of_nat existing_gap)) in
      ensure_address_gap (HierarchicalDeterministic pk cn gap mu) w =
        (Ok (map pk_address keys),
         {| db := add_keys cn keys (db w);
            announced := announced w ++ [map pk_address keys];
            address_generator_lock := false |}).
Proof.
  intros Hgap Hlock.
  set (addresses :=
    get_addresses_rows cn
      {| used_times__lt := None; order_by := Some n_desc; limit := Some gap |} (db w)).
  destruct (existing_gap_loop_spec addresses 0) as (k & Hk & Hlen & Hall & Hstop).
  exists k. split; [unfold trailing_unused; fold addresses; auto |].
  unfold ensure_address_gap, with_lock, _query_addresses, _generate_keys,
    announce_addresses. unfold_M. simpl. fold addresses. rewrite Hk.
  rewrite Z.add_0_l.
  destruct (decide (Z.of_nat k = gap)) as [Heq | Hne].
  - rewrite (proj2 (Z.eqb_eq _ _) Heq).
    destruct w as [rows log lock]. simpl in *. subst lock. reflexivity.
  - rewrite (proj2 (Z.eqb_neq _ _) Hne). simpl.
    assert (Hstart :
      match addresses with a :: _ => row_n a + 1 | [] => 0 end =
      match max_n (chain_rows cn (db w)) with Some m => m + 1 | None => 0 end).
    { assert (Hpos : 0 < gap).
      { destruct (Z.eq_dec gap 0) as [-> | Hnz]; [| lia].
        exfalso. apply Hne. unfold addresses, get_addresses_rows in Hlen.
        simpl in Hlen. lia. }
      unfold addresses, get_addresses_rows. simpl.
      pose proof (sort_desc_head (chain_rows cn (db w))) as Hhead.
      destruct (Z.to_nat gap) as [| g] eqn:Hg; [lia |].
      destruct (sort_rows (order_leb n_desc) (chain_rows cn (db w))) as [| a sorted];
        simpl.
      - rewrite Hhead. reflexivity.
      - rewrite Hhead. reflexivity. }
    rewrite Hstart.
    set (start := match max_n (chain_rows cn (db w)) with
                  | Some m => m + 1 | None => 0 end).
    replace (start + (gap - Z.of_nat k) - 1 + 1 - start) with (gap - Z.of_nat k) by lia.
    reflexivity.
Qed.

(** *** The single-address manager *)

(** C10: when the one address of a single-address account exists,
    [get_or_create_usable_address] returns it whatever its [used_times] is,
    and changes nothing: [SingleKey.get_address_records] does not look at
    [only_usable]. *)
Theorem single_key_returns_same_address pk cn draw w row :
  chain_rows cn (db w) = [row] -> address_generator_lock w = false ->
  get_or_create_usable_address (SingleKey pk cn) draw w = (Ok (row_address row), w).
Proof.
  intros Hrows Hlock.
  unfold get_or_create_usable_address, get_addresses, get_address_records,
    with_lock, _query_addresses, random_choice. unfold_M. simpl.
  unfold get_addresses_rows. simpl. rewrite Hrows. simpl.
  rewrite ?Nat.mod_1_r. simpl.
  destruct w as [rows log lock]. simpl in *. subst lock. reflexivity.
Qed.

(** [SingleKey.get_address_records] returns the same rows with and without
    [only_usable]. *)
Lemma single_key_ignores_only_usable pk cn c w :
  get_address_records (SingleKey pk cn) true c w =
  get_address_records (SingleKey pk cn) false c w.
Proof. reflexivity. Qed.

End Managers.

(** A small instance: a public key is its index, and its address is the
    decimal numeral of the index. *)
Definition example_child (pk i : Z) : Z := i.
Definition example_address (pk : Z) : string := pretty pk.

Definition example_row (i used : Z) : AddressRow :=
  {| chain := KeyPath.RECEIVE; pubkey := i; used_times := used |}.

Definition example_world (rows : list (@AddressRow Z)) : World :=
  {| db := rows; announced := []; address_generator_lock := false |}.

Definition example_chain : t :=
  HierarchicalDeterministic 0%Z KeyPath.RECEIVE 3%Z 1%Z.

(** Three fresh addresses: the whole list is one run of unused addresses,
    and [get_max_gap] returns 0. *)
Lemma get_max_gap_misses_trailing_run :
  let rows := [example_row 0 0; example_row 1 0; example_row 2 0] in
  let addresses :=
    get_addresses_rows id KeyPath.RECEIVE
      {| used_times__lt := None; order_by := Some n_asc; limit := None |} rows in
  addresses = rows /\
  longest_unused_run addresses = 3%nat /\
  get_max_gap id example_chain (example_world rows) = (Ok 0%Z, example_world rows) /\
  fst (get_max_gap id example_chain (example_world rows))
    <> Ok (Z.of_nat (longest_unused_run addresses)).
Proof. repeat split. intros H. discriminate H. Qed.

Example get_max_gap_inner_run :
  get_max_gap id example_chain
    (example_world [example_row 0 1; example_row 1 0; example_row 2 0;
                    example_row 3 2; example_row 4 0])
  = (Ok 2%Z,
     example_world [example_row 0 1; example_row 1 0; example_row 2 0;
                    example_row 3 2; example_row 4 0]).
Proof. reflexivity. Qed.

Lemma ensure_address_gap_spec_witness :
  exists existing_gap : nat,
    trailing_unused id 3 KeyPath.RECEIVE
      [example_row 0 1; example_row 1 0] existing_gap /\
    if decide (Z.of_nat existing_gap = 3%Z) then
      ensure_address_gap example_child id example_address example_chain
        (example_world [example_row 0 1; example_row 1 0])
      = (Ok [], example_world [example_row 0 1; example_row 1 0])
    else
      let start :=
        match max_n id (chain_rows KeyPath.RECEIVE [example_row 0 1; example_row 1 0]) with
        | Some m => (m + 1)%Z
        | None => 0%Z
        end in
      let keys := map (example_child 0%Z) (seqZ start (3 - Z.of_nat existing_gap)) in
      ensure_address_gap example_child id example_address example_chain
        (example_world [example_row 0 1; example_row 1 0])
      = (Ok (map example_address keys),
         {| db := add_keys KeyPath.RECEIVE keys [example_row 0 1; example_row 1 0];
            announced := [] ++ [map example_address keys];
            address_generator_lock := false |}).
Proof.
  apply (ensure_address_gap_spec example_child id example_address 0%Z
           KeyPath.RECEIVE 3%Z 1%Z
           (example_world [example_row 0 1; example_row 1 0])).
  - lia.
  - reflexivity.
Defined.

Example ensure_address_gap_example :
  ensure_address_gap example_child id example_address example_chain
    (example_world [example_row 0 1; example_row 1 0])
  = (Ok ["2"; "3"],
     {| db := [example_row 0 1; example_row 1 0; example_row 2 0; example_row 3 0];
        announced := [["2"; "3"]];
        address_generator_lock := false |}).
Proof. reflexivity. Qed.

Lemma single_key_returns_same_address_witness :
  get_or_create_usable_address example_child id example_address
    (SingleKey 7%Z KeyPath.RECEIVE) 5 (example_world [example_row 7 1000])
  = (Ok "7", example_world [example_row 7 1000]).
Proof.
  apply (single_key_returns_same_address example_child id example_address
           7%Z KeyPath.RECEIVE 5 (example_world [example_row 7 1000])
           (example_row 7 1000)); reflexivity.
Defined.

(** The chain manager, by contrast, does not hand out an address that has
    reached [maximum_uses_per_address]: it derives new ones. *)
Example chain_manager_skips_used_address :
  fst (get_or_create_usable_address example_child id example_address
         example_chain 5 (example_world [example_row 0 1]))
  = Ok "1".
Proof. reflexivity. Qed.

End AddressManager.

(** ** class Account *)

Module Account.
Section Account.

(** bip32 keys, and the collaborators of [lbry.crypto.crypt], [.bip32] and
    [.mnemonic]: [aes_encrypt(secret, value, init_vector)],
    [aes_decrypt(secret, value)] returning the plain text and the init
    vector, [Mnemonic().mnemonic_decode(seed)],
    [from_extended_key_string(ledger, s)] and [extended_key_string()]. *)
Context {PrivateKey PublicKey : Type}.
Variable aes_encrypt : string -> string -> string -> string.
Variable aes_decrypt : string -> string -> result (string * string).
Variable mnemonic_decode : string -> result Z.
Variable from_extended_key_string : string -> result PrivateKey.
Variable extended_key_string : PrivateKey -> string.
Variable public_extended_key_string : PublicKey -> string.

Record t : Type := mk {
  ledger_id : string;
  name : string;
  seed : string;
  modified_on : Z;
  private_key_string : string;
  init_vectors : gmap string string;
  encrypted : bool;
  private_key : option PrivateKey;
  public_key : PublicKey;
  address_generator : string;
  receiving : @AddressManager.t PublicKey;
  change : @AddressManager.t PublicKey;
  channel_keys : gmap string string
}.

Definition set_seed (v : string) (a : t) : t :=
  {| ledger_id := ledger_id a; name := name a; seed := v;
     modified_on := modified_on a; private_key_string := private_key_string a;
     init_vectors := init_vectors a; encrypted := encrypted a;
     private_key := private_key a; public_key := public_key a;
     address_generator := address_generator a; receiving := receiving a;
     change := change a; channel_keys := channel_keys a |}.

Definition set_private_key_string (v : string) (a : t) : t :=
  {| ledger_id := ledger_id a; name := name a; seed := seed a;
     modified_on := modified_on a; private_key_string := v;
     init_vectors := init_vectors a; encrypted := encrypted a;
     private_key := private_key a; public_key := public_key a;
     address_generator := address_generator a; receiving := receiving a;
     change := change a; channel_keys := channel_keys a |}.

Definition set_init_vector (key iv : string) (a : t) : t :=
  {| ledger_id := ledger_id a; name := name a; seed := seed a;
     modified_on := modified_on a; private_key_string := private_key_string a;
     init_vectors := <[key := iv]> (init_vectors a); encrypted := encrypted a;
     private_key := private_key a; public_key := public_key a;
     address_generator := address_generator a; receiving := receiving a;
     change := change a; channel_keys := channel_keys a |}.

Definition set_init_vectors (m : gmap string string) (a : t) : t :=
  {| ledger_id := ledger_id a; name := name a; seed := seed a;
     modified_on := modified_on a; private_key_string := private_key_string a;
     init_vectors := m; encrypted := encrypted a;
     private_key := private_key a; public_key := public_key a;
     address_generator := address_generator a; receiving := receiving a;
     change := change a; channel_keys := channel_keys a |}.

Definition set_encrypted (v : bool) (a : t) : t :=
  {| ledger_id := ledger_id a; name := name a; seed := seed a;
     modified_on := modified_on a; private_key_string := private_key_string a;
     init_vectors := init_vectors a; encrypted := v;
     private_key := private_key a; public_key := public_key a;
     address_generator := address_generator a; receiving := receiving a;
     change := change a; channel_keys := channel_keys a |}.

Definition set_private_key (v : option PrivateKey) (a : t) : t :=
  {| ledger_id := ledger_id a; name := name a; seed := seed a;
     modified_on := modified_on a; private_key_string := private_key_string a;
     init_vectors := init_vectors a; encrypted := encrypted a;
     private_key := v; public_key := public_key a;
     address_generator := address_generator a; receiving := receiving a;
     change := change a; channel_keys := channel_keys a |}.

(** The process an account lives in: the account object and the operating
    system's random source, [urandom_source k] being the bytes returned by
    the [k]-th call of [os.urandom(16)]. *)
Record Process : Type := mkProcess {
  self : t;
  urandom_source : nat -> string;
  urandom_reads : nat
}.

Definition on_self (f : t -> t) (p : Process) : Process :=
  {| self := f (self p); urandom_source := urandom_source p;
     urandom_reads := urandom_reads p |}.

(** [os.urandom(16)]. *)
Definition os_urandom : M Process string :=
  fun p => (Ok (urandom_source p (urandom_reads p)),
            {| self := self p; urandom_source := urandom_source p;
               urandom_reads := S (urandom_reads p) |}).

(** [get_init_vector(key)]. *)
Definition get_init_vector (key : string) : M Process string :=
  init_vector ← gets (fun p => init_vectors (self p) !! key);
  match init_vector with
  | None =>
      init_vector ← os_urandom;
      modify (on_self (set_init_vector key init_vector));;
      mret init_vector
  | Some init_vector => mret init_vector
  end.

(** The dictionary returned by [to_dict]; [d_certificates] is [None] when
    the key is not set. *)
Record AccountDict : Type := mkDict {
  d_ledger : string;
  d_name : string;
  d_seed : string;
  d_encrypted : bool;
  d_private_key : string;
  d_public_key : string;
  d_address_generator : AddressManager.GeneratorDict;
  d_modified_on : Z;
  d_certificates : option (gmap string string)
}.

(** [to_dict(encrypt_password, include_channel_keys)]. *)
Definition to_dict (encrypt_password : option string) (include_channel_keys : bool)
  : M Process AccountDict :=
  a ← gets self;
  let private_key_string0 := private_key_string a in
  let seed0 := seed a in
  let private_key_string1 :=
    match negb (encrypted a), private_key a with
    | true, Some k => extended_key_string k
    | _, _ => private_key_string0
    end in
  '(private_key_string2, seed2) ←
    (match negb (encrypted a) && truthy_opt encrypt_password, encrypt_password with
     | true, Some password =>
         private_key_string2 ←
           (if truthy private_key_string1 then
              iv ← get_init_vector "private_key";
              mret (aes_encrypt password private_key_string1 iv)
            else mret private_key_string1);
         seed2 ←
           (if truthy seed0 then
              iv ← get_init_vector "seed";
              mret (aes_encrypt password (seed a) iv)
            else mret seed0);
         mret (private_key_string2, seed2)
     | _, _ => mret (private_key_string1, seed0)
     end);
  mret {| d_ledger := ledger_id a;
          d_name := name a;
          d_seed := seed2;
          d_encrypted := encrypted a || truthy_opt encrypt_password;
          d_private_key := private_key_string2;
          d_public_key := public_extended_key_string (public_key a);
          d_address_generator :=
            AddressManager.to_dict (address_generator a) (receiving a) (change a);
          d_modified_on := modified_on a;
          d_certificates :=
            if include_channel_keys then Some (channel_keys a) else None |}.

(** [_decrypt_private_key_string(password)]. *)
Definition _decrypt_private_key_string (password : string)
  : M Process (option PrivateKey) :=
  a ← gets self;
  if negb (truthy (private_key_string a)) then mret None
  else
    '(private_key_string', iv) ← lift (aes_decrypt password (private_key_string a));
    modify (on_self (set_init_vector "private_key" iv));;
    if negb (truthy private_key_string') then mret None
    else
      k ← lift (from_extended_key_string private_key_string');
      mret (Some k).

(** [_decrypt_seed(password)]. *)
Definition _decrypt_seed (password : string) : M Process string :=
  a ← gets self;
  if negb (truthy (seed a)) then mret ""
  else
    '(seed', iv) ← lift (aes_decrypt password (seed a));
    modify (on_self (set_init_vector "seed" iv));;
    if negb (truthy seed') then mret ""
    else
      try_except (lift (mnemonic_decode seed');; mret tt)
        [IndexError] (raise ValueError);;
      mret seed'.

(** [decrypt(password)]; an [except] clause that returns [False] is the
    [None] of [attempt]. *)
Definition decrypt (password : string) : M Process bool :=
  a ← gets self;
  py_assert (encrypted a);;
  seed' ← attempt (_decrypt_seed password) [ValueError; InvalidPasswordError];
  match seed' with
  | None => mret false
  | Some seed' =>
      private_key' ← attempt (_decrypt_private_key_string password)
                       [TypeError; ValueError; InvalidPasswordError];
      match private_key' with
      | None => mret false
      | Some private_key' =>
          modify (on_self (set_seed seed'));;
          modify (on_self (set_private_key private_key'));;
          modify (on_self (set_private_key_string ""));;
          modify (on_self (set_encrypted false));;
          mret true
      end
  end.

(** [encrypt(password)]. *)
Definition encrypt (password : string) : M Process bool :=
  a ← gets self;
  py_assert (negb (encrypted a));;
  (if truthy (seed a) then
     iv ← get_init_vector "seed";
     modify (on_self (set_seed (aes_encrypt password (seed a) iv)))
   else mret tt);;
  (match private_key a with
   | Some k =>
       iv ← get_init_vector "private_key";
       modify (on_self (set_private_key_string
                          (aes_encrypt password (extended_key_string k) iv)));;
       modify (on_self (set_private_key None))
   | None => mret tt
   end);;
  modify (on_self (set_encrypted true));;
  mret true.

(** *** Init vectors are drawn once *)

Lemma get_init_vector_cached key p iv :
  init_vectors (self p) !! key = Some iv ->
  get_init_vector key p = (Ok iv, p).
Proof. intros H. unfold get_init_vector. unfold_M. rewrite H. reflexivity. Qed.

Lemma get_init_vector_fresh key p :
  init_vectors (self p) !! key = None ->
  get_init_vector key p =
    (Ok (urandom_source p (urandom_reads p)),
     {| self := set_init_vector key (urandom_source p (urandom_reads p)) (self p);
        urandom_source := urandom_source p;
        urandom_reads := S (urandom_reads p) |}).
Proof. intros H. unfold get_init_vector. unfold_M. rewrite H. reflexivity. Qed.

(** After [get_init_vector key] the vector of [key] is stored, the vectors
    stored before are kept, and nothing else of the account changes. *)
Lemma get_init_vector_stores key p :
  exists iv p',
    get_init_vector key p = (Ok iv, p') /\
    init_vectors (self p') !! key = Some iv /\
    (forall k v, init_vectors (self p) !! k = Some v ->
                 init_vectors (self p') !! k = Some v) /\
    (forall v, set_init_vector key v (self p') = set_init_vector key v (self p)) /\
    urandom_source p' = urandom_source p.
Proof.
  destruct (init_vectors (self p) !! key) as [iv |] eqn:Hiv.
  - exists iv, p. rewrite (get_init_vector_cached _ _ _ Hiv). auto.
  - eexists _, _. rewrite (get_init_vector_fresh _ _ Hiv).
    split; [reflexivity |]. simpl. split; [apply lookup_insert_eq |].
    split; [| split; [| reflexivity]].
    + intros k v Hk. rewrite lookup_insert_ne; [assumption | congruence].
    + intros v. unfold set_init_vector. simpl. rewrite insert_insert_eq. reflexivity.
Qed.

(** C8: two successive calls of [to_dict] with the same password return the
    same dictionary, whatever the random source gives; the second call
    finds every init vector stored and leaves the process as it is. *)
Theorem to_dict_twice_identical encrypt_password include_channel_keys p :
  exists d p1,
    to_dict encrypt_password include_channel_keys p = (Ok d, p1) /\
    to_dict encrypt_password include_channel_keys p1 = (Ok d, p1).
Proof.
  destruct p as [a source reads].
  destruct a as [lid nm sd mo pks ivs enc pk pub gen rcv chg certs].
  unfold to_dict, get_init_vector, os_urandom. unfold_M. simpl.
  destruct enc, pk as [k |], encrypt_password as [password |]; simpl;
    try (eexists _, _; split; reflexivity);
    destruct (truthy password) eqn:Hpw; simpl;
    try (eexists _, _; split; reflexivity).
  - destruct (truthy (extended_key_string k)) eqn:Hk, (truthy sd) eqn:Hsd;
      destruct (ivs !! "private_key") as [iv1 |] eqn:H1,
               (ivs !! "seed") as [iv2 |] eqn:H2;
      run_lookups;
      (eexists _, _; split; [reflexivity |]);
      run_lookups; reflexivity.
  - destruct (truthy pks) eqn:Hk, (truthy sd) eqn:Hsd;
      destruct (ivs !! "private_key") as [iv1 |] eqn:H1,
               (ivs !! "seed") as [iv2 |] eqn:H2;
      run_lookups;
      (eexists _, _; split; [reflexivity |]);
      run_lookups; reflexivity.
Qed.

(** *** A failed decryption *)

(** The seed step of [decrypt] returns normally. *)
Definition seed_decrypts (password : string) (a : t) : Prop :=
  truthy (seed a) = false \/
  exists seed' iv,
    aes_decrypt password (seed a) = Ok (seed', iv) /\
    (truthy seed' = false \/ exists i, mnemonic_decode seed' = Ok i).

(** The failures of a decryption with a wrong password: invalid padding of
    either field, a decrypted seed that the mnemonic does not decode, an
    extended key that does not parse. *)
Inductive decrypt_fails (password : string) (a : t) : Prop :=
| fails_seed_padding e :
    truthy (seed a) = true ->
    aes_decrypt password (seed a) = Raise e ->
    e = InvalidPasswordError \/ e = ValueError ->
    decrypt_fails password a
| fails_seed_mnemonic seed' iv :
    truthy (seed a) = true ->
    aes_decrypt password (seed a) = Ok (seed', iv) ->
    truthy seed' = true ->
    mnemonic_decode seed' = Raise IndexError ->
    decrypt_fails password a
| fails_key_padding e :
    seed_decrypts password a ->
    truthy (private_key_string a) = true ->
    aes_decrypt password (private_key_string a) = Raise e ->
    e = InvalidPasswordError \/ e = ValueError ->
    decrypt_fails password a
| fails_key_undecodable key_string iv e :
    seed_decrypts password a ->
    truthy (private_key_string a) = true ->
    aes_decrypt password (private_key_string a) = Ok (key_string, iv) ->
    truthy key_string = true ->
    from_extended_key_string key_string = Raise e ->
    e = ValueError \/ e = TypeError ->
    decrypt_fails password a.

(** The entry [key] of the init vectors is as it was, or it is the init
    vector that [aes_decrypt] read from the stored [ciphertext]. *)
Definition kept_or_read (password ciphertext key : string)
  (before after : gmap string string) : Prop :=
  after !! key = before !! key \/
  exists plain iv,
    aes_decrypt password ciphertext = Ok (plain, iv) /\ after !! key = Some iv.

(** A decryption step changes nothing but the init vectors: it may store
    under [key] the vector read from the ciphertext. *)
Definition stores_at_most (password ciphertext key : string) (p p' : Process)
  : Prop :=
  exists m,
    p' = on_self (set_init_vectors m) p /\
    (m = init_vectors (self p) \/
     exists plain iv,
       aes_decrypt password ciphertext = Ok (plain, iv) /\
       m = <[key := iv]> (init_vectors (self p))).

Lemma on_self_set_init_vectors_id p :
  p = on_self (set_init_vectors (init_vectors (self p))) p.
Proof. destruct p as [[] ? ?]. reflexivity. Qed.

Lemma _decrypt_seed_stores password p r p' :
  _decrypt_seed password p = (r, p') ->
  stores_at_most password (seed (self p)) "seed" p p'.
Proof.
  unfold _decrypt_seed. unfold_M.
  destruct (truthy (seed (self p))); simpl.
  - destruct (aes_decrypt password (seed (self p))) as [[seed' iv] | e] eqn:Haes.
    + intros H.
      assert (p' = on_self (set_init_vector "seed" iv) p) as ->.
      { destruct (truthy seed'); simpl in H; [| inv_pair H; reflexivity].
        destruct (mnemonic_decode seed') as [i | e]; simpl in H;
          [inv_pair H; reflexivity |].
        destruct (exn_eqb e IndexError || false); inv_pair H; reflexivity. }
      exists (<["seed" := iv]> (init_vectors (self p))). split; [reflexivity |].
      right. exists seed', iv. split; [exact Haes | reflexivity].
    + intros H; inv_pair H. exists (init_vectors (self p')).
      split; [apply on_self_set_init_vectors_id | left; reflexivity].
  - intros H; inv_pair H. exists (init_vectors (self p')).
    split; [apply on_self_set_init_vectors_id | left; reflexivity].
Qed.

Lemma _decrypt_private_key_string_stores password p r p' :
  _decrypt_private_key_string password p = (r, p') ->
  stores_at_most password (private_key_string (self p)) "private_key" p p'.
Proof.
  unfold _decrypt_private_key_string. unfold_M.
  destruct (truthy (private_key_string (self p))); simpl.
  - destruct (aes_decrypt password (private_key_string (self p)))
      as [[key_string iv] | e] eqn:Haes.
    + intros H.
      assert (p' = on_self (set_init_vector "private_key" iv) p) as ->.
      { destruct (truthy key_string); simpl in H; [| inv_pair H; reflexivity].
        destruct (from_extended_key_string key_string) as [k | e]; simpl in H;
          inv_pair H; reflexivity. }
      exists (<["private_key" := iv]> (init_vectors (self p))).
      split; [reflexivity |].
      right. exists key_string, iv. split; [exact Haes | reflexivity].
    + intros H; inv_pair H. exists (init_vectors (self p')).
      split; [apply on_self_set_init_vectors_id | left; reflexivity].
  - intros H; inv_pair H. exists (init_vectors (self p')).
    split; [apply on_self_set_init_vectors_id | left; reflexivity].
Qed.

(** What [decrypt] leaves untouched when it does not return [True]. *)
Record keys_kept (password : string) (p p' : Process) : Prop := {
  kept_seed : seed (self p') = seed (self p);
  kept_private_key : private_key (self p') = private_key (self p);
  kept_private_key_string :
    private_key_string (self p') = private_key_string (self p);
  kept_encrypted : encrypted (self p') = encrypted (self p);
  kept_other_vectors : forall key,
    key <> "seed" -> key <> "private_key" ->
    init_vectors (self p') !! key = init_vectors (self p) !! key;
  kept_seed_vector :
    kept_or_read password (seed (self p)) "seed"
      (init_vectors (self p)) (init_vectors (self p'));
  kept_key_vector :
    kept_or_read password (private_key_string (self p)) "private_key"
      (init_vectors (self p)) (init_vectors (self p'))
}.

Lemma keys_kept_refl password p : keys_kept password p p.
Proof. split; try reflexivity; left; reflexivity. Qed.

Lemma stores_seed_keys_kept password p p' :
  stores_at_most password (seed (self p)) "seed" p p' ->
  keys_kept password p p'.
Proof.
  intros (m & -> & [-> | (plain & iv & Haes & ->)]).
  - rewrite <- on_self_set_init_vectors_id. apply keys_kept_refl.
  - split; simpl; try reflexivity.
    + intros key Hs _. rewrite lookup_insert_ne; [reflexivity | congruence].
    + right. exists plain, iv. split; [assumption | apply lookup_insert_eq].
    + left. rewrite lookup_insert_ne; [reflexivity | discriminate].
Qed.

Lemma stores_key_keys_kept password p p1 p2 :
  keys_kept password p p1 ->
  stores_at_most password (private_key_string (self p1)) "private_key" p1 p2 ->
  keys_kept password p p2.
Proof.
  intros [Hs Hk Hks He Ho Hsv Hkv] (m & -> & [-> | (plain & iv & Haes & ->)]).
  - rewrite <- on_self_set_init_vectors_id. split; assumption.
  - split; simpl; try assumption.
    + intros key Hne1 Hne2. rewrite lookup_insert_ne; [auto | congruence].
    + destruct Hsv as [Hsv | (pl & iv0 & Ha & Hl)].
      * left. rewrite lookup_insert_ne; [assumption | discriminate].
      * right. exists pl, iv0. split; [assumption |].
        rewrite lookup_insert_ne; [assumption | discriminate].
    + right. exists plain, iv. rewrite <- Hks.
      split; [assumption | apply lookup_insert_eq].
Qed.

(** Whenever [decrypt] does not return [True] (it returns [False] or
    raises), the keys of the account are as they were. *)
Lemma decrypt_not_true_keeps_keys password p r p' :
  decrypt password p = (r, p') -> r <> Ok true -> keys_kept password p p'.
Proof.
  unfold decrypt. unfold_M. simpl.
  destruct (encrypted (self p)); simpl;
    [| intros H _; inv_pair H; apply keys_kept_refl].
  destruct (_decrypt_seed password p) as [[seed' | e] p1] eqn:Hseed.
  - pose proof (stores_seed_keys_kept _ _ _
                  (_decrypt_seed_stores _ _ _ _ Hseed)) as Hk1.
    destruct (_decrypt_private_key_string password p1) as [[key' | e] p2] eqn:Hkey.
    + intros H Hr. inv_pair H. contradiction.
    + pose proof (stores_key_keys_kept _ _ _ _ Hk1
                    (_decrypt_private_key_string_stores _ _ _ _ Hkey)) as Hk2.
      match goal with |- context [if ?b then _ else _] => destruct b end;
        intros H _; inv_pair H; assumption.
  - pose proof (stores_seed_keys_kept _ _ _
                  (_decrypt_seed_stores _ _ _ _ Hseed)) as Hk1.
    match goal with |- context [if ?b then _ else _] => destruct b end;
      intros H _; inv_pair H; assumption.
Qed.

Lemma seed_decrypts_returns password p :
  seed_decrypts password (self p) ->
  exists seed' p1,
    _decrypt_seed password p = (Ok seed', p1) /\
    private_key_string (self p1) = private_key_string (self p).
Proof.
  unfold _decrypt_seed. unfold_M.
  intros [Hempty | (seed' & iv & Haes & Hdec)].
  - rewrite Hempty. simpl. eexists _, _. split; reflexivity.
  - destruct (truthy (seed (self p))); simpl;
      [| eexists _, _; split; reflexivity].
    rewrite Haes. destruct Hdec as [Hempty | [i Hi]].
    + rewrite Hempty. simpl. eexists _, _. split; reflexivity.
    + destruct (truthy seed'); simpl; [| eexists _, _; split; reflexivity].
      rewrite Hi. simpl. eexists _, _. split; reflexivity.
Qed.

Lemma decrypt_fails_returns_false password p :
  encrypted (self p) = true -> decrypt_fails password (self p) ->
  exists p', decrypt password p = (Ok false, p').
Proof.
  intros Henc Hfail. unfold decrypt. unfold_M. simpl. rewrite Henc. simpl.
  destruct Hfail as [e Hs Haes He | seed' iv Hs Haes Hs' Hmn
                    | e Hseed Hk Haes He | key_string iv e Hseed Hk Haes Hk' Hx He].
  - unfold _decrypt_seed. unfold_M. rewrite Hs, Haes. simpl.
    destruct He as [-> | ->]; simpl; eexists; reflexivity.
  - unfold _decrypt_seed. unfold_M. rewrite Hs, Haes. simpl.
    rewrite Hs', Hmn. simpl. eexists; reflexivity.
  - destruct (seed_decrypts_returns password p Hseed) as (seed' & p1 & -> & Hpks).
    unfold _decrypt_private_key_string. unfold_M. rewrite Hpks, Hk, Haes. simpl.
    destruct He as [-> | ->]; simpl; eexists; reflexivity.
  - destruct (seed_decrypts_returns password p Hseed) as (seed' & p1 & -> & Hpks).
    unfold _decrypt_private_key_string. unfold_M. rewrite Hpks, Hk, Haes. simpl.
    rewrite Hk', Hx. simpl.
    destruct He as [-> | ->]; simpl; eexists; reflexivity.
Qed.

(** C1: a decryption that fails (invalid padding, a seed that the
    mnemonic does not decode, an extended key that does not parse) returns
    [False] and leaves [seed], [private_key], [private_key_string] and
    [encrypted] as they were; of the init vectors only the entries ['seed']
    and ['private_key'] can differ, and then they hold the vector read from
    the stored ciphertext of that field. *)
Theorem decrypt_failure_keeps_keys password p :
  encrypted (self p) = true -> decrypt_fails password (self p) ->
  exists p', decrypt password p = (Ok false, p') /\ keys_kept password p p'.
Proof.
  intros Henc Hfail.
  destruct (decrypt_fails_returns_false password p Henc Hfail) as [p' Hrun].
  exists p'. split; [exact Hrun |].
  apply (decrypt_not_true_keeps_keys password p (Ok false) p' Hrun).
  discriminate.
Qed.

(** When the padding of the seed is invalid nothing at all changes. *)
Lemma decrypt_seed_padding_invalid password p e :
  encrypted (self p) = true ->
  truthy (seed (self p)) = true ->
  aes_decrypt password (seed (self p)) = Raise e ->
  e = InvalidPasswordError \/ e = ValueError ->
  decrypt password p = (Ok false, p).
Proof.
  intros Henc Hs Haes He. unfold decrypt. unfold_M. simpl. rewrite Henc. simpl.
  unfold _decrypt_seed. unfold_M. rewrite Hs, Haes. simpl.
  destruct He as [-> | ->]; reflexivity.
Qed.

(** *** Encrypting and decrypting with the same password *)

Definition aes_round_trip : Prop :=
  forall password value iv,
    aes_decrypt password (aes_encrypt password value iv) = Ok (value, iv).

Definition ciphertext_not_empty : Prop :=
  forall password value iv, truthy (aes_encrypt password value iv) = true.

Definition key_string_round_trip : Prop :=
  forall k,
    truthy (extended_key_string k) = true /\
    from_extended_key_string (extended_key_string k) = Ok k.

Definition valid_seed (s : string) : Prop :=
  exists i, mnemonic_decode s = Ok i.

(** C2: on an unencrypted account with a valid seed and a private key,
    [encrypt(pw)] followed by [decrypt(pw)] gives back the seed and the
    private key, and the account is unencrypted again. *)
Theorem encrypt_then_decrypt password p k :
  aes_round_trip -> ciphertext_not_empty -> key_string_round_trip ->
  encrypted (self p) = false ->
  valid_seed (seed (self p)) ->
  private_key (self p) = Some k ->
  exists p1 p2,
    encrypt password p = (Ok true, p1) /\
    encrypted (self p1) = true /\
    private_key (self p1) = None /\
    decrypt password p1 = (Ok true, p2) /\
    seed (self p2) = seed (self p) /\
    private_key (self p2) = private_key (self p) /\
    encrypted (self p2) = false.
Proof.
  intros Haes Hne Hkey Henc [i Hseed] Hpk.
  destruct (Hkey k) as [Hk1 Hk2].
  destruct p as [a source reads].
  destruct a as [lid nm sd mo pks ivs enc pk pub gen rcv chg certs].
  simpl in *. subst enc pk.
  unfold encrypt, decrypt, _decrypt_seed, _decrypt_private_key_string,
    get_init_vector, os_urandom. unfold_M. simpl.
  destruct (truthy sd) eqn:Hsd; [| apply truthy_false in Hsd; subst sd];
    destruct (ivs !! "seed") as [iv1 |] eqn:H1,
             (ivs !! "private_key") as [iv2 |] eqn:H2;
    run_lookups;
    (eexists _, _; split; [reflexivity |]);
    run_lookups; rewrite ?Hne, ?Haes; run_lookups;
    rewrite ?Hne, ?Haes; run_lookups;
    repeat split; reflexivity.
Qed.

End Account.

(** *** A small instance

    A stand-in for the cipher: the ciphertext carries the init vector, the
    password and the plain text, each behind a frame that marks its end;
    decrypting with another password is refused, and a string that is not a
    ciphertext does not decode.  A private key is a string [k] whose
    extended key string is ["xprv" ++ k]. *)

Fixpoint frame (s rest : string) : string :=
  match s with
  | EmptyString => String "0" rest
  | String c s' => String "1" (String c (frame s' rest))
  end.

Fixpoint unframe (s : string) : option (string * string) :=
  match s with
  | String "0" rest => Some (EmptyString, rest)
  | String "1" (String c r) =>
      match unframe r with
      | Some (a, rest) => Some (String c a, rest)
      | None => None
      end
  | _ => None
  end.

Definition example_aes_encrypt (password value iv : string) : string :=
  frame iv (frame password value).

Definition example_aes_decrypt (password ciphertext : string)
  : result (string * string) :=
  match unframe ciphertext with
  | Some (iv, body) =>
      match unframe body with
      | Some (key, value) =>
          if String.eqb key password then Ok (value, iv)
          else Raise InvalidPasswordError
      | None => Raise ValueError
      end
  | None => Raise ValueError
  end.

Definition example_seed : string := "carbon elder sustain".

Definition example_mnemonic_decode (s : string) : result Z :=
  if String.eqb s example_seed then Ok 0%Z else Raise IndexError.

Definition example_extended_key_string (k : string) : string := "xprv" ++ k.

Definition example_from_extended_key_string (s : string) : result string :=
  match s with
  | String "x" (String "p" (String "r" (String "v" k))) => Ok k
  | _ => Raise ValueError
  end.

Definition example_encrypt : string -> M (@Process string string) bool :=
  encrypt example_aes_encrypt example_extended_key_string.

Definition example_decrypt : string -> M (@Process string string) bool :=
  decrypt example_aes_decrypt example_mnemonic_decode
    example_from_extended_key_string.

Definition example_process (a : @t string string) : Process :=
  {| self := a; urandom_source := fun k => pretty k; urandom_reads := 0 |}.

(** An account with a seed and a private key, not encrypted. *)
Definition example_account : @t string string :=
  {| ledger_id := "lbc_regtest"; name := "Account #1"; seed := example_seed;
     modified_on := 0; private_key_string := ""; init_vectors := ∅;
     encrypted := false; private_key := Some "key"; public_key := "xpubkey";
     address_generator := "single-address";
     receiving := AddressManager.SingleKey "xpubkey" KeyPath.RECEIVE;
     change := AddressManager.SingleKey "xpubkey" KeyPath.RECEIVE;
     channel_keys := ∅ |}.

(** An encrypted account as it is read from a wallet file: the seed is
    encrypted with the password ["pw"], the [private_key] entry of the file
    is not a ciphertext, and no init vector is stored yet. *)
Definition example_wallet_account : @t string string :=
  {| ledger_id := "lbc_regtest"; name := "Account #1";
     seed := example_aes_encrypt "pw" example_seed "0123456789abcdef";
     modified_on := 0; private_key_string := "not a ciphertext";
     init_vectors := ∅;
     encrypted := true; private_key := None; public_key := "xpubkey";
     address_generator := "single-address";
     receiving := AddressManager.SingleKey "xpubkey" KeyPath.RECEIVE;
     change := AddressManager.SingleKey "xpubkey" KeyPath.RECEIVE;
     channel_keys := ∅ |}.

Lemma unframe_frame s rest : unframe (frame s rest) = Some (s, rest).
Proof.
  induction s as [| c s IH]; simpl; [reflexivity |].
  rewrite IH. reflexivity.
Qed.

Lemma example_aes_round_trip :
  aes_round_trip example_aes_encrypt example_aes_decrypt.
Proof.
  intros password value iv. unfold example_aes_decrypt, example_aes_encrypt.
  rewrite !unframe_frame, String.eqb_refl. reflexivity.
Qed.

Lemma example_ciphertext_not_empty : ciphertext_not_empty example_aes_encrypt.
Proof. intros password value [| c iv]; reflexivity. Qed.

Lemma example_key_string_round_trip :
  key_string_round_trip example_from_extended_key_string
    example_extended_key_string.
Proof. intros k. split; reflexivity. Qed.

Lemma encrypt_then_decrypt_witness :
  exists p1 p2,
    example_encrypt "pw" (example_process example_account) = (Ok true, p1) /\
    encrypted (self p1) = true /\
    private_key (self p1) = None /\
    example_decrypt "pw" p1 = (Ok true, p2) /\
    seed (self p2) = example_seed /\
    private_key (self p2) = Some "key" /\
    encrypted (self p2) = false.
Proof.
  apply (encrypt_then_decrypt example_aes_encrypt example_aes_decrypt
           example_mnemonic_decode example_from_extended_key_string
           example_extended_key_string "pw" (example_process example_account) "key").
  - exact example_aes_round_trip.
  - exact example_ciphertext_not_empty.
  - exact example_key_string_round_trip.
  - reflexivity.
  - exists 0%Z. reflexivity.
  - reflexivity.
Defined.

(** A wrong password on the account of the wallet file. *)
Lemma decrypt_failure_keeps_keys_witness :
  exists p',
    example_decrypt "guess" (example_process example_wallet_account) = (Ok false, p') /\
    keys_kept example_aes_decrypt "guess" (example_process example_wallet_account) p'.
Proof.
  apply (decrypt_failure_keeps_keys example_aes_decrypt example_mnemonic_decode
           example_from_extended_key_string "guess"
           (example_process example_wallet_account)).
  - reflexivity.
  - apply (fails_seed_padding _ _ _ _ _ InvalidPasswordError).
    + reflexivity.
    + reflexivity.
    + left. reflexivity.
Defined.

(** The right password on the account of the wallet file: the seed decrypts
    and its init vector is stored, then the private key fails to decrypt and
    [decrypt] returns [False]. The seed, the keys and the flag are as
    before; the init vectors are not. *)
Lemma decrypt_failure_stores_init_vector :
  let p := example_process example_wallet_account in
  let p' := snd (example_decrypt "pw" p) in
  fst (example_decrypt "pw" p) = Ok false /\
  seed (self p') = seed (self p) /\
  encrypted (self p') = true /\
  init_vectors (self p) !! "seed" = None /\
  init_vectors (self p') !! "seed" = Some "0123456789abcdef" /\
  init_vectors (self p') <> init_vectors (self p).
Proof.
  repeat split.
  intros H. apply (f_equal (fun m => m !! "seed")) in H. discriminate H.
Qed.

End Account.

(** ** The claimtrie rules behind [TestClaimtrieSync]

    The claimtrie engine (activation delay, takeover, expiration) is not
    among the sources; the sources hold its integration tests.  The engine
    below follows section 4.8 of the specification for the claims and the
    supports on one name; updates and abandons are left out.  The test
    helpers [advance], [get_controlling], [get_active], [get_accepted] and
    [state] are those of the test class. *)

Module Claimtrie.
Local Open Scope Z_scope.

Definition COIN : Z := 100000000.

(** Modelled from the spec: the activation delay of the claimtrie engine,
    which is not among the sources,
    [min(floor((h_c - h_ctrl) / 32), 4032)]. *)
Definition activation_delay (h_c h_ctrl : Z) : Z :=
  Z.min ((h_c - h_ctrl) / 32) 4032.

(** Modelled from the spec: the activation height of a claim that enters
    at [h_c], with [h_ctrl] the height since which a controlling claim
    exists, if one does; the claim is active at once when none does. *)
Definition claim_activation_height (h_c : Z) (h_ctrl : option Z) : Z :=
  match h_ctrl with
  | Some h_ctrl => h_c + activation_delay h_c h_ctrl
  | None => h_c
  end.

(** The expiration period that the specification gives, and the one of the
    regtest chain on which the tests run. *)
Definition SPEC_EXPIRATION : Z := 2102400.
Definition REGTEST_EXPIRATION : Z := 500.

(** Modelled from the spec: the expiration height of a claim created at
    [h], with the period a parameter of the chain. *)
Definition claim_expiration_height (period h : Z) : Z := h + period.

(** A claim as [search_claims] returns it. *)
Record Claim : Type := mkClaim {
  title : string;
  amount : Z;
  staked_amount : Z;
  height : Z;
  activation_height : Z;
  expiration_height : Z;
  is_controlling : bool;
  takeover_height : Z
}.

(** A support, with the title of the claim it supports. *)
Record Support : Type := mkSupport {
  supported : string;
  support_amount : Z;
  support_height : Z;
  support_activation_height : Z;
  support_expiration_height : Z
}.

(** The operations of [advance]: [('claim', title, amount)] and
    [('support', claim, amount)]. *)
Inductive Op : Type :=
| op_claim (title : string) (amount : Z)
| op_support (title : string) (amount : Z).

(** The test case: the height of the chain and the index. *)
Record Chain : Type := mkChain {
  current_height : Z;
  claims : list Claim;
  supports : list Support
}.

Definition set_controlling (b : bool) (h : Z) (c : Claim) : Claim :=
  {| title := title c; amount := amount c; staked_amount := staked_amount c;
     height := height c; activation_height := activation_height c;
     expiration_height := expiration_height c;
     is_controlling := b; takeover_height := h |}.

Definition set_activation_height (h : Z) (c : Claim) : Claim :=
  {| title := title c; amount := amount c; staked_amount := staked_amount c;
     height := height c; activation_height := h;
     expiration_height := expiration_height c;
     is_controlling := is_controlling c; takeover_height := takeover_height c |}.

Definition add_stake (a : Z) (c : Claim) : Claim :=
  {| title := title c; amount := amount c; staked_amount := staked_amount c + a;
     height := height c; activation_height := activation_height c;
     expiration_height := expiration_height c;
     is_controlling := is_controlling c; takeover_height := takeover_height c |}.

Definition set_claims (f : list Claim -> list Claim) (chain : Chain) : Chain :=
  {| current_height := current_height chain; claims := f (claims chain);
     supports := supports chain |}.

Definition set_supports (f : list Support -> list Support) (chain : Chain) : Chain :=
  {| current_height := current_height chain; claims := claims chain;
     supports := f (supports chain) |}.

Definition live_at (h : Z) (c : Claim) : bool := h <? expiration_height c.

Definition active_at (h : Z) (c : Claim) : bool :=
  (activation_height c <=? h) && live_at h c.

Definition support_active_at (h : Z) (s : Support) : bool :=
  (support_activation_height s <=? h) && (h <? support_expiration_height s).

(** Modelled from the spec: the effective amount of a claim at [h], its
    own amount and the amounts of its supports that are active at [h]. *)
Definition effective_amount (h : Z) (supports : list Support) (c : Claim) : Z :=
  amount c
  + fold_right Z.add 0
      (map support_amount
         (List.filter (fun s => String.eqb (supported s) (title c)
                                && support_active_at h s) supports)).

(** Modelled from the spec: the controlling claim of the name at [h], if
    it has not expired. *)
Definition controlling_at (h : Z) (claims : list Claim) : option Claim :=
  List.find (fun c => is_controlling c && live_at h c) claims.

(** Modelled from the spec: a claim of the block at height [h] enters the
    index (the indexer is not among the sources); [h_ctrl] is the takeover
    height of the controlling claim, if there is one. *)
Definition new_claim (period h : Z) (h_ctrl : option Z) (title : string)
  (amount : Z) : Claim :=
  {| title := title; amount := amount; staked_amount := amount;
     height := h;
     activation_height := claim_activation_height h h_ctrl;
     expiration_height := claim_expiration_height period h;
     is_controlling := false; takeover_height := 0 |}.

(** Modelled from the spec: a support follows the rule of the claims,
    with respect to the claim it supports: a support of the controlling
    claim is active at once ([test_example_from_spec]: with the support of
    block 510, claim A holds against claim B at 513). *)
Definition new_support (period h : Z) (controlling : option Claim)
  (title : string) (amount : Z) : Support :=
  {| supported := title; support_amount := amount; support_height := h;
     support_activation_height :=
       match controlling with
       | Some c => if String.eqb (Claimtrie.title c) title then h
                   else claim_activation_height h (Some (takeover_height c))
       | None => h
       end;
     support_expiration_height := claim_expiration_height period h |}.

(** Modelled from the spec: an operation of the block at height [h]
    enters the index; a support adds its amount to the stake of its
    claim. *)
Definition insert_op (period h : Z) (controlling : option Claim)
  (chain : Chain) (op : Op) : Chain :=
  match op with
  | op_claim title amount =>
      set_claims
        (fun claims =>
           claims ++ [new_claim period h (takeover_height <$> controlling) title amount])
        chain
  | op_support title amount =>
      set_supports
        (fun supports => supports ++ [new_support period h controlling title amount])
        (set_claims
           (map (fun c => if String.eqb (Claimtrie.title c) title
                          then add_stake amount c else c))
           chain)
  end.

(** Modelled from the spec: the operations of the block at height [h]
    enter the index, in the order of the block; the controlling claim is
    the one before the block. *)
Definition insert_claims (period h : Z) (ops : list Op) (chain : Chain) : Chain :=
  fold_left (insert_op period h (controlling_at h (claims chain))) ops chain.

(** Modelled from the spec: the candidate with the greatest effective
    amount wins, then the earliest height, then the order in the block;
    [better c best] says that [c] wins against the best candidate before
    it. *)
Definition better (h : Z) (supports : list Support) (c best : Claim) : bool :=
  (effective_amount h supports best <? effective_amount h supports c)
  || ((effective_amount h supports best =? effective_amount h supports c)
      && (height c <? height best)).

Definition best_candidate (h : Z) (supports : list Support)
  (candidates : list Claim) : option Claim :=
  fold_left (fun best c => match best with
                           | None => Some c
                           | Some b => if better h supports c b then Some c else Some b
                           end) candidates None.

(** Modelled from the spec: steps 1 and 2 of the takeover at [h], the
    candidate is the best of the claims that are active and have not
    expired. *)
Definition candidate_at (h : Z) (supports : list Support) (claims : list Claim)
  : option Claim :=
  best_candidate h supports (List.filter (active_at h) claims).

(** Modelled from the spec: step 3 of the takeover, the claims that are
    still pending have their activation height recomputed against the
    new takeover height [h], as claims that enter at [h] with a takeover
    at [h]: they are active at [h] ([test_example_from_spec]: claim D,
    pending to 532, is active at the takeover of 524). *)
Definition activate_pending (h : Z) (claims : list Claim) : list Claim :=
  map (fun c => if h <? activation_height c
                then set_activation_height (claim_activation_height h (Some h)) c
                else c) claims.

(** Modelled from the spec: step 3 of the takeover, the winner is
    controlling since [h], and no other claim is controlling. *)
Definition set_winner (h : Z) (winner : option Claim) (claims : list Claim)
  : list Claim :=
  map (fun c => match winner with
                | Some w => if String.eqb (title c) (title w)
                            then set_controlling true h c
                            else set_controlling false 0 c
                | None => set_controlling false 0 c
                end) claims.

(** Modelled from the spec: a takeover at [h], the pending claims are
    activated, and the best of the active claims is controlling from [h]
    on. *)
Definition take_over (h : Z) (chain : Chain) : Chain :=
  let claims := activate_pending h (claims chain) in
  set_claims (fun _ => set_winner h (candidate_at h (supports chain) claims) claims)
    chain.

(** Modelled from the spec: step 4 of the takeover, whether the candidate
    is the controlling claim. *)
Definition keeps_control (candidate controlling : option Claim) : bool :=
  match candidate, controlling with
  | Some c, Some ctrl => String.eqb (title ctrl) (title c)
  | _, _ => false
  end.

(** Modelled from the spec: the takeover at height [h], steps 1 to 4; a
    name without a controlling claim (none yet, or the controlling claim
    has expired) is taken over at once. *)
Definition takeover (h : Z) (chain : Chain) : Chain :=
  if keeps_control (candidate_at h (supports chain) (claims chain))
                   (controlling_at h (claims chain))
  then chain
  else take_over h chain.

(** Modelled from the spec: the block at height [h], its operations enter
    the index and the takeover follows. *)
Definition apply_block (period h : Z) (ops : list Op) (chain : Chain) : Chain :=
  let chain := takeover h (insert_claims period h ops chain) in
  {| current_height := h; claims := claims chain; supports := supports chain |}.

(** Modelled from the spec: [generate(blocks)] of the node, with the
    transactions [ops] in the first block. *)
Fixpoint generate (period : Z) (blocks : nat) (ops : list Op) (chain : Chain)
  : Chain :=
  match blocks with
  | O => chain
  | S blocks' =>
      generate period blocks' []
        (apply_block period (current_height chain + 1) ops chain)
  end.

(** [advance(new_height, ops)]. *)
Definition advance (period new_height : Z) (ops : list Op) (chain : Chain)
  : Chain :=
  let blocks := new_height - current_height chain - 1 in
  let chain := if 0 <? blocks then generate period (Z.to_nat blocks) [] chain
               else chain in
  generate period 1 ops chain.

(** [asyncSetUp]: 101 blocks are generated before a test starts. *)
Definition setUp (period : Z) : Chain :=
  generate period 101 [] {| current_height := 0; claims := []; supports := [] |}.

Definition Row : Type := string * Z * Z * Z.

(** [get_controlling()]. *)
Definition get_controlling (chain : Chain) : option Row :=
  match List.filter is_controlling (claims chain) with
  | txo :: _ => Some (title txo, amount txo, staked_amount txo, takeover_height txo)
  | [] => None
  end.

(** [get_active()]. *)
Definition get_active (chain : Chain) : list Row :=
  let controlling := get_controlling chain in
  let found :=
    List.filter (fun txo => (activation_height txo <=? current_height chain)
                            && (current_height chain <? expiration_height txo))
      (claims chain) in
  let keep txo :=
    match controlling with
    | Some (t, _, _, _) => negb (String.eqb t (title txo))
    | None => true
    end in
  map (fun txo => (title txo, amount txo, staked_amount txo, activation_height txo))
      (List.filter keep found).

(** [get_accepted()]. *)
Definition get_accepted (chain : Chain) : list Row :=
  map (fun txo => (title txo, amount txo, staked_amount txo, activation_height txo))
      (List.filter (fun txo => (current_height chain <? activation_height txo)
                               && (current_height chain <? expiration_height txo))
         (claims chain)).

(** What [state(controlling, active, accepted)] compares with its
    arguments. *)
Definition state (chain : Chain) : option Row * list Row * list Row :=
  (get_controlling chain, get_active chain, get_accepted chain).

(** [test_winning_claim_expires_and_another_takes_over]: the states the
    test observes after the blocks 120, 610 and 620, and the states it
    expects. *)
Definition winning_claim_expires (period : Z)
  : list (option Row * list Row * list Row) :=
  let c0 := setUp period in
  let c1 := advance period 110 [op_claim "Claim A" (2 * COIN)] c0 in
  let c2 := advance period 120 [op_claim "Claim B" (1 * COIN)] c1 in
  let c3 := advance period 610 [] c2 in
  let c4 := advance period 620 [] c3 in
  [state c2; state c3; state c4].

Definition winning_claim_expires_expected
  : list (option Row * list Row * list Row) :=
  [ (Some ("Claim A", 2 * COIN, 2 * COIN, 110),
     [("Claim B", 1 * COIN, 1 * COIN, 120)], []);
    (Some ("Claim B", 1 * COIN, 1 * COIN, 610), [], []);
    (None, [], []) ].

(** [test_example_from_spec], up to the block 524 where the example of
    the specification ends: the chains after the blocks 113, 501, 510,
    512, 513, 520 and 524. *)
Definition example_from_spec_chains (period : Z) : list Chain :=
  let c0 := setUp period in
  let c1 := advance period 113 [op_claim "Claim A" (10 * COIN)] c0 in
  let c2 := advance period 501 [op_claim "Claim B" (20 * COIN)] c1 in
  let c3 := advance period 510 [op_support "Claim A" (14 * COIN)] c2 in
  let c4 := advance period 512 [op_claim "Claim C" (50 * COIN)] c3 in
  let c5 := advance period 513 [] c4 in
  let c6 := advance period 520 [op_claim "Claim D" (60 * COIN)] c5 in
  let c7 := advance period 524 [] c6 in
  [c1; c2; c3; c4; c5; c6; c7].

Definition example_from_spec (period : Z)
  : list (option Row * list Row * list Row) :=
  map state (example_from_spec_chains period).

Definition example_from_spec_expected
  : list (option Row * list Row * list Row) :=
  [ (Some ("Claim A", 10 * COIN, 10 * COIN, 113), [], []);
    (Some ("Claim A", 10 * COIN, 10 * COIN, 113), [],
     [("Claim B", 20 * COIN, 20 * COIN, 513)]);
    (Some ("Claim A", 10 * COIN, 24 * COIN, 113), [],
     [("Claim B", 20 * COIN, 20 * COIN, 513)]);
    (Some ("Claim A", 10 * COIN, 24 * COIN, 113), [],
     [("Claim B", 20 * COIN, 20 * COIN, 513);
      ("Claim C", 50 * COIN, 50 * COIN, 524)]);
    (Some ("Claim A", 10 * COIN, 24 * COIN, 113),
     [("Claim B", 20 * COIN, 20 * COIN, 513)],
     [("Claim C", 50 * COIN, 50 * COIN, 524)]);
    (Some ("Claim A", 10 * COIN, 24 * COIN, 113),
     [("Claim B", 20 * COIN, 20 * COIN, 513)],
     [("Claim C", 50 * COIN, 50 * COIN, 524);
      ("Claim D", 60 * COIN, 60 * COIN, 532)]);
    (Some ("Claim D", 60 * COIN, 60 * COIN, 524),
     [("Claim A", 10 * COIN, 24 * COIN, 113);
      ("Claim B", 20 * COIN, 20 * COIN, 513);
      ("Claim C", 50 * COIN, 50 * COIN, 524)],
     []) ].

(** The state that [test_example_from_spec] expects after the block 525,
    in which claim A is updated. *)
Definition example_from_spec_expected_525 : option Row * list Row * list Row :=
  (Some ("Claim A", 70 * COIN, 84 * COIN, 525),
   [("Claim B", 20 * COIN, 20 * COIN, 513);
    ("Claim C", 50 * COIN, 50 * COIN, 524);
    ("Claim D", 60 * COIN, 60 * COIN, 524)],
   []).

(** The example as section 8 of the specification tells it: claim D
    enters at 524, the block in which claim C is activated. *)
Definition spec_scenario_chain (period : Z) : Chain :=
  let c0 := setUp period in
  let c1 := advance period 113 [op_claim "Claim A" (10 * COIN)] c0 in
  let c2 := advance period 501 [op_claim "Claim B" (20 * COIN)] c1 in
  let c3 := advance period 510 [op_support "Claim A" (14 * COIN)] c2 in
  let c4 := advance period 512 [op_claim "Claim C" (50 * COIN)] c3 in
  advance period 524 [op_claim "Claim D" (60 * COIN)] c4.

(** [test_competing_claims_subsequent_blocks_height_wins]. *)
Definition subsequent_blocks (period : Z)
  : list (option Row * list Row * list Row) :=
  let c0 := setUp period in
  let c1 := advance period 113 [op_claim "Claim A" (1 * COIN)] c0 in
  let c2 := advance period 114 [op_claim "Claim B" (1 * COIN)] c1 in
  let c3 := advance period 115 [op_claim "Claim C" (1 * COIN)] c2 in
  [state c1; state c2; state c3].

Definition subsequent_blocks_expected
  : list (option Row * list Row * list Row) :=
  [ (Some ("Claim A", 1 * COIN, 1 * COIN, 113), [], []);
    (Some ("Claim A", 1 * COIN, 1 * COIN, 113),
     [("Claim B", 1 * COIN, 1 * COIN, 114)], []);
    (Some ("Claim A", 1 * COIN, 1 * COIN, 113),
     [("Claim B", 1 * COIN, 1 * COIN, 114); ("Claim C", 1 * COIN, 1 * COIN, 115)],
     []) ].

(** [test_competing_claims_in_single_block_position_wins], with the
    operations in the order of the block. *)
Definition single_block_position (period : Z) : option Row * list Row * list Row :=
  state (advance period 113 [op_claim "Claim A" (1 * COIN);
                             op_claim "Claim B" (1 * COIN)]
           (setUp period)).

Definition single_block_position_expected : option Row * list Row * list Row :=
  (Some ("Claim A", 1 * COIN, 1 * COIN, 113), [("Claim B", 1 * COIN, 1 * COIN, 113)], []).

(** [test_competing_claims_in_single_block_effective_amount_wins]. *)
Definition single_block_amount (period : Z) : option Row * list Row * list Row :=
  state (advance period 113 [op_claim "Claim A" (1 * COIN);
                             op_claim "Claim B" (2 * COIN)]
           (setUp period)).

Definition single_block_amount_expected : option Row * list Row * list Row :=
  (Some ("Claim B", 2 * COIN, 2 * COIN, 113), [("Claim A", 1 * COIN, 1 * COIN, 113)], []).

Example example_from_spec_replay :
  example_from_spec REGTEST_EXPIRATION = example_from_spec_expected.
Proof. vm_compute. reflexivity. Qed.

Example subsequent_blocks_replay :
  subsequent_blocks REGTEST_EXPIRATION = subsequent_blocks_expected.
Proof. vm_compute. reflexivity. Qed.

Example single_block_position_replay :
  single_block_position REGTEST_EXPIRATION = single_block_position_expected.
Proof. vm_compute. reflexivity. Qed.

Example single_block_amount_replay :
  single_block_amount REGTEST_EXPIRATION = single_block_amount_expected.
Proof. vm_compute. reflexivity. Qed.

Example winning_claim_expires_replay :
  winning_claim_expires REGTEST_EXPIRATION = winning_claim_expires_expected.
Proof. vm_compute. reflexivity. Qed.

(** *** What a block keeps and what it changes *)

(** [c'] is the claim [c] but for its stake. *)
Definition same_but_stake (c c' : Claim) : Prop :=
  title c' = title c /\ amount c' = amount c /\ height c' = height c /\
  activation_height c' = activation_height c /\
  expiration_height c' = expiration_height c /\
  is_controlling c' = is_controlling c /\
  takeover_height c' = takeover_height c.

Lemma same_but_stake_refl c : same_but_stake c c.
Proof. repeat split. Qed.

Lemma same_but_stake_trans c1 c2 c3 :
  same_but_stake c1 c2 -> same_but_stake c2 c3 -> same_but_stake c1 c3.
Proof.
  intros (A1 & A2 & A3 & A4 & A5 & A6 & A7) (B1 & B2 & B3 & B4 & B5 & B6 & B7).
  repeat split; congruence.
Qed.

Lemma reactivation_height h : claim_activation_height h (Some h) = h.
Proof.
  unfold claim_activation_height, activation_delay.
  rewrite Z.sub_diag. change (0 / 32) with 0. change (Z.min 0 4032) with 0. lia.
Qed.

Lemma insert_op_keeps period h controlling chain op c :
  In c (claims chain) ->
  exists c', In c' (claims (insert_op period h controlling chain op))
             /\ same_but_stake c c'.
Proof.
  intros Hin. destruct op as [t a | t a]; simpl.
  - exists c. split; [apply in_or_app; left; assumption | apply same_but_stake_refl].
  - exists (if String.eqb (title c) t then add_stake a c else c). split.
    + apply (in_map (fun c => if String.eqb (title c) t then add_stake a c else c)).
      assumption.
    + destruct (String.eqb (title c) t); repeat split.
Qed.

Lemma insert_ops_keeps period h controlling ops : forall chain c,
  In c (claims chain) ->
  exists c', In c' (claims (fold_left (insert_op period h controlling) ops chain))
             /\ same_but_stake c c'.
Proof.
  induction ops as [| op ops IH]; intros chain c Hin; simpl.
  - exists c. split; [assumption | apply same_but_stake_refl].
  - destruct (insert_op_keeps period h controlling chain op c Hin) as (c1 & Hin1 & H1).
    destruct (IH _ c1 Hin1) as (c2 & Hin2 & H2).
    exists c2. split; [assumption | eapply same_but_stake_trans; eassumption].
Qed.

(** A claim of the block is in the index after the block's operations. *)
Lemma insert_ops_enters period h controlling ops : forall chain t a,
  In (op_claim t a) ops ->
  exists c, In c (claims (fold_left (insert_op period h controlling) ops chain)) /\
    title c = t /\ amount c = a /\ height c = h /\
    activation_height c = claim_activation_height h (takeover_height <$> controlling) /\
    expiration_height c = h + period /\
    is_controlling c = false.
Proof.
  induction ops as [| op ops IH]; intros chain t a Hin; [destruct Hin |].
  destruct Hin as [-> | Hin]; simpl.
  - set (c0 := new_claim period h (takeover_height <$> controlling) t a).
    destruct (insert_ops_keeps period h controlling ops
                (set_claims (fun claims => claims ++ [c0]) chain) c0)
      as (c & Hc & (E1 & E2 & E3 & E4 & E5 & E6 & E7)).
    { simpl. apply in_or_app. right. left. reflexivity. }
    exists c. split; [exact Hc |].
    rewrite E1, E2, E3, E4, E5, E6. repeat split.
  - apply IH. assumption.
Qed.

(** The claims of the index after the block's operations come from the
    claims before, or are new and not controlling. *)
(** A claim that the block brings: not controlling, with the height of
    the block and the expiration height of the rule. *)
Definition fresh_claim (period h : Z) (c : Claim) : Prop :=
  is_controlling c = false /\ height c = h /\ expiration_height c = h + period.

Lemma insert_op_origin period h controlling chain op c' :
  In c' (claims (insert_op period h controlling chain op)) ->
  (exists c, In c (claims chain) /\ same_but_stake c c')
  \/ fresh_claim period h c'.
Proof.
  destruct op as [t a | t a]; simpl.
  - intros Hin. apply in_app_or in Hin as [Hin | [<- | []]].
    + left. exists c'. split; [assumption | apply same_but_stake_refl].
    + right. repeat split.
  - intros Hin. apply in_map_iff in Hin as (c & <- & Hin).
    left. exists c. split; [assumption |].
    destruct (String.eqb (title c) t); repeat split.
Qed.

Lemma insert_ops_origin period h controlling ops : forall chain c',
  In c' (claims (fold_left (insert_op period h controlling) ops chain)) ->
  (exists c, In c (claims chain) /\ same_but_stake c c')
  \/ fresh_claim period h c'.
Proof.
  induction ops as [| op ops IH]; intros chain c' Hin; simpl in Hin.
  - left. exists c'. split; [assumption | apply same_but_stake_refl].
  - destruct (IH _ _ Hin) as [(c1 & Hin1 & H1) | Hnew]; [| right; assumption].
    destruct (insert_op_origin _ _ _ _ _ _ Hin1) as [(c & Hc & H0) | Hnew].
    + left. exists c. split; [assumption | eapply same_but_stake_trans; eassumption].
    + right. destruct H1 as (_ & _ & E3 & _ & E5 & E6 & _).
      destruct Hnew as (N1 & N2 & N3). repeat split; congruence.
Qed.

Lemma insert_op_height period h controlling chain op :
  current_height (insert_op period h controlling chain op) = current_height chain.
Proof. destruct op; reflexivity. Qed.

(** The best candidate is one of the candidates. *)
Lemma best_candidate_fold h supports candidates : forall acc w,
  fold_left (fun best c => match best with
                           | None => Some c
                           | Some b => if better h supports c b then Some c else Some b
                           end) candidates acc = Some w ->
  acc = Some w \/ In w candidates.
Proof.
  induction candidates as [| c l IH]; intros acc w H; simpl in H; [left; assumption |].
  apply IH in H as [H | H]; [| right; right; assumption].
  destruct acc as [b |].
  - destruct (better h supports c b); injection H as <-.
    + right. left. reflexivity.
    + left. reflexivity.
  - injection H as <-. right. left. reflexivity.
Qed.

Lemma best_candidate_In h supports candidates w :
  best_candidate h supports candidates = Some w -> In w candidates.
Proof.
  intros H. apply best_candidate_fold in H as [H | H]; [discriminate | assumption].
Qed.

Lemma best_candidate_fold_some h supports candidates : forall b,
  exists w,
    fold_left (fun best c => match best with
                             | None => Some c
                             | Some b => if better h supports c b then Some c else Some b
                             end) candidates (Some b) = Some w.
Proof.
  induction candidates as [| c l IH]; intros b; simpl; [eauto |].
  destruct (better h supports c b); apply IH.
Qed.

Lemma best_candidate_some h supports candidates c :
  In c candidates -> exists w, best_candidate h supports candidates = Some w.
Proof.
  destruct candidates as [| c0 l]; [intros [] |]. intros _.
  unfold best_candidate. simpl. apply best_candidate_fold_some.
Qed.

(** A takeover was recorded at [h]: a claim is controlling since [h]. *)
Definition taken_over (h : Z) (chain : Chain) : Prop :=
  exists w, In w (claims chain) /\ is_controlling w = true /\ takeover_height w = h.

(** What [take_over] does to a claim. *)
Definition taken (h : Z) (winner : option Claim) (c : Claim) : Claim :=
  let c1 := if h <? activation_height c
            then set_activation_height (claim_activation_height h (Some h)) c
            else c in
  match winner with
  | Some w => if String.eqb (title c1) (title w)
              then set_controlling true h c1
              else set_controlling false 0 c1
  | None => set_controlling false 0 c1
  end.

Lemma take_over_claims h chain :
  claims (take_over h chain) =
  map (taken h (candidate_at h (supports chain) (activate_pending h (claims chain))))
      (claims chain).
Proof.
  unfold take_over, set_winner, activate_pending. simpl.
  rewrite map_map. reflexivity.
Qed.

Lemma taken_fields h winner c :
  title (taken h winner c) = title c /\
  amount (taken h winner c) = amount c /\
  height (taken h winner c) = height c /\
  expiration_height (taken h winner c) = expiration_height c /\
  activation_height (taken h winner c) =
    (if h <? activation_height c then h else activation_height c).
Proof.
  unfold taken. rewrite reactivation_height.
  destruct winner as [w |]; destruct (h <? activation_height c); simpl;
    try destruct (String.eqb _ _); repeat split.
Qed.

(** A takeover makes a claim controlling when a claim is live and active
    or pending. *)
Lemma take_over_taken_over h chain c :
  In c (claims chain) -> h < expiration_height c ->
  taken_over h (take_over h chain).
Proof.
  intros Hin Hlive.
  set (claims1 := activate_pending h (claims chain)).
  set (c1 := if h <? activation_height c
             then set_activation_height (claim_activation_height h (Some h)) c
             else c).
  assert (Hin1 : In c1 claims1).
  { unfold claims1, activate_pending.
    apply (in_map (fun c => if h <? activation_height c
                            then set_activation_height (claim_activation_height h (Some h)) c
                            else c)). assumption. }
  assert (Hactive : active_at h c1 = true).
  { unfold active_at, live_at, c1.
    destruct (Z.ltb_spec h (activation_height c));
      cbn [activation_height expiration_height set_activation_height].
    - rewrite reactivation_height. apply andb_true_intro.
      split; [apply Z.leb_le; lia | apply Z.ltb_lt; assumption].
    - apply andb_true_intro.
      split; [apply Z.leb_le; lia | apply Z.ltb_lt; assumption]. }
  destruct (best_candidate_some h (supports chain)
              (List.filter (active_at h) claims1) c1) as (w & Hw).
  { apply filter_In. split; assumption. }
  pose proof (best_candidate_In _ _ _ _ Hw) as Hwin.
  apply filter_In in Hwin as [Hwin _].
  unfold claims1, activate_pending in Hwin.
  apply in_map_iff in Hwin as (w0 & Hw0 & Hin0).
  exists (taken h (Some w) w0). split; [| split].
  - rewrite take_over_claims. fold claims1. unfold candidate_at. rewrite Hw.
    apply (in_map (taken h (Some w))). assumption.
  - unfold taken. rewrite Hw0, String.eqb_refl. reflexivity.
  - unfold taken. rewrite Hw0, String.eqb_refl. reflexivity.
Qed.

Lemma apply_block_claims period h ops chain :
  claims (apply_block period h ops chain)
  = claims (takeover h (insert_claims period h ops chain)).
Proof. reflexivity. Qed.

Lemma takeover_cases h chain :
  takeover h chain = chain \/ takeover h chain = take_over h chain.
Proof. unfold takeover. destruct (keeps_control _ _); [left | right]; reflexivity. Qed.

Lemma controlling_at_none h claims :
  (forall x, In x claims -> is_controlling x = true -> expiration_height x <= h) ->
  controlling_at h claims = None.
Proof.
  intros H. unfold controlling_at.
  destruct (List.find _ claims) as [x |] eqn:Hfind; [| reflexivity].
  apply find_some in Hfind as [Hin Hx].
  apply andb_prop in Hx as [Hc Hlive].
  specialize (H x Hin Hc). unfold live_at in Hlive. apply Z.ltb_lt in Hlive. lia.
Qed.

Lemma controlling_at_sole h claims ctrl :
  In ctrl claims -> is_controlling ctrl = true -> h < expiration_height ctrl ->
  (forall x, In x claims -> is_controlling x = true -> x = ctrl) ->
  controlling_at h claims = Some ctrl.
Proof.
  intros Hin Hc Hlive Hsole. unfold controlling_at.
  destruct (List.find _ claims) as [x |] eqn:Hfind.
  - apply find_some in Hfind as [Hx Hp].
    apply andb_prop in Hp as [Hxc _]. rewrite (Hsole x Hx Hxc). reflexivity.
  - apply (find_none _ _ Hfind) in Hin.
    unfold live_at in Hin. rewrite Hc in Hin. simpl in Hin.
    apply Z.ltb_ge in Hin. lia.
Qed.

Lemma activation_delay_nonneg h_c h_ctrl :
  h_ctrl <= h_c -> 0 <= activation_delay h_c h_ctrl.
Proof.
  intros H. unfold activation_delay.
  assert (0 <= (h_c - h_ctrl) / 32) by (apply Z.div_pos; lia).
  lia.
Qed.

(** C5: a claim of the block at [h_c] is in the index after the block,
    with [h_c] as its height.  When no takeover is recorded at [h_c], it is
    activated at [h_c + min(floor((h_c - h_ctrl) / 32), 4032)] for the
    claim that is controlling since [h_ctrl], and when no claim is
    controlling, at [h_c].  A takeover at [h_c] activates it at [h_c], and
    so it does every claim that was pending: the activation height of a
    claim of the index changes at a takeover before it is reached, and
    only then. *)
Theorem activation_height_rule period h_c ops chain :
  0 < period ->
  (forall x, In x (claims chain) -> is_controlling x = true -> takeover_height x < h_c) ->
  let chain' := apply_block period h_c ops chain in
  (forall title0 amount0,
     In (op_claim title0 amount0) ops ->
     exists c,
       In c (claims chain') /\
       title c = title0 /\ amount c = amount0 /\ height c = h_c /\
       ((forall x, In x (claims chain) -> is_controlling x = true ->
                   expiration_height x <= h_c) ->
        activation_height c = h_c) /\
       (forall ctrl,
          In ctrl (claims chain) -> is_controlling ctrl = true ->
          h_c < expiration_height ctrl ->
          (forall x, In x (claims chain) -> is_controlling x = true -> x = ctrl) ->
          (~ taken_over h_c chain' ->
           activation_height c
           = h_c + Z.min ((h_c - takeover_height ctrl) / 32) 4032) /\
          (taken_over h_c chain' -> activation_height c = h_c))) /\
  (forall c,
     In c (claims chain) ->
     exists c',
       In c' (claims chain') /\ title c' = title c /\ height c' = height c /\
       (activation_height c <= h_c -> activation_height c' = activation_height c) /\
       (h_c < activation_height c -> h_c < expiration_height c ->
        (~ taken_over h_c chain' -> activation_height c' = activation_height c) /\
        (taken_over h_c chain' -> activation_height c' = h_c))).
Proof.
  intros Hperiod Hnew chain'.
  set (chain1 := insert_claims period h_c ops chain).
  assert (Hclaims : claims chain' = claims (takeover h_c chain1)) by reflexivity.
  assert (Hkept : takeover h_c chain1 = chain1 -> ~ taken_over h_c chain').
  { intros Heq (w & Hw & Hc & Ht). rewrite Hclaims, Heq in Hw.
    destruct (insert_ops_origin _ _ _ _ _ _ Hw) as [(x & Hx & Hsame) | (Hfalse & _)];
      [| congruence].
    destruct Hsame as (_ & _ & _ & _ & _ & E6 & E7).
    assert (takeover_height x < h_c) by (apply Hnew; [assumption | congruence]).
    lia. }
  assert (Htook : forall x, takeover h_c chain1 = take_over h_c chain1 ->
                    In x (claims chain1) -> h_c < expiration_height x ->
                    taken_over h_c chain').
  { intros x Heq Hx Hlive.
    destruct (take_over_taken_over h_c chain1 x Hx Hlive) as (w & Hw & Hc & Ht).
    exists w. rewrite Hclaims, Heq. auto. }
  split.
  - intros title0 amount0 Hop.
    destruct (insert_ops_enters period h_c (controlling_at h_c (claims chain))
                ops chain title0 amount0 Hop)
      as (c1 & Hc1 & Ht & Ha & Hh & Hact & Hexp & _).
    fold (insert_claims period h_c ops chain) in Hc1. fold chain1 in Hc1.
    destruct (takeover_cases h_c chain1) as [Heq | Heq].
    + (* the controlling claim keeps control *)
      exists c1. rewrite Hclaims, Heq.
      split; [assumption |]. split; [assumption |].
      split; [assumption |]. split; [assumption |]. split.
      * intros Hnone. rewrite Hact, (controlling_at_none _ _ Hnone). reflexivity.
      * intros ctrl Hin Hc Hlive Hsole. split.
        -- intros _. rewrite Hact, (controlling_at_sole _ _ _ Hin Hc Hlive Hsole).
           reflexivity.
        -- intros Htk. destruct (Hkept Heq Htk).
    + (* a takeover *)
      set (w := candidate_at h_c (supports chain1) (activate_pending h_c (claims chain1))).
      destruct (taken_fields h_c w c1) as (F1 & F2 & F3 & F4 & F5).
      exists (taken h_c w c1). rewrite Hclaims, Heq, take_over_claims. fold w.
      split; [apply (in_map (taken h_c w)); assumption |].
      split; [congruence |]. split; [congruence |]. split; [congruence |].
      assert (Htk : taken_over h_c chain') by (apply (Htook c1 Heq Hc1); lia).
      split.
      * intros Hnone. rewrite F5, Hact, (controlling_at_none _ _ Hnone). simpl.
        rewrite Z.ltb_irrefl. reflexivity.
      * intros ctrl Hin Hc Hlive Hsole. split; [intros Hno; destruct (Hno Htk) |].
        intros _. rewrite F5, Hact, (controlling_at_sole _ _ _ Hin Hc Hlive Hsole).
        simpl.
        pose proof (activation_delay_nonneg h_c (takeover_height ctrl)
                      ltac:(specialize (Hnew ctrl Hin Hc); lia)) as Hdelay.
        destruct (Z.ltb_spec h_c (h_c + activation_delay h_c (takeover_height ctrl)));
          lia.
  - intros c Hin.
    destruct (insert_ops_keeps period h_c (controlling_at h_c (claims chain))
                ops chain c Hin)
      as (c1 & Hc1 & (E1 & E2 & E3 & E4 & E5 & E6 & E7)).
    fold (insert_claims period h_c ops chain) in Hc1. fold chain1 in Hc1.
    destruct (takeover_cases h_c chain1) as [Heq | Heq].
    + exists c1. rewrite Hclaims, Heq.
      split; [assumption |]. split; [assumption |]. split; [assumption |].
      split; [intros _; assumption |].
      intros _ _. split; [intros _; assumption |].
      intros Htk. destruct (Hkept Heq Htk).
    + set (w := candidate_at h_c (supports chain1) (activate_pending h_c (claims chain1))).
      destruct (taken_fields h_c w c1) as (F1 & F2 & F3 & F4 & F5).
      exists (taken h_c w c1). rewrite Hclaims, Heq, take_over_claims. fold w.
      split; [apply (in_map (taken h_c w)); assumption |].
      split; [congruence |]. split; [congruence |].
      split.
      * intros Hle. rewrite F5, E4.
        destruct (Z.ltb_spec h_c (activation_height c)); [lia | reflexivity].
      * intros Hpending Hlive.
        assert (Htk : taken_over h_c chain') by (apply (Htook c1 Heq Hc1); lia).
        split; [intros Hno; destruct (Hno Htk) |].
        intros _. rewrite F5, E4.
        destruct (Z.ltb_spec h_c (activation_height c)); [reflexivity | lia].
Qed.

(** *** The chains that the tests build *)

(** The chains that blocks build from the empty chain. *)
Inductive reachable (period : Z) : Chain -> Prop :=
| reachable_genesis :
    reachable period {| current_height := 0; claims := []; supports := [] |}
| reachable_block chain ops :
    reachable period chain ->
    reachable period (apply_block period (current_height chain + 1) ops chain).

Lemma generate_reachable period blocks : forall ops chain,
  reachable period chain -> reachable period (generate period blocks ops chain).
Proof.
  induction blocks as [| n IH]; intros ops chain H; simpl; [assumption |].
  apply IH. constructor. assumption.
Qed.

Lemma advance_reachable period new_height ops chain :
  reachable period chain -> reachable period (advance period new_height ops chain).
Proof.
  intros H. unfold advance. apply generate_reachable.
  destruct (0 <? _); [apply generate_reachable |]; assumption.
Qed.

Lemma setUp_reachable period : reachable period (setUp period).
Proof. unfold setUp. apply generate_reachable. apply reachable_genesis. Qed.

Lemma generate_height period blocks : forall ops chain,
  current_height (generate period blocks ops chain)
  = current_height chain + Z.of_nat blocks.
Proof.
  induction blocks as [| n IH]; intros ops chain; simpl; [lia |].
  rewrite IH. simpl. lia.
Qed.

Lemma advance_height period new_height ops chain :
  current_height chain < new_height ->
  current_height (advance period new_height ops chain) = new_height.
Proof.
  intros H. unfold advance. rewrite generate_height.
  destruct (Z.ltb_spec 0 (new_height - current_height chain - 1)).
  - rewrite generate_height. lia.
  - lia.
Qed.

(** What a block keeps of a claim. *)
Definition same_claim (c c' : Claim) : Prop :=
  title c' = title c /\ height c' = height c /\
  expiration_height c' = expiration_height c.

Lemma takeover_keeps h chain c :
  In c (claims chain) ->
  exists c', In c' (claims (takeover h chain)) /\ same_claim c c'.
Proof.
  intros Hin. destruct (takeover_cases h chain) as [-> | ->].
  - exists c. repeat split. assumption.
  - rewrite take_over_claims.
    set (w := candidate_at _ _ _).
    destruct (taken_fields h w c) as (F1 & _ & F3 & F4 & _).
    exists (taken h w c). split; [apply (in_map (taken h w)); assumption |].
    repeat split; assumption.
Qed.

Lemma takeover_origin h chain c' :
  In c' (claims (takeover h chain)) ->
  exists c, In c (claims chain) /\ same_claim c c'.
Proof.
  destruct (takeover_cases h chain) as [-> | ->].
  - intros Hin. exists c'. repeat split. assumption.
  - rewrite take_over_claims.
    set (w := candidate_at _ _ _).
    intros Hin. apply in_map_iff in Hin as (c & <- & Hin).
    destruct (taken_fields h w c) as (F1 & _ & F3 & F4 & _).
    exists c. repeat split; assumption.
Qed.

Lemma takeover_supports h chain : supports (takeover h chain) = supports chain.
Proof. destruct (takeover_cases h chain) as [-> | ->]; reflexivity. Qed.

Lemma apply_block_keeps period h ops chain c :
  In c (claims chain) ->
  exists c', In c' (claims (apply_block period h ops chain)) /\ same_claim c c'.
Proof.
  intros Hin.
  destruct (insert_ops_keeps period h (controlling_at h (claims chain)) ops chain c Hin)
    as (c1 & Hc1 & (E1 & _ & E3 & _ & E5 & _)).
  destruct (takeover_keeps h (insert_claims period h ops chain) c1 Hc1)
    as (c2 & Hc2 & (G1 & G2 & G3)).
  exists c2. split; [exact Hc2 |]. repeat split; congruence.
Qed.

(** The claims of a block enter the index, with the height of the block
    and the expiration height of the rule. *)
Lemma apply_block_enters period h ops chain t a :
  In (op_claim t a) ops ->
  exists c, In c (claims (apply_block period h ops chain)) /\
    title c = t /\ height c = h /\ expiration_height c = h + period.
Proof.
  intros Hop.
  destruct (insert_ops_enters period h (controlling_at h (claims chain)) ops chain t a Hop)
    as (c1 & Hc1 & Ht & _ & Hh & _ & Hexp & _).
  destruct (takeover_keeps h (insert_claims period h ops chain) c1 Hc1)
    as (c2 & Hc2 & (G1 & G2 & G3)).
  exists c2. split; [exact Hc2 |]. repeat split; congruence.
Qed.

Lemma generate_keeps period blocks : forall ops chain c,
  In c (claims chain) ->
  exists c', In c' (claims (generate period blocks ops chain)) /\ same_claim c c'.
Proof.
  induction blocks as [| n IH]; intros ops chain c Hin; simpl.
  - exists c. repeat split. assumption.
  - destruct (apply_block_keeps period (current_height chain + 1) ops chain c Hin)
      as (c1 & Hc1 & (E1 & E2 & E3)).
    destruct (IH [] _ c1 Hc1) as (c2 & Hc2 & (G1 & G2 & G3)).
    exists c2. split; [exact Hc2 |]. repeat split; congruence.
Qed.

Lemma advance_keeps period new_height ops chain c :
  In c (claims chain) ->
  exists c', In c' (claims (advance period new_height ops chain)) /\ same_claim c c'.
Proof.
  intros Hin. unfold advance.
  destruct (0 <? _).
  - destruct (generate_keeps period (Z.to_nat (new_height - current_height chain - 1))
                [] chain c Hin) as (c1 & Hc1 & (E1 & E2 & E3)).
    destruct (generate_keeps period 1 ops _ c1 Hc1) as (c2 & Hc2 & (G1 & G2 & G3)).
    exists c2. split; [exact Hc2 |]. repeat split; congruence.
  - apply generate_keeps. assumption.
Qed.

Lemma advance_enters period new_height ops chain t a :
  current_height chain < new_height ->
  In (op_claim t a) ops ->
  exists c, In c (claims (advance period new_height ops chain)) /\
    title c = t /\ height c = new_height /\
    expiration_height c = new_height + period.
Proof.
  intros Hlt Hop. unfold advance.
  set (chain1 := if 0 <? new_height - current_height chain - 1
                 then generate period (Z.to_nat (new_height - current_height chain - 1))
                        [] chain
                 else chain).
  assert (Hh : current_height chain1 + 1 = new_height).
  { unfold chain1. destruct (Z.ltb_spec 0 (new_height - current_height chain - 1)).
    - rewrite generate_height. lia.
    - lia. }
  simpl. rewrite Hh. apply (apply_block_enters period new_height ops chain1 t a Hop).
Qed.

(** The rule of the expiration heights, on a chain. *)
Definition expires_by_rule (period : Z) (chain : Chain) : Prop :=
  Forall (fun c => expiration_height c = height c + period
                   /\ height c <= current_height chain) (claims chain) /\
  Forall (fun s => support_expiration_height s = support_height s + period
                   /\ support_height s <= current_height chain) (supports chain).

Lemma insert_ops_supports period h controlling ops : forall chain,
  Forall (fun s => support_expiration_height s = support_height s + period
                   /\ support_height s <= h) (supports chain) ->
  Forall (fun s => support_expiration_height s = support_height s + period
                   /\ support_height s <= h)
         (supports (fold_left (insert_op period h controlling) ops chain)).
Proof.
  induction ops as [| op ops IH]; intros chain H; simpl; [assumption |].
  apply IH. destruct op as [t a | t a]; simpl; [assumption |].
  apply Forall_app. split; [assumption |].
  constructor; [| constructor]. simpl. unfold claim_expiration_height. lia.
Qed.

Lemma apply_block_expires_by_rule period h ops chain :
  current_height chain <= h ->
  expires_by_rule period chain ->
  expires_by_rule period (apply_block period h ops chain).
Proof.
  intros Hh [Hclaims Hsupports]. split.
  - apply List.Forall_forall. intros c' Hin. simpl.
    destruct (takeover_origin _ _ _ Hin) as (c1 & Hc1 & (G1 & G2 & G3)).
    destruct (insert_ops_origin _ _ _ _ _ _ Hc1)
      as [(c & Hc & (_ & _ & E3 & _ & E5 & _)) | (_ & N2 & N3)].
    + rewrite List.Forall_forall in Hclaims. destruct (Hclaims c Hc). lia.
    + lia.
  - simpl. rewrite takeover_supports. apply insert_ops_supports.
    eapply Forall_impl; [exact Hsupports |]. simpl. intros s [? ?]. lia.
Qed.

Lemma reachable_expires_by_rule period chain :
  reachable period chain -> expires_by_rule period chain.
Proof.
  induction 1 as [| chain ops _ IH].
  - split; constructor.
  - apply apply_block_expires_by_rule; [lia | assumption].
Qed.

(** Whatever the engine does: while a claim A of the index has not expired,
    [state] cannot show claim B controlling with nothing active and nothing
    accepted, since claim A is controlling, active or accepted. *)
Lemma state_shows_unexpired_claim chain c row :
  In c (claims chain) ->
  title c = "Claim A" ->
  current_height chain < expiration_height c ->
  fst (fst (fst row)) = "Claim B" ->
  state chain <> (Some row, [], []).
Proof.
  intros Hin Htitle Hlive Hrow Hstate. unfold state in Hstate.
  injection Hstate as Hctrl Hactive Haccepted.
  destruct (Z.ltb_spec (current_height chain) (activation_height c)) as [Hpending | Hactivated].
  - (* pending: among the accepted *)
    unfold get_accepted in Haccepted. apply map_eq_nil in Haccepted.
    assert (Hc : In c (List.filter
                         (fun txo => (current_height chain <? activation_height txo)
                                     && (current_height chain <? expiration_height txo))
                         (claims chain))).
    { apply filter_In. split; [assumption |].
      apply andb_true_intro. split; apply Z.ltb_lt; assumption. }
    rewrite Haccepted in Hc. destruct Hc.
  - (* activated: among the active, as claim B is the controlling one *)
    unfold get_active in Hactive. rewrite Hctrl in Hactive.
    destruct row as [[[t a] s] h]. simpl in Hrow. subst t.
    apply map_eq_nil in Hactive.
    assert (Hc : In c (List.filter
                         (fun txo => negb ("Claim B" =? title txo)%string)
                         (List.filter
                            (fun txo => (activation_height txo <=? current_height chain)
                                        && (current_height chain <? expiration_height txo))
                            (claims chain)))).
    { apply filter_In. split.
      - apply filter_In. split; [assumption |].
        apply andb_true_intro. split; [apply Z.leb_le | apply Z.ltb_lt]; assumption.
      - rewrite Htitle. reflexivity. }
    rewrite Hactive in Hc. destruct Hc.
Qed.

(** Whether the engine passes
    [test_winning_claim_expires_and_another_takes_over] with a period. *)
Definition passes_winning_claim_expires (period : Z) : bool :=
  bool_decide (winning_claim_expires period = winning_claim_expires_expected).

Lemma periods_up_to_500 :
  forallb (fun period => negb (passes_winning_claim_expires period) || (period =? 500))
          (seqZ 1 500) = true.
Proof. vm_compute. reflexivity. Qed.

(** A period with which the test passes is positive and at most 500:
    claim B is active at 120, and claim A, created at 110, is gone at
    610. *)
Lemma winning_claim_expires_bounds_from period c0 :
  current_height c0 = 101 -> reachable period c0 ->
  let c1 := advance period 110 [op_claim "Claim A" (2 * COIN)] c0 in
  let c2 := advance period 120 [op_claim "Claim B" (1 * COIN)] c1 in
  let c3 := advance period 610 [] c2 in
  state c2 = (Some ("Claim A", 2 * COIN, 2 * COIN, 110),
              [("Claim B", 1 * COIN, 1 * COIN, 120)], []) ->
  state c3 = (Some ("Claim B", 1 * COIN, 1 * COIN, 610), [], []) ->
  0 < period <= 500.
Proof.
  intros Hh0 Hr0 c1 c2 c3 H2 H3.
  assert (Hh1 : current_height c1 = 110).
  { unfold c1. apply advance_height. rewrite Hh0. reflexivity. }
  assert (Hh2 : current_height c2 = 120).
  { unfold c2. apply advance_height. rewrite Hh1. reflexivity. }
  assert (Hh3 : current_height c3 = 610).
  { unfold c3. apply advance_height. rewrite Hh2. reflexivity. }
  assert (Hr2 : reachable period c2)
    by (do 2 apply advance_reachable; exact Hr0).
  assert (Ha3 : exists a3, In a3 (claims c3) /\ title a3 = "Claim A"
                           /\ expiration_height a3 = 110 + period).
  { destruct (advance_enters period 110 [op_claim "Claim A" (2 * COIN)] c0
                "Claim A" (2 * COIN)) as (a1 & Ha1 & Ht1 & Hg1 & He1);
      [rewrite Hh0; reflexivity | left; reflexivity |].
    destruct (advance_keeps period 120 [op_claim "Claim B" (1 * COIN)] c1 a1 Ha1)
      as (a2 & Ha2 & (T2 & G2 & E2)).
    destruct (advance_keeps period 610 [] c2 a2 Ha2) as (a3 & Ha3 & (T3 & G3 & E3)).
    exists a3. split; [exact Ha3 |]. split.
    - rewrite T3, T2. exact Ht1.
    - rewrite E3, E2. exact He1. }
  clearbody c3 c2 c1.
  destruct Ha3 as (a3 & Ha3 & T3 & E3).
  split.
  - (* claim B is active at 120 *)
    unfold state in H2. injection H2 as _ Hactive _.
    assert (Hrow : In ("Claim B", 1 * COIN, 1 * COIN, 120) (get_active c2))
      by (rewrite Hactive; left; reflexivity).
    unfold get_active in Hrow.
    apply in_map_iff in Hrow as (x & _ & Hx).
    apply filter_In in Hx as [Hx _]. apply filter_In in Hx as [Hx Hfound].
    apply andb_prop in Hfound as [_ Hlive]. apply Z.ltb_lt in Hlive.
    destruct (reachable_expires_by_rule period c2 Hr2) as [Hrule _].
    rewrite List.Forall_forall in Hrule. destruct (Hrule x Hx). lia.
  - (* claim A is gone at 610 *)
    destruct (Z.le_gt_cases period 500) as [Hle | Hgt]; [assumption |].
    exfalso.
    apply (state_shows_unexpired_claim c3 a3 ("Claim B", 1 * COIN, 1 * COIN, 610));
      [assumption | assumption | | reflexivity | assumption].
    rewrite Hh3, E3. lia.
Qed.

Lemma setUp_height period : current_height (setUp period) = 101.
Proof. unfold setUp. rewrite generate_height. reflexivity. Qed.

Lemma winning_claim_expires_bounds period :
  winning_claim_expires period = winning_claim_expires_expected ->
  0 < period <= 500.
Proof.
  intros H.
  apply (winning_claim_expires_bounds_from period (setUp period)
           (setUp_height period) (setUp_reachable period)).
  - exact (f_equal (fun l => nth 0 l (None, [], [])) H).
  - exact (f_equal (fun l => nth 1 l (None, [], [])) H).
Qed.

Lemma forallb_seqZ (f : Z -> bool) m n k :
  forallb f (seqZ m n) = true -> m <= k < m + n -> f k = true.
Proof.
  intros H Hk. rewrite forallb_forall in H. apply H.
  apply list_elem_of_In, elem_of_seqZ. exact Hk.
Qed.

Lemma winning_claim_expires_period period :
  winning_claim_expires period = winning_claim_expires_expected -> period = 500.
Proof.
  intros H. pose proof (winning_claim_expires_bounds period H) as Hbounds.
  assert (Hcheck : negb (passes_winning_claim_expires period) || (period =? 500) = true).
  { exact (forallb_seqZ
             (fun period => negb (passes_winning_claim_expires period) || (period =? 500))
             1 500 period periods_up_to_500 ltac:(lia)). }
  assert (Hpass : passes_winning_claim_expires period = true).
  { unfold passes_winning_claim_expires. apply bool_decide_eq_true_2. exact H. }
  rewrite Hpass in Hcheck. apply Z.eqb_eq. exact Hcheck.
Qed.

(** C6: a claim indexed at height [h] expires at [h] plus the expiration
    period of the chain: the claims of a block enter the index with that
    expiration height, and every claim and every support of a chain built
    by blocks has it.  The tests fix the period of their regtest chain:
    [test_winning_claim_expires_and_another_takes_over], whose claims of
    the heights 110 and 120 leave at 610 and 620, passes with the period
    500 and with no other. *)
Theorem expiration_height_rule :
  (forall period chain ops t a,
     In (op_claim t a) ops ->
     exists c,
       In c (claims (apply_block period (current_height chain + 1) ops chain)) /\
       title c = t /\ height c = current_height chain + 1 /\
       expiration_height c = height c + period) /\
  (forall period chain,
     reachable period chain ->
     Forall (fun c => expiration_height c = height c + period) (claims chain) /\
     Forall (fun s => support_expiration_height s = support_height s + period)
            (supports chain)) /\
  (forall period,
     winning_claim_expires period = winning_claim_expires_expected <->
     period = REGTEST_EXPIRATION).
Proof.
  split; [| split].
  - intros period chain ops t a Hop.
    destruct (apply_block_enters period (current_height chain + 1) ops chain t a Hop)
      as (c & Hc & Ht & Hh & He).
    exists c. repeat split; try assumption. rewrite Hh. assumption.
  - intros period chain Hr.
    destruct (reachable_expires_by_rule period chain Hr) as [Hc Hs].
    split; (eapply Forall_impl; [eassumption |]); simpl; intros x [H _]; exact H.
  - intros period. split.
    + apply winning_claim_expires_period.
    + intros ->. exact winning_claim_expires_replay.
Qed.

(** With an expiration [height + 2102400], claim A of
    [test_winning_claim_expires_and_another_takes_over] is still controlling
    after the blocks 610 and 620, where the test expects claim B and then no
    claim at all; and no index that holds claim A, created at 110, with that
    expiration height shows at 610 the state that the test expects. *)
Lemma spec_expiration_contradicts_test :
  winning_claim_expires SPEC_EXPIRATION =
    [ (Some ("Claim A", 2 * COIN, 2 * COIN, 110),
       [("Claim B", 1 * COIN, 1 * COIN, 120)], []);
      (Some ("Claim A", 2 * COIN, 2 * COIN, 110),
       [("Claim B", 1 * COIN, 1 * COIN, 120)], []);
      (Some ("Claim A", 2 * COIN, 2 * COIN, 110),
       [("Claim B", 1 * COIN, 1 * COIN, 120)], []) ] /\
  winning_claim_expires SPEC_EXPIRATION <> winning_claim_expires_expected /\
  ~ (exists chain c,
       In c (claims chain) /\ title c = "Claim A" /\ height c = 110 /\
       expiration_height c = claim_expiration_height SPEC_EXPIRATION (height c) /\
       current_height chain = 610 /\
       state chain = (Some ("Claim B", 1 * COIN, 1 * COIN, 610), [], [])).
Proof.
  split; [vm_compute; reflexivity | split].
  - vm_compute. intros H. discriminate H.
  - intros (chain & c & Hin & Htitle & Hheight & Hexp & Hcur & Hstate).
    apply (state_shows_unexpired_claim chain c ("Claim B", 1 * COIN, 1 * COIN, 610));
      try assumption; [| reflexivity].
    rewrite Hcur, Hexp, Hheight. unfold claim_expiration_height, SPEC_EXPIRATION. lia.
Qed.

(** [test_lbrycrd_database_queries] reads two supports with
    [expiration_height] 852 from the node: no height of the chain is 2102400
    blocks before it. *)
Example expiration_852_is_not_spec_expiration :
  ~ exists h, 0 <= h /\ claim_expiration_height SPEC_EXPIRATION h = 852.
Proof. intros (h & Hh & H). unfold claim_expiration_height, SPEC_EXPIRATION in H. lia. Qed.

(** The activation heights of [test_example_from_spec]: the claims B, C and
    D enter at 501, 512 and 520 while claim A is controlling since 113. *)
Example activation_heights_from_spec :
  claim_activation_height 501 (Some 113) = 513 /\
  claim_activation_height 512 (Some 113) = 524 /\
  claim_activation_height 520 (Some 113) = 532.
Proof. repeat split. Qed.

(** The delay is never negative for a claim that enters after the takeover,
    and never more than 4032 blocks. *)
Lemma activation_delay_bounds h_c h_ctrl :
  h_ctrl <= h_c -> 0 <= activation_delay h_c h_ctrl <= 4032.
Proof.
  intros H. pose proof (activation_delay_nonneg h_c h_ctrl H).
  unfold activation_delay in *. lia.
Qed.

(** The chain of [test_example_from_spec] after the block 513, and the
    claim that is controlling in it. *)
Definition example_chain_513 : Chain :=
  nth 4 (example_from_spec_chains REGTEST_EXPIRATION) (setUp REGTEST_EXPIRATION).

Definition example_claim_A : Claim :=
  {| title := "Claim A"; amount := 10 * COIN; staked_amount := 24 * COIN;
     height := 113; activation_height := 113; expiration_height := 613;
     is_controlling := true; takeover_height := 113 |}.

(** Claim D of [test_example_from_spec] enters at 520, while claim A is
    controlling since 113 and no takeover happens: it is activated at
    532. *)
Lemma activation_height_rule_witness :
  exists c,
    In c (claims (apply_block REGTEST_EXPIRATION 520
                    [op_claim "Claim D" (60 * COIN)] example_chain_513)) /\
    title c = "Claim D" /\ amount c = 60 * COIN /\ height c = 520 /\
    activation_height c = 520 + Z.min ((520 - 113) / 32) 4032.
Proof.
  assert (Hnew : forall x, In x (claims example_chain_513) ->
                   is_controlling x = true -> takeover_height x < 520).
  { intros x Hx. vm_compute in Hx.
    destruct Hx as [<- | [<- | [<- | []]]]; intros Hc;
      [reflexivity | discriminate Hc | discriminate Hc]. }
  destruct (activation_height_rule REGTEST_EXPIRATION 520
              [op_claim "Claim D" (60 * COIN)] example_chain_513
              eq_refl Hnew) as [Hentry _].
  destruct (Hentry "Claim D" (60 * COIN) (or_introl eq_refl))
    as (c & Hin & Ht & Ha & Hh & _ & Hctrl).
  exists c. split; [exact Hin |]. split; [exact Ht |].
  split; [exact Ha |]. split; [exact Hh |].
  apply (Hctrl example_claim_A).
  - vm_compute. left. reflexivity.
  - reflexivity.
  - reflexivity.
  - intros x Hx. vm_compute in Hx.
    destruct Hx as [<- | [<- | [<- | []]]]; intros Hc;
      [reflexivity | discriminate Hc | discriminate Hc].
  - intros (w & Hw & Hc & Htk). vm_compute in Hw.
    destruct Hw as [<- | [<- | [<- | [<- | []]]]];
      first [discriminate Hc | discriminate Htk].
Defined.

(** Whatever the engine does: an index with the state that
    [test_example_from_spec] expects after the block 525 holds a claim D
    with the activation height 524. *)
Lemma state_525_shows_claim_D chain :
  state chain = example_from_spec_expected_525 ->
  exists c, In c (claims chain) /\ title c = "Claim D" /\ activation_height c = 524.
Proof.
  intros Hstate. unfold state, example_from_spec_expected_525 in Hstate.
  injection Hstate as _ Hactive _.
  assert (Hrow : In ("Claim D", 60 * COIN, 60 * COIN, 524) (get_active chain))
    by (rewrite Hactive; right; right; left; reflexivity).
  unfold get_active in Hrow.
  apply in_map_iff in Hrow as (c & Hc & Hin).
  apply filter_In in Hin as [Hin _]. apply filter_In in Hin as [Hin _].
  injection Hc as Ht _ _ Hact.
  exists c. split; [exact Hin |]. split; assumption.
Qed.

(** Claim D of [test_example_from_spec] enters at 520, while claim A is
    controlling since 113, with the activation height 532 of the rule; at
    524 claim C is activated and takes over, and claim D is active and
    controlling at 524: its activation height is 524 from then on.  The
    engine passes the seven states of the test, the state that the test
    expects after 525 lists claim D with 524, and in the example as the
    specification tells it, with claim D entering at 524, claim D is
    activated at 524 where the rule gives 536. *)
Lemma takeover_resets_activation_height :
  example_from_spec REGTEST_EXPIRATION = example_from_spec_expected /\
  claim_activation_height 520 (Some 113) = 532 /\
  (exists d, In d (claims (nth 5 (example_from_spec_chains REGTEST_EXPIRATION)
                             (setUp REGTEST_EXPIRATION))) /\
             title d = "Claim D" /\ height d = 520 /\ activation_height d = 532) /\
  (exists d, In d (claims (nth 6 (example_from_spec_chains REGTEST_EXPIRATION)
                             (setUp REGTEST_EXPIRATION))) /\
             title d = "Claim D" /\ height d = 520 /\ activation_height d = 524) /\
  ~ (exists chain,
       state chain = example_from_spec_expected_525 /\
       forall c, In c (claims chain) -> title c = "Claim D" ->
                 activation_height c = claim_activation_height 520 (Some 113)) /\
  claim_activation_height 524 (Some 113) = 536 /\
  state (spec_scenario_chain REGTEST_EXPIRATION)
  = (Some ("Claim D", 60 * COIN, 60 * COIN, 524),
     [("Claim A", 10 * COIN, 24 * COIN, 113);
      ("Claim B", 20 * COIN, 20 * COIN, 513);
      ("Claim C", 50 * COIN, 50 * COIN, 524)], []) /\
  (exists d, In d (claims (spec_scenario_chain REGTEST_EXPIRATION)) /\
             title d = "Claim D" /\ height d = 524 /\ activation_height d = 524).
Proof.
  split; [exact example_from_spec_replay |].
  split; [reflexivity |].
  split.
  { eexists. split; [vm_compute; do 3 right; left; reflexivity |].
    repeat split. }
  split.
  { eexists. split; [vm_compute; do 3 right; left; reflexivity |].
    repeat split. }
  split.
  { intros (chain & Hstate & Hrule).
    destruct (state_525_shows_claim_D chain Hstate) as (c & Hin & Ht & Hact).
    specialize (Hrule c Hin Ht). rewrite Hact in Hrule. discriminate Hrule. }
  split; [reflexivity |].
  split; [vm_compute; reflexivity |].
  eexists. split; [vm_compute; do 3 right; left; reflexivity |].
  repeat split.
Qed.

End Claimtrie.

(** ** Signature validity in the claim index

    The claim indexer is not among the sources; the sources hold its
    integration test [test_claim_and_support_signing].  A key pair is named
    by a number, and a signature made with the private key of a pair verifies
    against the public key of that pair only. *)

Module ClaimIndexer.

Definition Key : Type := Z.

(** What the index keeps of a stream or a support: [signing_channel_id] and
    [is_signature_valid]. *)
Record Signed : Type := mkSigned {
  signing_channel_id : option Z;
  is_signature_valid : bool
}.

Record Index : Type := mkIndex {
  channels : gmap Z Key;
  claims : gmap Z Signed;
  supports : gmap Z Signed
}.

Definition empty_index : Index :=
  {| channels := ∅; claims := ∅; supports := ∅ |}.

(** Modelled from the spec: the check of a signature made for the channel
    [channel_id] with the private key of the pair [key], against the public
    key that the channel has on chain when the transaction is indexed. *)
Definition verify (idx : Index) (sign : option (Z * Key)) : Signed :=
  match sign with
  | None => {| signing_channel_id := None; is_signature_valid := false |}
  | Some (channel_id, key) =>
      {| signing_channel_id := Some channel_id;
         is_signature_valid :=
           match channels idx !! channel_id with
           | Some public_key => Z.eqb public_key key
           | None => false
           end |}
  end.

(** Modelled from the spec: a channel is created, or updated with the
    public key of [key]; the claims and supports that it signed before are
    not checked again. *)
Definition put_channel (channel_id : Z) (key : Key) (idx : Index) : Index :=
  {| channels := <[channel_id := key]> (channels idx);
     claims := claims idx; supports := supports idx |}.

(** Modelled from the spec: a stream is created or updated, signed or
    not, and a support likewise; an abandon removes it. *)
Definition put_claim (claim_id : Z) (sign : option (Z * Key)) (idx : Index) : Index :=
  {| channels := channels idx;
     claims := <[claim_id := verify idx sign]> (claims idx);
     supports := supports idx |}.

Definition put_support (support_id : Z) (sign : option (Z * Key)) (idx : Index)
  : Index :=
  {| channels := channels idx; claims := claims idx;
     supports := <[support_id := verify idx sign]> (supports idx) |}.

Definition abandon_claim (claim_id : Z) (idx : Index) : Index :=
  {| channels := channels idx; claims := delete claim_id (claims idx);
     supports := supports idx |}.

Definition abandon_support (support_id : Z) (idx : Index) : Index :=
  {| channels := channels idx; claims := claims idx;
     supports := delete support_id (supports idx) |}.

(** [signed_claim_count] and [signed_support_count] of a channel: the valid
    signatures only. *)
Definition signed_count (channel_id : Z) (m : gmap Z Signed) : nat :=
  length (List.filter
            (fun kv => is_signature_valid (snd kv)
                       && bool_decide (signing_channel_id (snd kv) = Some channel_id))
            (map_to_list m)).

(** What [assert_channel_stream1_stream2_support] reads: the two counts of
    the channel, then validity and signing channel of stream1, of stream2 and
    of the support. *)
Definition observe (channel stream1 stream2 support : Z) (idx : Index)
  : nat * nat * option Signed * option Signed * option Signed :=
  (signed_count channel (claims idx), signed_count channel (supports idx),
   claims idx !! stream1, claims idx !! stream2, supports idx !! support).

(** [test_claim_and_support_signing]: the channel is claim 100 and its keys
    are 1 (creation), 2 (after the reset) and 3 (generated, not broadcast);
    stream1, stream2 and the support are 1, 2 and 3; channel2 is claim 200
    with key 4. *)
Definition signed_once : Index :=
  (put_support 3 (Some (100, 1))
     (put_claim 1 (Some (100, 1))
        (put_claim 2 (Some (100, 1))
           (put_channel 100 1 (put_claim 1 None empty_index)))))%Z.

Definition after_reset : Index := put_channel 100%Z 2%Z signed_once.
Definition wrong_key : Index := put_claim 2%Z (Some (100, 3)%Z) after_reset.
Definition right_key : Index := put_claim 2%Z (Some (100, 2)%Z) wrong_key.
Definition other_channel : Index :=
  put_claim 2%Z (Some (200, 4)%Z) (put_channel 200%Z 4%Z right_key).
Definition abandoned : Index := abandon_support 3%Z (abandon_claim 2%Z other_channel).

Definition valid_by (channel_id : Z) : option Signed :=
  Some {| signing_channel_id := Some channel_id; is_signature_valid := true |}.
Definition invalid_by (channel_id : Z) : option Signed :=
  Some {| signing_channel_id := Some channel_id; is_signature_valid := false |}.

Example claim_and_support_signing_replay :
  observe 100 1 2 3 signed_once
    = (2, 1, valid_by 100, valid_by 100, valid_by 100)%nat /\
  observe 100 1 2 3 after_reset
    = (2, 1, valid_by 100, valid_by 100, valid_by 100)%nat /\
  observe 100 1 2 3 wrong_key
    = (1, 1, valid_by 100, invalid_by 100, valid_by 100)%nat /\
  observe 100 1 2 3 right_key
    = (2, 1, valid_by 100, valid_by 100, valid_by 100)%nat /\
  observe 100 1 2 3 other_channel
    = (1, 1, valid_by 100, valid_by 200, valid_by 100)%nat /\
  observe 200 1 2 3 other_channel
    = (1, 0, valid_by 100, valid_by 200, valid_by 100)%nat /\
  observe 100 1 2 3 abandoned = (1, 0, valid_by 100, None, None)%nat /\
  observe 200 1 2 3 abandoned = (0, 0, valid_by 100, None, None)%nat.
Proof. vm_compute. repeat split. Qed.

Lemma verify_put_channel channel_id key key' idx :
  is_signature_valid (verify (put_channel channel_id key' idx) (Some (channel_id, key)))
  = Z.eqb key' key.
Proof. simpl. rewrite lookup_insert_eq. reflexivity. Qed.

(** C7: a new key of a channel leaves every claim and every support of the
    index with the validity it had; a claim that is then updated with a
    signature by another key than the one of the channel is invalid; and
    once the channel is back on a key, a claim signed again with that key is
    valid. *)
Theorem channel_key_reset_not_retroactive :
  (forall channel_id new_key idx,
     claims (put_channel channel_id new_key idx) = claims idx /\
     supports (put_channel channel_id new_key idx) = supports idx) /\
  (forall channel_id new_key key claim_id idx,
     key <> new_key ->
     claims (put_claim claim_id (Some (channel_id, key))
               (put_channel channel_id new_key idx)) !! claim_id
     = invalid_by channel_id) /\
  (forall channel_id original_key claim_id idx,
     claims (put_claim claim_id (Some (channel_id, original_key))
               (put_channel channel_id original_key idx)) !! claim_id
     = valid_by channel_id).
Proof.
  split; [| split].
  - intros channel_id new_key idx. split; reflexivity.
  - intros channel_id new_key key claim_id idx Hne.
    unfold put_claim at 1. cbn [claims]. rewrite lookup_insert_eq.
    unfold invalid_by. f_equal.
    change (verify (put_channel channel_id new_key idx) (Some (channel_id, key)))
      with {| signing_channel_id := Some channel_id;
              is_signature_valid :=
                is_signature_valid
                  (verify (put_channel channel_id new_key idx)
                     (Some (channel_id, key))) |}.
    rewrite verify_put_channel. f_equal. apply Z.eqb_neq. congruence.
  - intros channel_id original_key claim_id idx.
    unfold put_claim at 1. cbn [claims]. rewrite lookup_insert_eq.
    unfold valid_by. f_equal.
    change (verify (put_channel channel_id original_key idx)
              (Some (channel_id, original_key)))
      with {| signing_channel_id := Some channel_id;
              is_signature_valid :=
                is_signature_valid
                  (verify (put_channel channel_id original_key idx)
                     (Some (channel_id, original_key))) |}.
    rewrite verify_put_channel. f_equal. apply Z.eqb_refl.
Qed.

End ClaimIndexer.

(** ** validate_claim_id *)

Module ClaimId.
Local Open Scope Z_scope.

(** [string.hexdigits]. *)
Definition hexdigits : string := "0123456789abcdefABCDEF".

(** The argument of [validate_claim_id]: a [str], a sequence of code
    points, or [bytes], a sequence of bytes. *)
Inductive claim_id_value : Type :=
| Str (code_points : list Z)
| Bytes (bytes : list Byte.byte).

(** The code points of a text of the ASCII range. *)
Definition code_points_of (s : string) : list Z :=
  map (fun c => Z.of_nat (nat_of_ascii c)) (list_ascii_of_string s).

Definition byte_value (b : Byte.byte) : Z := Z.of_N (Byte.to_N b).

(** The exceptions of [validate_claim_id], with the length that the
    first one reports, and the exception of [bytes.decode]. *)
Inductive claim_id_error : Type :=
| Incorrect_claimid_length (len : nat)
| Not_hex_encoded
| UnicodeDecodeError.

(** [len(claim_id)]. *)
Definition len (claim_id : claim_id_value) : nat :=
  match claim_id with
  | Str code_points => length code_points
  | Bytes bytes => length bytes
  end.

Definition continuation (b : Z) : bool := (128 <=? b) && (b <=? 191).

(** [bytes.decode('utf-8')] on the values of the bytes: [None] for
    [UnicodeDecodeError].  The well-formed sequences are those of the
    Unicode standard: no overlong form, no surrogate, nothing above
    U+10FFFF. *)
Fixpoint utf8_decode (bytes : list Z) : option (list Z) :=
  match bytes with
  | [] => Some []
  | b0 :: rest =>
      if b0 <? 128 then cons b0 <$> utf8_decode rest
      else if (194 <=? b0) && (b0 <=? 223) then
        match rest with
        | b1 :: rest =>
            if continuation b1
            then cons ((b0 - 192) * 64 + (b1 - 128)) <$> utf8_decode rest
            else None
        | _ => None
        end
      else if (224 <=? b0) && (b0 <=? 239) then
        match rest with
        | b1 :: b2 :: rest =>
            if ((if b0 =? 224 then 160 else 128) <=? b1)
               && (b1 <=? (if b0 =? 237 then 159 else 191))
               && continuation b2
            then cons ((b0 - 224) * 4096 + (b1 - 128) * 64 + (b2 - 128))
                   <$> utf8_decode rest
            else None
        | _ => None
        end
      else if (240 <=? b0) && (b0 <=? 244) then
        match rest with
        | b1 :: b2 :: b3 :: rest =>
            if ((if b0 =? 240 then 144 else 128) <=? b1)
               && (b1 <=? (if b0 =? 244 then 143 else 191))
               && continuation b2 && continuation b3
            then cons ((b0 - 240) * 262144 + (b1 - 128) * 4096
                       + (b2 - 128) * 64 + (b3 - 128))
                   <$> utf8_decode rest
            else None
        | _ => None
        end
      else None
  end.

(** [set(claim_id).difference(hexdigits)], for the code points of
    [claim_id]. *)
Definition not_hexdigits (code_points : list Z) : gset Z :=
  list_to_set code_points ∖ list_to_set (code_points_of hexdigits).

(** [validate_claim_id(claim_id)]: [None] when the function returns, the
    exception otherwise. *)
Definition validate_claim_id (claim_id : claim_id_value) : option claim_id_error :=
  if negb (len claim_id =? 40)%nat then
    Some (Incorrect_claimid_length (len claim_id))
  else
    match match claim_id with
          | Str code_points => Some code_points
          | Bytes bytes => utf8_decode (map byte_value bytes)
          end with
    | None => Some UnicodeDecodeError
    | Some code_points =>
        if bool_decide (not_hexdigits code_points ≠ ∅) then Some Not_hex_encoded
        else None
    end.

(** A hexadecimal digit, by its code. *)
Definition is_hex_digit (c : Z) : bool :=
  (48 <=? c) && (c <=? 57) || (97 <=? c) && (c <=? 102)
  || (65 <=? c) && (c <=? 70).

(** The code points of a [str], the values of the bytes of [bytes]. *)
Definition items (claim_id : claim_id_value) : list Z :=
  match claim_id with
  | Str code_points => code_points
  | Bytes bytes => map byte_value bytes
  end.

Lemma hexdigits_are_hex_digits c :
  c ∈ (list_to_set (code_points_of hexdigits) : gset Z) <-> is_hex_digit c = true.
Proof.
  rewrite elem_of_list_to_set, list_elem_of_In.
  change (code_points_of hexdigits)
    with [48; 49; 50; 51; 52; 53; 54; 55; 56; 57; 97; 98; 99; 100; 101; 102;
          65; 66; 67; 68; 69; 70].
  unfold is_hex_digit. simpl. split.
  - intros H.
    repeat (destruct H as [<- | H]; [reflexivity |]). destruct H.
  - intros H.
    apply orb_prop in H as [H | H]; [apply orb_prop in H as [H | H] |];
      apply andb_prop in H as [H1 H2];
      apply Z.leb_le in H1; apply Z.leb_le in H2; lia.
Qed.

Lemma not_hexdigits_empty_iff code_points :
  not_hexdigits code_points = ∅ <->
  Forall (fun c => is_hex_digit c = true) code_points.
Proof.
  unfold not_hexdigits. rewrite List.Forall_forall. split.
  - intros H c Hc. apply hexdigits_are_hex_digits.
    destruct (decide (c ∈ (list_to_set (code_points_of hexdigits) : gset Z)))
      as [Hin | Hout]; [assumption |].
    exfalso. apply (not_elem_of_empty (C := gset Z) c). rewrite <- H.
    apply elem_of_difference. split; [| assumption].
    apply elem_of_list_to_set, list_elem_of_In. assumption.
  - intros H. apply set_eq. intros c. split; [| intros Hc; set_solver].
    intros Hc. apply elem_of_difference in Hc as [Hs Hh].
    exfalso. apply Hh, hexdigits_are_hex_digits, H.
    apply elem_of_list_to_set, list_elem_of_In in Hs. assumption.
Qed.

(** Bytes of the ASCII range decode to themselves. *)
Lemma utf8_decode_ascii bytes :
  Forall (fun b => b < 128) bytes -> utf8_decode bytes = Some bytes.
Proof.
  induction 1 as [| b bytes Hb _ IH]; simpl; [reflexivity |].
  destruct (Z.ltb_spec b 128); [| lia]. rewrite IH. reflexivity.
Qed.

(** Bytes that decode to code points of the ASCII range are those code
    points: a sequence of several bytes gives a code point above 127. *)
Lemma utf8_decode_to_ascii n : forall bytes code_points,
  (length bytes <= n)%nat ->
  utf8_decode bytes = Some code_points ->
  Forall (fun c => c < 128) code_points ->
  code_points = bytes.
Proof.
  induction n as [| n IH]; intros bytes code_points Hlen Hdecode Hascii.
  - destruct bytes; [| simpl in Hlen; lia]. simpl in Hdecode. congruence.
  - destruct bytes as [| b0 rest]; [simpl in Hdecode; congruence |].
    simpl in Hlen. simpl in Hdecode.
    destruct (Z.ltb_spec b0 128).
    + destruct (utf8_decode rest) as [cps |] eqn:Hrest; [| discriminate].
      simpl in Hdecode. injection Hdecode as <-.
      apply Forall_cons in Hascii as [_ Hascii].
      rewrite (IH rest cps); [reflexivity | lia | assumption | assumption].
    + exfalso.
      destruct ((194 <=? b0) && (b0 <=? 223)) eqn:H2.
      { apply andb_prop in H2 as [L U]. apply Z.leb_le in L.
        destruct rest as [| b1 rest]; [discriminate |].
        destruct (continuation b1) eqn:C1; [| discriminate].
        apply andb_prop in C1 as [L1 _]. apply Z.leb_le in L1.
        destruct (utf8_decode rest); [| discriminate].
        simpl in Hdecode. injection Hdecode as <-.
        apply Forall_cons in Hascii as [Hc _]. lia. }
      destruct ((224 <=? b0) && (b0 <=? 239)) eqn:H3.
      { apply andb_prop in H3 as [L U]. apply Z.leb_le in L.
        destruct rest as [| b1 [| b2 rest]]; try discriminate.
        match type of Hdecode with
        | (if ?cond then _ else _) = _ => destruct cond eqn:C; [| discriminate]
        end.
        apply andb_prop in C as [C C2]. apply andb_prop in C as [L1 _].
        apply andb_prop in C2 as [L2 _].
        apply Z.leb_le in L1. apply Z.leb_le in L2.
        destruct (utf8_decode rest); [| discriminate].
        simpl in Hdecode. injection Hdecode as <-.
        apply Forall_cons in Hascii as [Hc _].
        destruct (Z.eqb_spec b0 224); lia. }
      destruct ((240 <=? b0) && (b0 <=? 244)) eqn:H4; [| discriminate].
      apply andb_prop in H4 as [L U]. apply Z.leb_le in L.
      destruct rest as [| b1 [| b2 [| b3 rest]]]; try discriminate.
      match type of Hdecode with
      | (if ?cond then _ else _) = _ => destruct cond eqn:C; [| discriminate]
      end.
      apply andb_prop in C as [C C3]. apply andb_prop in C as [C C2].
      apply andb_prop in C as [L1 _].
      apply andb_prop in C2 as [L2 _]. apply andb_prop in C3 as [L3 _].
      apply Z.leb_le in L1. apply Z.leb_le in L2. apply Z.leb_le in L3.
      destruct (utf8_decode rest); [| discriminate].
      simpl in Hdecode. injection Hdecode as <-.
      apply Forall_cons in Hascii as [Hc _].
      destruct (Z.eqb_spec b0 240); lia.
Qed.

Lemma is_hex_digit_ascii c : is_hex_digit c = true -> c < 128.
Proof.
  unfold is_hex_digit. intros H.
  apply orb_prop in H as [H | H]; [apply orb_prop in H as [H | H] |];
    apply andb_prop in H as [_ H]; apply Z.leb_le in H; lia.
Qed.

(** X1: [validate_claim_id] returns without an exception exactly for the
    40 hexadecimal digits, in either case, as a [str] or as [bytes]. *)
Theorem validate_claim_id_accepts claim_id :
  validate_claim_id claim_id = None <->
  len claim_id = 40%nat /\
  Forall (fun c => is_hex_digit c = true) (items claim_id).
Proof.
  unfold validate_claim_id.
  destruct (Nat.eqb_spec (len claim_id) 40) as [Hlen | Hlen]; simpl;
    [| split; [discriminate | intros [Hl _]; contradiction]].
  assert (Hstr : forall code_points,
    (if bool_decide (not_hexdigits code_points ≠ ∅) then Some Not_hex_encoded
     else None) = None <-> Forall (fun c => is_hex_digit c = true) code_points).
  { intros code_points. rewrite <- not_hexdigits_empty_iff.
    destruct (decide (not_hexdigits code_points = ∅)) as [He | Hne].
    - rewrite bool_decide_eq_false_2 by (intros Hc; apply Hc; exact He).
      split; [intros _; assumption | reflexivity].
    - rewrite bool_decide_eq_true_2 by assumption.
      split; [discriminate | intros He; contradiction]. }
  destruct claim_id as [code_points | bytes]; simpl.
  - rewrite Hstr. split; [intros H; split; assumption | intros [_ H]; exact H].
  - destruct (utf8_decode (map byte_value bytes)) as [code_points |] eqn:Hdecode.
    + rewrite Hstr. split.
      * intros H. split; [assumption |].
        rewrite <- (utf8_decode_to_ascii _ _ _ (le_n _) Hdecode); [exact H |].
        eapply Forall_impl; [exact H |]. apply is_hex_digit_ascii.
      * intros [_ H].
        rewrite utf8_decode_ascii in Hdecode
          by (eapply Forall_impl; [exact H |]; apply is_hex_digit_ascii).
        injection Hdecode as <-. exact H.
    + split; [discriminate |]. intros [_ H].
      rewrite utf8_decode_ascii in Hdecode
        by (eapply Forall_impl; [exact H |]; apply is_hex_digit_ascii).
      discriminate Hdecode.
Qed.

Example validate_claim_id_examples :
  validate_claim_id
    (Str (code_points_of "0123456789abcdefABCDEF0123456789abcdef01")) = None /\
  validate_claim_id
    (Str (code_points_of "0123456789abcdefABCDEF0123456789abcdefg1"))
  = Some Not_hex_encoded /\
  validate_claim_id
    (Str (code_points_of "000000000000000000000000000000000000000" ++ [233]))
  = Some Not_hex_encoded /\
  validate_claim_id
    (Bytes (repeat Byte.x30 39 ++ [Byte.xc3; Byte.xa9]))
  = Some (Incorrect_claimid_length 41) /\
  validate_claim_id (Bytes (repeat Byte.x30 39 ++ [Byte.xe9]))
  = Some UnicodeDecodeError /\
  validate_claim_id (Bytes (repeat Byte.x61 40)) = None.
Proof. repeat split; vm_compute; reflexivity. Qed.

End ClaimId.

(** ** More on the channel key manager *)

Module ChannelKeyFacts.
Import DeterministicChannelKeyManager.
Section Facts.
Local Open Scope Z_scope.

Context {PrivateKey PublicKey : Type}.
Variable child : PrivateKey -> Z -> PrivateKey.
Variable public_key_of : PrivateKey -> PublicKey.
Variable pubkey_bytes : PublicKey -> string.
Variable address : PublicKey -> string.
Variable is_channel_key_used : PublicKey -> bool.

Local Abbreviation generate_next_key :=
  (generate_next_key child public_key_of address is_channel_key_used).
Local Abbreviation step :=
  (step child public_key_of pubkey_bytes address is_channel_key_used).
Local Abbreviation live :=
  (live child public_key_of pubkey_bytes address is_channel_key_used).

(** X3: when [generate_next_key] returns a key, it is the child at the new
    [last_known], the index reports it unused and reports every child from
    the old [last_known] up to it as used, and
    [get_private_key_from_pubkey_hash] finds it under its address. *)
Theorem generate_next_key_first_unused fuel : forall self sk k self',
  private_key self = Some sk ->
  generate_next_key fuel self = (Ok (Some k), self') ->
  k = child sk (last_known self') /\
  last_known self <= last_known self' /\
  is_channel_key_used (public_key_of k) = false /\
  (forall i, last_known self <= i < last_known self' ->
     is_channel_key_used (public_key_of (child sk i)) = true) /\
  get_private_key_from_pubkey_hash (address (public_key_of k)) self' = Some k.
Proof.
  induction fuel as [| fuel IH]; intros self sk k self' Hsk Hrun.
  - simpl in Hrun. unfold_M. discriminate Hrun.
  - rewrite generate_next_key_S, Hsk in Hrun. cbv zeta in Hrun.
    destruct (is_channel_key_used (public_key_of (child sk (last_known self))))
      eqn:Hused.
    + apply IH with (sk := sk) in Hrun; [| exact Hsk].
      destruct Hrun as (Hk & Hle & Hfree & Hall & Hget). simpl in Hle, Hall.
      split; [exact Hk | split; [lia | split; [exact Hfree | split; [| exact Hget]]]].
      intros i Hi. destruct (Z.eq_dec i (last_known self)) as [-> | Hne].
      * exact Hused.
      * apply Hall. lia.
    + injection Hrun as <- <-. simpl.
      split; [reflexivity | split; [lia | split; [exact Hused | split]]].
      * intros i Hi. lia.
      * unfold get_private_key_from_pubkey_hash. simpl. apply lookup_insert_eq.
Qed.

(** X4: the manager of an account without a private key never caches a key
    and never moves [last_known], whatever is called on it. *)
Theorem watch_only_manager_stays_empty self :
  live None self -> cache self = ∅ /\ last_known self = 0 /\ private_key self = None.
Proof.
  unfold DeterministicChannelKeyManager.live. intros H.
  eapply (rtc_ind_r (fun s => cache s = ∅ /\ last_known s = 0 /\ private_key s = None));
    [| | exact H].
  - repeat split.
  - intros s1 s2 _ Hstep (Hc & Hl & Hp).
    destruct Hstep as [bytes r Hrun | fuel r Hrun | fuel r Hrun].
    + unfold maybe_generate_deterministic_key_for_channel in Hrun. unfold_M.
      rewrite Hp in Hrun. injection Hrun as _ <-. auto.
    + destruct fuel as [| fuel].
      * simpl in Hrun. unfold_M. injection Hrun as _ <-. auto.
      * rewrite generate_next_key_S, Hp in Hrun. injection Hrun as _ <-. auto.
    + unfold ensure_cache_primed in Hrun. unfold_M.
      rewrite Hp in Hrun. injection Hrun as _ <-. auto.
Qed.

End Facts.

Lemma generate_next_key_first_unused_witness :
  let used := fun k : Z => (k <? 4)%Z in
  let self := __init__ example_child (Some 0%Z) in
  let self' := snd (DeterministicChannelKeyManager.generate_next_key
                      example_child id example_address used 5 self) in
  4%Z = example_child 2%Z (last_known self') /\
  (last_known self <= last_known self')%Z /\
  used (id 4%Z) = false /\
  (forall i, (last_known self <= i < last_known self')%Z ->
     used (id (example_child 2%Z i)) = true) /\
  get_private_key_from_pubkey_hash (example_address (id 4%Z)) self' = Some 4%Z.
Proof.
  apply (generate_next_key_first_unused example_child id example_address
           (fun k : Z => (k <? 4)%Z) 5
           (__init__ example_child (Some 0%Z)) 2%Z 4%Z); reflexivity.
Defined.

Lemma watch_only_manager_stays_empty_witness :
  let self := snd (DeterministicChannelKeyManager.generate_next_key
                     example_child id example_address (fun _ => false) 3
                     (__init__ example_child None)) in
  cache self = ∅ /\ last_known self = 0%Z /\ private_key self = None.
Proof.
  apply (watch_only_manager_stays_empty example_child id example_address
           example_address (fun _ => false)).
  eapply rtc_l; [| apply rtc_refl].
  apply (step_generate_next_key _ _ _ _ _ _ _ 3%nat (Raise AttributeError)).
  reflexivity.
Defined.

End ChannelKeyFacts.

(** ** More on the address managers *)

Module AddressFacts.
Import AddressManager.
Section Facts.
Local Open Scope Z_scope.

Context {PublicKey : Type}.
Variable child : PublicKey -> Z -> PublicKey.
Variable pk_n : PublicKey -> Z.
Variable pk_address : PublicKey -> string.

Local Abbreviation ensure_address_gap := (ensure_address_gap child pk_n pk_address).
Local Abbreviation get_or_create_usable_address :=
  (get_or_create_usable_address child pk_n pk_address).
Local Abbreviation get_max_gap := (get_max_gap pk_n).
Local Abbreviation get_addresses_rows := (get_addresses_rows pk_n).
Local Abbreviation row_n := (row_n pk_n).
Local Abbreviation sort_desc := (sort_rows (order_leb pk_n n_desc)).
Local Abbreviation sort_asc := (sort_rows (order_leb pk_n n_asc)).
Local Abbreviation row_address := (row_address pk_address).

(** The rows that [add_keys] stores for the keys at [count] indices from
    [start]. *)
Definition fresh_rows (pk : PublicKey) (cn start count : Z) : list AddressRow :=
  map (fun k => {| chain := cn; pubkey := k; used_times := 0 |})
      (map (child pk) (seqZ start count)).

(** The last [gap] addresses of the chain, greatest index first. *)
Definition last_addresses (cn gap : Z) (rows : list AddressRow) : list AddressRow :=
  get_addresses_rows cn
    {| used_times__lt := None; order_by := Some n_desc; limit := Some gap |} rows.

Definition first_index (addresses : list AddressRow) : Z :=
  match addresses with
  | a :: _ => row_n a + 1
  | [] => 0
  end.

(** [ensure_address_gap] of a chain manager, run. *)
Lemma chain_ensure_address_gap_run pk cn gap mu w :
  address_generator_lock w = false ->
  ensure_address_gap (HierarchicalDeterministic pk cn gap mu) w =
  if existing_gap_loop (last_addresses cn gap (db w)) 0 =? gap then (Ok [], w)
  else
    let new := fresh_rows pk cn (first_index (last_addresses cn gap (db w)))
                 (gap - existing_gap_loop (last_addresses cn gap (db w)) 0) in
    (Ok (map row_address new),
     {| db := db w ++ new;
        announced := announced w ++ [map row_address new];
        address_generator_lock := false |}).
Proof.
  intros Hlock.
  unfold AddressManager.ensure_address_gap, with_lock, _query_addresses,
    _generate_keys, announce_addresses. unfold_M. simpl.
  fold (last_addresses cn gap (db w)).
  destruct (existing_gap_loop (last_addresses cn gap (db w)) 0 =? gap).
  - destruct w as [rows log lock]. simpl in *. subst lock. reflexivity.
  - simpl. fold (first_index (last_addresses cn gap (db w))).
    set (start := first_index (last_addresses cn gap (db w))).
    set (existing := existing_gap_loop (last_addresses cn gap (db w)) 0).
    replace (start + (gap - existing) - 1 + 1 - start) with (gap - existing) by lia.
    unfold fresh_rows, add_keys, AddressManager.row_address.
    rewrite !map_map. reflexivity.
Qed.

(** [ensure_address_gap] of the single-address manager, run. *)
Lemma single_ensure_address_gap_run pk cn w :
  address_generator_lock w = false ->
  ensure_address_gap (SingleKey pk cn) w =
  match chain_rows cn (db w) with
  | [] =>
      (Ok [pk_address pk],
       {| db := db w ++ [{| chain := cn; pubkey := pk; used_times := 0 |}];
          announced := announced w ++ [[pk_address pk]];
          address_generator_lock := false |})
  | _ :: _ => (Ok [], w)
  end.
Proof.
  intros Hlock.
  unfold AddressManager.ensure_address_gap, with_lock, get_address_records,
    _query_addresses, announce_addresses. unfold_M. simpl.
  unfold AddressManager.get_addresses_rows. simpl.
  destruct (chain_rows cn (db w)); simpl.
  - reflexivity.
  - destruct w as [rows log lock]. simpl in *. subst lock. reflexivity.
Qed.

Lemma fresh_rows_own pk cn start count :
  Forall (fun r => chain r = cn /\ used_times r = 0) (fresh_rows pk cn start count).
Proof.
  unfold fresh_rows. induction (seqZ start count) as [| i l IH]; simpl;
    constructor; auto.
Qed.

Lemma chain_rows_own cn (rows : list (@AddressRow PublicKey)) :
  Forall (fun r => chain r = cn /\ used_times r = 0) rows ->
  chain_rows cn rows = rows.
Proof.
  induction 1 as [| r rows [Hc _] _ IH]; simpl; [reflexivity |].
  rewrite Hc, Z.eqb_refl, IH. reflexivity.
Qed.

Lemma chain_rows_other cn c (rows : list (@AddressRow PublicKey)) :
  c <> cn ->
  Forall (fun r => chain r = cn /\ used_times r = 0) rows ->
  chain_rows c rows = [].
Proof.
  intros Hne. induction 1 as [| r rows [Hc _] _ IH]; simpl; [reflexivity |].
  rewrite Hc. destruct (Z.eqb_spec cn c); [congruence | exact IH].
Qed.

(** X5: [ensure_address_gap] of either manager only adds rows at the end of
    the address table: the rows it adds are unused rows of its own chain,
    their addresses are what it returns, and the rows of every other chain
    are as before. *)
Theorem ensure_address_gap_only_appends self w r w' :
  address_generator_lock w = false ->
  ensure_address_gap self w = (r, w') ->
  exists new,
    r = Ok (map row_address new) /\
    db w' = db w ++ new /\
    Forall (fun row => chain row = chain_number self /\ used_times row = 0) new /\
    (forall c, c <> chain_number self -> chain_rows c (db w') = chain_rows c (db w)) /\
    address_generator_lock w' = false.
Proof.
  intros Hlock Hrun.
  assert (Hframe : forall new,
    Forall (fun row => chain row = chain_number self /\ used_times row = 0) new ->
    forall c, c <> chain_number self ->
      chain_rows c (db w ++ new) = chain_rows c (db w)).
  { intros new Hnew c Hc. unfold chain_rows. rewrite List.filter_app.
    fold (chain_rows c new). rewrite (chain_rows_other _ _ _ Hc Hnew).
    apply app_nil_r. }
  destruct self as [pk cn gap mu | pk cn]; cbn [chain_number] in *.
  - rewrite (chain_ensure_address_gap_run _ _ _ _ _ Hlock) in Hrun.
    destruct (existing_gap_loop (last_addresses cn gap (db w)) 0 =? gap).
    + injection Hrun as <- <-. exists []. rewrite app_nil_r.
      repeat split; auto.
    + cbv zeta in Hrun. injection Hrun as <- <-. eexists. simpl.
      split; [reflexivity | split; [reflexivity | split; [apply fresh_rows_own |]]].
      split; [| reflexivity]. apply Hframe, fresh_rows_own.
  - rewrite (single_ensure_address_gap_run _ _ _ Hlock) in Hrun.
    destruct (chain_rows cn (db w)).
    + injection Hrun as <- <-. exists [{| chain := cn; pubkey := pk; used_times := 0 |}].
      simpl. split; [reflexivity | split; [reflexivity | split]].
      * repeat constructor.
      * split; [| reflexivity]. apply Hframe. repeat constructor.
    + injection Hrun as <- <-. exists []. rewrite app_nil_r. repeat split; auto.
Qed.

(** *** Sorting rows of which one part lies above the other *)

Lemma insert_row_Forall (P : @AddressRow PublicKey -> Prop) leb x l :
  P x -> Forall P l -> Forall P (insert_row leb x l).
Proof.
  intros Hx. induction 1 as [| y l Hy Hl IH]; simpl.
  - repeat constructor. assumption.
  - destruct (leb x y); repeat constructor; assumption.
Qed.

Lemma sort_rows_Forall (P : @AddressRow PublicKey -> Prop) leb l :
  Forall P l -> Forall P (sort_rows leb l).
Proof.
  induction 1 as [| x l Hx Hl IH]; simpl; [constructor |].
  apply insert_row_Forall; assumption.
Qed.

Lemma insert_desc_below x (high low : list (@AddressRow PublicKey)) :
  Forall (fun y => row_n x < row_n y) high ->
  insert_row (order_leb pk_n n_desc) x (high ++ low) =
  high ++ insert_row (order_leb pk_n n_desc) x low.
Proof.
  induction 1 as [| y high Hy _ IH]; simpl; [reflexivity |].
  destruct (Z.leb_spec (AddressManager.row_n pk_n y) (AddressManager.row_n pk_n x));
    [lia |].
  rewrite IH. reflexivity.
Qed.

Lemma sort_desc_app bound (old new : list (@AddressRow PublicKey)) :
  Forall (fun x => row_n x < bound) old ->
  Forall (fun y => bound <= row_n y) new ->
  sort_desc (old ++ new) = sort_desc new ++ sort_desc old.
Proof.
  intros Hold Hnew. induction Hold as [| x old Hx _ IH]; simpl.
  - rewrite app_nil_r. reflexivity.
  - fold (sort_desc (old ++ new)). fold (sort_desc old).
    rewrite IH. apply insert_desc_below.
    apply sort_rows_Forall.
    eapply Forall_impl; [exact Hnew |]. simpl. intros y Hy. lia.
Qed.

Lemma insert_asc_above x (low high : list (@AddressRow PublicKey)) :
  Forall (fun y => row_n x <= row_n y) high ->
  insert_row (order_leb pk_n n_asc) x (low ++ high) =
  insert_row (order_leb pk_n n_asc) x low ++ high.
Proof.
  intros Hhigh. induction low as [| s low IH]; simpl.
  - destruct Hhigh as [| y high Hy _]; simpl; [reflexivity |].
    destruct (Z.leb_spec (AddressManager.row_n pk_n x) (AddressManager.row_n pk_n y));
      [reflexivity | lia].
  - destruct (AddressManager.row_n pk_n x <=? AddressManager.row_n pk_n s);
      [reflexivity |].
    rewrite IH. reflexivity.
Qed.

Lemma sort_asc_app bound (old new : list (@AddressRow PublicKey)) :
  Forall (fun x => row_n x < bound) old ->
  Forall (fun y => bound <= row_n y) new ->
  sort_asc (old ++ new) = sort_asc old ++ sort_asc new.
Proof.
  intros Hold Hnew. induction Hold as [| x old Hx _ IH]; simpl; [reflexivity |].
  fold (sort_asc (old ++ new)). fold (sort_asc old).
  rewrite IH. apply insert_asc_above.
  apply sort_rows_Forall.
  eapply Forall_impl; [exact Hnew |]. simpl. intros y Hy. lia.
Qed.

Lemma max_n_bound (rows : list (@AddressRow PublicKey)) m :
  max_n pk_n rows = Some m -> Forall (fun r => row_n r <= m) rows.
Proof.
  revert m. induction rows as [| r rows IH]; intros m; simpl; [constructor |].
  fold (max_n pk_n rows). destruct (max_n pk_n rows) as [m' |] eqn:Hmax.
  - intros [= <-]. constructor; [lia |].
    eapply Forall_impl; [apply IH; reflexivity |]. simpl. intros y Hy. lia.
  - intros [= <-]. destruct rows as [| r' rows]; [| discriminate Hmax].
    constructor; [lia | constructor].
Qed.

Lemma existing_gap_loop_all_unused (l : list (@AddressRow PublicKey)) : forall acc,
  Forall (unused (PublicKey := PublicKey)) l ->
  existing_gap_loop l acc = acc + Z.of_nat (length l).
Proof.
  induction l as [| a l IH]; intros acc Hall; simpl; [lia |].
  inversion Hall as [| ? ? Ha Hl]; subst. unfold unused in Ha.
  rewrite Ha. simpl. rewrite IH by assumption. lia.
Qed.

(** With the child index stored in the key, the rows that [add_keys] stores
    have the indices they were derived at. *)
Lemma fresh_rows_index pk cn start count :
  (forall i, pk_n (child pk i) = i) ->
  Forall (fun r => start <= row_n r) (fresh_rows pk cn start count).
Proof.
  intros Hn. unfold fresh_rows. rewrite !Forall_fmap. apply Forall_seqZ.
  intros i Hi. unfold compose, AddressManager.row_n. simpl. rewrite Hn. lia.
Qed.

Lemma fresh_rows_length pk cn start count :
  length (fresh_rows pk cn start count) = Z.to_nat count.
Proof. unfold fresh_rows. rewrite !length_map. apply length_seqZ. Qed.

(** The rows of the chain lie below the first index that
    [ensure_address_gap] derives. *)
Lemma rows_below_first_index cn gap rows :
  0 < gap ->
  Forall (fun r => row_n r < first_index (last_addresses cn gap rows))
         (chain_rows cn rows).
Proof.
  intros Hgap. unfold last_addresses, AddressManager.get_addresses_rows. simpl.
  pose proof (sort_desc_head pk_n (chain_rows cn rows)) as Hhead.
  destruct (Z.to_nat gap) as [| g] eqn:Hg; [lia |].
  destruct (sort_desc (chain_rows cn rows)) as [| a sorted]; simpl.
  - rewrite Hhead. constructor.
  - eapply Forall_impl; [apply (max_n_bound _ _ Hhead) |].
    simpl. intros r Hr. lia.
Qed.

(** After [ensure_address_gap] the last [gap] addresses of the chain are
    [gap] unused addresses. *)
Lemma chain_gap_is_full pk cn gap mu w r w' :
  (forall i, pk_n (child pk i) = i) ->
  0 <= gap -> address_generator_lock w = false ->
  ensure_address_gap (HierarchicalDeterministic pk cn gap mu) w = (r, w') ->
  address_generator_lock w' = false /\
  existing_gap_loop (last_addresses cn gap (db w')) 0 = gap.
Proof.
  intros Hn Hgap Hlock Hrun.
  rewrite (chain_ensure_address_gap_run _ _ _ _ _ Hlock) in Hrun.
  destruct (Z.eqb_spec (existing_gap_loop (last_addresses cn gap (db w)) 0) gap)
    as [Hfull | Hshort].
  - injection Hrun as <- <-. split; assumption.
  - cbv zeta in Hrun. injection Hrun as <- <-. simpl. split; [reflexivity |].
    destruct (existing_gap_loop_spec (last_addresses cn gap (db w)) 0)
      as (k & Hk & Hlen & Hall & _).
    rewrite Hk, Z.add_0_l in *.
    set (A := last_addresses cn gap (db w)) in *.
    set (new := fresh_rows pk cn (first_index A) (gap - Z.of_nat k)).
    assert (HA : A = take (Z.to_nat gap) (sort_desc (chain_rows cn (db w))))
      by reflexivity.
    assert (Hkg : (k <= Z.to_nat gap)%nat).
    { rewrite HA, length_take in Hlen. lia. }
    assert (Hpos : 0 < gap) by lia.
    (* the rows of the chain after the call, greatest index first *)
    assert (Hsorted :
      sort_desc (chain_rows cn (db w ++ new)) =
      sort_desc new ++ sort_desc (chain_rows cn (db w))).
    { unfold chain_rows at 1. rewrite List.filter_app.
      fold (chain_rows cn (db w)). fold (chain_rows cn new).
      rewrite (chain_rows_own cn new) by apply fresh_rows_own.
      apply (sort_desc_app (first_index A)).
      - apply rows_below_first_index. exact Hpos.
      - apply fresh_rows_index. exact Hn. }
    assert (Hnewlen : length (sort_desc new) = (Z.to_nat gap - k)%nat).
    { rewrite sort_rows_length. unfold new. rewrite fresh_rows_length. lia. }
    assert (Hlast :
      last_addresses cn gap (db w ++ new) = sort_desc new ++ take k A).
    { unfold last_addresses, AddressManager.get_addresses_rows. simpl.
      rewrite Hsorted, take_app, Hnewlen.
      rewrite (take_ge (sort_desc new)) by lia.
      replace (Z.to_nat gap - (Z.to_nat gap - k))%nat with k by lia.
      rewrite HA, take_take. replace (k `min` Z.to_nat gap)%nat with k by lia.
      reflexivity. }
    rewrite Hlast. rewrite existing_gap_loop_all_unused.
    + rewrite length_app, Hnewlen, length_take. lia.
    + apply Forall_app. split; [| exact Hall].
      apply sort_rows_Forall.
      eapply Forall_impl; [apply fresh_rows_own |]. simpl. intros x [_ Hx]. exact Hx.
Qed.

(** X6: a second [ensure_address_gap] of a chain manager, with no address
    used in between, derives nothing: it returns [[]] and leaves the table
    and the announcements as they are. *)
Theorem chain_ensure_address_gap_idempotent pk cn gap mu w r w' :
  (forall i, pk_n (child pk i) = i) ->
  0 <= gap -> address_generator_lock w = false ->
  ensure_address_gap (HierarchicalDeterministic pk cn gap mu) w = (r, w') ->
  ensure_address_gap (HierarchicalDeterministic pk cn gap mu) w' = (Ok [], w').
Proof.
  intros Hn Hgap Hlock Hrun.
  destruct (chain_gap_is_full _ _ _ _ _ _ _ Hn Hgap Hlock Hrun) as [Hlock' Hfull].
  rewrite (chain_ensure_address_gap_run _ _ _ _ _ Hlock'), Hfull, Z.eqb_refl.
  reflexivity.
Qed.

(** Unused addresses at the end of the list do not change what the loop of
    [get_max_gap] returns. *)
Lemma max_gap_loop_unused_tail (addresses tail : list (@AddressRow PublicKey)) :
  Forall (unused (PublicKey := PublicKey)) tail ->
  max_gap_loop (addresses ++ tail) = max_gap_loop addresses.
Proof.
  intros Htail. unfold max_gap_loop. rewrite fold_left_app.
  generalize (fold_left max_gap_step addresses (0, 0)). intros acc.
  revert acc. induction Htail as [| x tail Hx _ IH]; intros [m c]; simpl;
    [reflexivity |].
  unfold unused in Hx. rewrite Hx. simpl. apply IH.
Qed.

(** X7: [ensure_address_gap] of a chain manager does not change what
    [get_max_gap] returns: the addresses it derives are unused and come
    after all the others. *)
Theorem chain_ensure_address_gap_keeps_max_gap pk cn gap mu w r w' :
  (forall i, pk_n (child pk i) = i) ->
  0 <= gap -> address_generator_lock w = false ->
  ensure_address_gap (HierarchicalDeterministic pk cn gap mu) w = (r, w') ->
  fst (get_max_gap (HierarchicalDeterministic pk cn gap mu) w') =
  fst (get_max_gap (HierarchicalDeterministic pk cn gap mu) w).
Proof.
  intros Hn Hgap Hlock Hrun.
  rewrite (chain_ensure_address_gap_run _ _ _ _ _ Hlock) in Hrun.
  destruct (Z.eqb_spec (existing_gap_loop (last_addresses cn gap (db w)) 0) gap)
    as [Hfull | Hshort].
  - injection Hrun as <- <-. reflexivity.
  - cbv zeta in Hrun. injection Hrun as <- <-.
    unfold AddressManager.get_max_gap, _query_addresses. unfold_M. simpl.
    unfold AddressManager.get_addresses_rows. simpl. f_equal.
    destruct (existing_gap_loop_spec (last_addresses cn gap (db w)) 0)
      as (k & Hk & Hlen & _).
    assert (Hpos : 0 < gap).
    { unfold last_addresses, AddressManager.get_addresses_rows in Hlen.
      simpl in Hlen. rewrite length_take in Hlen. lia. }
    set (new := fresh_rows pk cn (first_index (last_addresses cn gap (db w)))
                  (gap - existing_gap_loop (last_addresses cn gap (db w)) 0)).
    unfold chain_rows at 1. rewrite List.filter_app.
    fold (chain_rows cn (db w)). fold (chain_rows cn new).
    rewrite (chain_rows_own cn new) by apply fresh_rows_own.
    rewrite (sort_asc_app (first_index (last_addresses cn gap (db w)))).
    + apply max_gap_loop_unused_tail. apply sort_rows_Forall.
      eapply Forall_impl; [apply fresh_rows_own |]. simpl. intros x [_ Hx]. exact Hx.
    + apply rows_below_first_index. exact Hpos.
    + apply fresh_rows_index. exact Hn.
Qed.

(** *** A usable address *)

Lemma set_lock_restore (w : @World PublicKey) :
  address_generator_lock w = false -> set_lock false (set_lock true w) = w.
Proof. destruct w as [rows log lock]. simpl. intros ->. reflexivity. Qed.

Lemma sort_rows_In leb (l : list (@AddressRow PublicKey)) x :
  In x (sort_rows leb l) -> In x l.
Proof.
  assert (H : Forall (fun y => In y l) (sort_rows leb l)).
  { apply sort_rows_Forall. apply List.Forall_forall. auto. }
  intros Hx. exact (proj1 (List.Forall_forall _ _) H x Hx).
Qed.

Lemma existing_gap_loop_used_head (l : list (@AddressRow PublicKey)) acc :
  Forall (fun r => used_times r <> 0) l -> existing_gap_loop l acc = acc.
Proof.
  intros [| a rest Ha _]; simpl; [reflexivity |].
  destruct (Z.eqb_spec (used_times a) 0); [contradiction | reflexivity].
Qed.

(** The addresses that a chain manager hands out: at most ten rows below
    [maximum_uses_per_address], least used first. *)
Definition usable_rows (cn mu : Z) (rows : list AddressRow) : list AddressRow :=
  get_addresses_rows cn
    {| used_times__lt := Some mu; order_by := Some used_times_asc_n_asc;
       limit := Some 10 |} rows.

Lemma usable_rows_In cn mu rows x :
  In x (usable_rows cn mu rows) ->
  In x rows /\ chain x = cn /\ used_times x < mu.
Proof.
  unfold usable_rows, AddressManager.get_addresses_rows. simpl. intros Hx.
  assert (Hx' : In x (sort_rows (order_leb pk_n used_times_asc_n_asc)
                        (List.filter (fun r => used_times r <? mu) (chain_rows cn rows)))).
  { rewrite <- (firstn_skipn 10). apply in_or_app. left. exact Hx. }
  clear Hx. rename Hx' into Hx.
  apply sort_rows_In, filter_In in Hx as [Hx Hused].
  apply filter_In in Hx as [Hx Hchain].
  split; [exact Hx | split; [apply Z.eqb_eq | apply Z.ltb_lt]; assumption].
Qed.

Lemma usable_rows_nil cn mu rows :
  usable_rows cn mu rows = [] ->
  Forall (fun r => mu <= used_times r) (chain_rows cn rows).
Proof.
  unfold usable_rows, AddressManager.get_addresses_rows. simpl. intros Hnil.
  assert (Hlen : length (List.filter (fun r => used_times r <? mu) (chain_rows cn rows)) = 0%nat).
  { rewrite <- (sort_rows_length (order_leb pk_n used_times_asc_n_asc)).
    destruct (sort_rows _ _); [reflexivity | discriminate Hnil]. }
  apply List.Forall_forall. intros r Hr.
  destruct (Z.ltb_spec (used_times r) mu) as [Hlt | Hge]; [| exact Hge].
  exfalso.
  assert (Hin : In r (List.filter (fun r => used_times r <? mu) (chain_rows cn rows))).
  { apply filter_In. split; [exact Hr | apply Z.ltb_lt; exact Hlt]. }
  destruct (List.filter _ _); [destruct Hin | discriminate Hlen].
Qed.

(** [get_or_create_usable_address] of a chain manager, with the lock
    free. *)
Lemma chain_get_or_create_run pk cn gap mu draw w :
  address_generator_lock w = false ->
  get_or_create_usable_address (HierarchicalDeterministic pk cn gap mu) draw w =
  (match map row_address (usable_rows cn mu (db w)) with
   | _ :: _ => random_choice draw (map row_address (usable_rows cn mu (db w)))
   | [] =>
       addresses ← ensure_address_gap (HierarchicalDeterministic pk cn gap mu);
       match addresses with
       | a :: _ => mret a
       | [] => raise IndexError
       end
   end) w.
Proof.
  intros Hlock. destruct w as [rows log lock]. simpl in Hlock. subst lock.
  reflexivity.
Qed.

(** X8: with a gap and a number of uses that are positive, the chain
    manager always hands out an address: [get_or_create_usable_address]
    returns the address of a row of its chain that has been used less than
    [maximum_uses_per_address] times, deriving new addresses when no such
    row exists. *)
Theorem chain_usable_address pk cn gap mu draw w :
  0 < gap -> 0 < mu -> address_generator_lock w = false ->
  exists a w',
    get_or_create_usable_address (HierarchicalDeterministic pk cn gap mu) draw w
      = (Ok a, w') /\
    exists row,
      In row (db w') /\ chain row = cn /\ row_address row = a /\ used_times row < mu.
Proof.
  intros Hgap Hmu Hlock.
  rewrite (chain_get_or_create_run _ _ _ _ _ _ Hlock).
  destruct (usable_rows cn mu (db w)) as [| u usable] eqn:Husable.
  - (* no usable row: new addresses are derived *)
    cbn [map]. unfold_M.
    rewrite (chain_ensure_address_gap_run _ _ _ _ _ Hlock).
    assert (Hused : Forall (fun r => used_times r <> 0) (last_addresses cn gap (db w))).
    { unfold last_addresses, AddressManager.get_addresses_rows. simpl.
      apply Forall_take, sort_rows_Forall.
      eapply Forall_impl; [apply (usable_rows_nil _ _ _ Husable) |].
      simpl. intros r Hr. lia. }
    rewrite (existing_gap_loop_used_head _ 0 Hused).
    destruct (Z.eqb_spec 0 gap) as [Heq | _]; [lia |]. cbv zeta.
    rewrite Z.sub_0_r. unfold fresh_rows. rewrite (seqZ_cons _ gap Hgap). simpl.
    eexists _, _. split; [reflexivity |]. simpl.
    eexists. split; [apply in_or_app; right; left; reflexivity |].
    simpl. split; [reflexivity | split; [reflexivity | exact Hmu]].
  - (* a usable row is drawn *)
    cbn [map].
    change (AddressManager.row_address pk_address u
              :: map (AddressManager.row_address pk_address) usable)
      with (map (AddressManager.row_address pk_address) (u :: usable)).
    set (addresses := map (AddressManager.row_address pk_address) (u :: usable)).
    assert (Hlt : (draw mod length addresses < length addresses)%nat).
    { apply Nat.mod_upper_bound. unfold addresses. simpl. lia. }
    destruct (lookup_lt_is_Some_2 addresses _ Hlt) as [a Ha].
    unfold random_choice. unfold_M.
    rewrite Ha. exists a, w. split; [reflexivity |].
    unfold addresses in Ha. rewrite list_lookup_fmap in Ha.
    destruct ((u :: usable) !! _) as [row |] eqn:Hrow;
      simpl in Ha; [| discriminate Ha].
    injection Ha as <-. exists row.
    apply list_elem_of_lookup_2, list_elem_of_In in Hrow.
    rewrite <- Husable in Hrow. apply usable_rows_In in Hrow as (Hin & Hc & Hu).
    auto.
Qed.

(** [get_or_create_usable_address] of the single-address manager, with the
    lock free. *)
Lemma single_get_or_create_run pk cn draw w :
  address_generator_lock w = false ->
  get_or_create_usable_address (SingleKey pk cn) draw w =
  (match map row_address (take 10 (chain_rows cn (db w))) with
   | _ :: _ => random_choice draw (map row_address (take 10 (chain_rows cn (db w))))
   | [] =>
       addresses ← ensure_address_gap (SingleKey pk cn);
       match addresses with
       | a :: _ => mret a
       | [] => raise IndexError
       end
   end) w.
Proof.
  intros Hlock. destruct w as [rows log lock]. simpl in Hlock. subst lock.
  reflexivity.
Qed.

(** X9: the first [get_or_create_usable_address] of a single-address
    manager stores the row of the account's public key, announces its
    address and returns it; from then on the same address is returned and
    nothing is stored. *)
Theorem single_key_first_address pk cn draw draw' w :
  chain_rows cn (db w) = [] -> address_generator_lock w = false ->
  let w' := {| db := db w ++ [{| chain := cn; pubkey := pk; used_times := 0 |}];
               announced := announced w ++ [[pk_address pk]];
               address_generator_lock := false |} in
  get_or_create_usable_address (SingleKey pk cn) draw w = (Ok (pk_address pk), w') /\
  get_or_create_usable_address (SingleKey pk cn) draw' w' = (Ok (pk_address pk), w').
Proof.
  intros Hrows Hlock w'.
  assert (Hrows' : chain_rows cn (db w') = [{| chain := cn; pubkey := pk; used_times := 0 |}]).
  { unfold w'. simpl. unfold chain_rows. rewrite List.filter_app.
    fold (chain_rows cn (db w)). rewrite Hrows. simpl. rewrite Z.eqb_refl. reflexivity. }
  split.
  - rewrite (single_get_or_create_run _ _ _ _ Hlock), Hrows. cbn [take map].
    unfold_M. rewrite (single_ensure_address_gap_run _ _ _ Hlock), Hrows.
    reflexivity.
  - rewrite (single_get_or_create_run pk cn draw' w' eq_refl), Hrows'.
    cbn [take map]. unfold random_choice. unfold_M. simpl.
    rewrite ?Nat.mod_1_r. reflexivity.
Qed.

End Facts.

(** The instance of [AddressManager]: a chain with gap 3 whose address 0 is
    used and whose address 1 is not. *)
Definition example_before : @World Z :=
  example_world [example_row 0 1; example_row 1 0].

Definition example_run : result (list string) * @World Z :=
  AddressManager.ensure_address_gap example_child id example_address
    example_chain example_before.

Lemma example_child_index : forall i : Z, id (example_child 0%Z i) = i.
Proof. reflexivity. Qed.

Lemma ensure_address_gap_only_appends_witness :
  exists new,
    fst example_run = Ok (map (row_address example_address) new) /\
    db (snd example_run) = db example_before ++ new /\
    Forall (fun row => chain row = chain_number example_chain /\ used_times row = 0%Z) new /\
    (forall c, c <> chain_number example_chain ->
       chain_rows c (db (snd example_run)) = chain_rows c (db example_before)) /\
    address_generator_lock (snd example_run) = false.
Proof.
  apply (ensure_address_gap_only_appends example_child id example_address
           example_chain example_before (fst example_run) (snd example_run)).
  - reflexivity.
  - reflexivity.
Defined.

Lemma chain_ensure_address_gap_idempotent_witness :
  AddressManager.ensure_address_gap example_child id example_address
    example_chain (snd example_run) = (Ok [], snd example_run).
Proof.
  apply (chain_ensure_address_gap_idempotent example_child id example_address
           0%Z KeyPath.RECEIVE 3%Z 1%Z example_before (fst example_run)).
  - exact example_child_index.
  - lia.
  - reflexivity.
  - reflexivity.
Defined.

Lemma chain_ensure_address_gap_keeps_max_gap_witness :
  fst (AddressManager.get_max_gap id example_chain (snd example_run)) =
  fst (AddressManager.get_max_gap id example_chain example_before).
Proof.
  apply (chain_ensure_address_gap_keeps_max_gap example_child id example_address
           0%Z KeyPath.RECEIVE 3%Z 1%Z example_before (fst example_run)
           (snd example_run)).
  - exact example_child_index.
  - lia.
  - reflexivity.
  - reflexivity.
Defined.

Lemma chain_usable_address_witness :
  exists a w',
    AddressManager.get_or_create_usable_address example_child id example_address
      example_chain 7 (example_world [example_row 0 1]) = (Ok a, w') /\
    exists row,
      In row (db w') /\ chain row = KeyPath.RECEIVE /\
      row_address example_address row = a /\ (used_times row < 1)%Z.
Proof.
  apply (chain_usable_address example_child id example_address
           0%Z KeyPath.RECEIVE 3%Z 1%Z 7 (example_world [example_row 0 1])).
  - lia.
  - lia.
  - reflexivity.
Defined.

Lemma single_key_first_address_witness :
  let w' := {| db := [] ++ [{| chain := KeyPath.RECEIVE; pubkey := 7%Z; used_times := 0 |}];
               announced := [] ++ [[example_address 7%Z]];
               address_generator_lock := false |} in
  AddressManager.get_or_create_usable_address example_child id example_address
    (SingleKey 7%Z KeyPath.RECEIVE) 3 (example_world [])
    = (Ok (example_address 7%Z), w') /\
  AddressManager.get_or_create_usable_address example_child id example_address
    (SingleKey 7%Z KeyPath.RECEIVE) 4 w'
    = (Ok (example_address 7%Z), w').
Proof.
  apply (single_key_first_address example_child id example_address
           7%Z KeyPath.RECEIVE 3 4 (example_world [])); reflexivity.
Defined.

End AddressFacts.

(** ** More on the encryption of an account *)

Module AccountFacts.
Import Account.
Section Facts.

Context {PrivateKey PublicKey : Type}.
Variable aes_encrypt : string -> string -> string -> string.
Variable aes_decrypt : string -> string -> result (string * string).
Variable mnemonic_decode : string -> result Z.
Variable from_extended_key_string : string -> result PrivateKey.
Variable extended_key_string : PrivateKey -> string.
Variable public_extended_key_string : PublicKey -> string.

Local Abbreviation to_dict :=
  (to_dict (PrivateKey := PrivateKey) aes_encrypt extended_key_string
     public_extended_key_string).
Local Abbreviation encrypt :=
  (encrypt (PublicKey := PublicKey) aes_encrypt extended_key_string).
Local Abbreviation decrypt :=
  (decrypt (PublicKey := PublicKey) aes_decrypt mnemonic_decode
     from_extended_key_string).

(** X10: [to_dict] changes nothing and draws no random bytes when the
    account is encrypted or no password is given (an empty password
    included): it returns the stored seed and the account's [encrypted]
    flag. *)
Theorem to_dict_read_only encrypt_password include_channel_keys p :
  encrypted (self p) = true \/ truthy_opt encrypt_password = false ->
  exists d,
    to_dict encrypt_password include_channel_keys p = (Ok d, p) /\
    d_seed d = seed (self p) /\
    d_encrypted d = encrypted (self p) /\
    (encrypted (self p) = true -> d_private_key d = private_key_string (self p)).
Proof.
  intros Hcase. unfold Account.to_dict. unfold_M. simpl.
  destruct (encrypted (self p)) eqn:Henc; simpl.
  - destruct encrypt_password as [password |]; simpl;
      eexists; (split; [reflexivity |]); simpl; auto.
  - destruct Hcase as [Hcase | Hcase]; [discriminate Hcase |].
    rewrite Hcase. simpl.
    destruct encrypt_password as [password |]; simpl;
      eexists; (split; [reflexivity |]); simpl;
      (split; [reflexivity | split; [reflexivity | discriminate]]).
Qed.

(** X11: what [to_dict(encrypt_password=pw)] writes for a plain account is
    what the account holds after [encrypt(pw)]: the dictionary saved with the
    password equals the dictionary saved, without a password, after the
    account was encrypted with it. *)
Theorem to_dict_encrypts_like_encrypt password include_channel_keys p :
  encrypted (self p) = false ->
  truthy password = true ->
  match private_key (self p) with
  | Some k => truthy (extended_key_string k) = true
  | None => private_key_string (self p) = ""
  end ->
  exists d p1 p2,
    to_dict (Some password) include_channel_keys p = (Ok d, p1) /\
    encrypt password p1 = (Ok true, p2) /\
    to_dict None include_channel_keys p2 = (Ok d, p2).
Proof.
  intros Henc Hpw Hkey.
  destruct p as [a source reads].
  destruct a as [lid nm sd mo pks ivs enc pk pub gen rcv chg certs].
  simpl in *. subst enc.
  unfold Account.to_dict, Account.encrypt, get_init_vector, os_urandom.
  unfold_M. simpl. rewrite Hpw. simpl.
  destruct pk as [k |]; [| subst pks];
    destruct (truthy sd) eqn:Hsd;
    destruct (ivs !! "private_key") as [iv1 |] eqn:H1,
             (ivs !! "seed") as [iv2 |] eqn:H2;
    run_lookups;
    (eexists _, _, _; split; [reflexivity |]);
    run_lookups; (split; [reflexivity |]);
    run_lookups; reflexivity.
Qed.

(** X12: after [decrypt(pw)], [encrypt(pw)] stores the very ciphertexts that
    the account held before: [decrypt] keeps the init vector of each field
    and [encrypt] uses it again. *)
Theorem decrypt_then_encrypt password p seed0 iv_seed k iv_key :
  aes_round_trip aes_encrypt aes_decrypt ->
  ciphertext_not_empty aes_encrypt ->
  key_string_round_trip from_extended_key_string extended_key_string ->
  encrypted (self p) = true ->
  seed (self p) = aes_encrypt password seed0 iv_seed ->
  truthy seed0 = true ->
  valid_seed mnemonic_decode seed0 ->
  private_key_string (self p) = aes_encrypt password (extended_key_string k) iv_key ->
  exists p1 p2,
    decrypt password p = (Ok true, p1) /\
    seed (self p1) = seed0 /\
    private_key (self p1) = Some k /\
    encrypt password p1 = (Ok true, p2) /\
    seed (self p2) = seed (self p) /\
    private_key_string (self p2) = private_key_string (self p) /\
    private_key (self p2) = None /\
    encrypted (self p2) = true.
Proof.
  intros Haes Hne Hkey Henc Hseed Hs0 [i Hvalid] Hpks.
  destruct (Hkey k) as [Hk1 Hk2].
  destruct p as [a source reads].
  destruct a as [lid nm sd mo pks ivs enc pk pub gen rcv chg certs].
  simpl in *. subst enc sd pks.
  unfold Account.decrypt, _decrypt_seed, _decrypt_private_key_string,
    Account.encrypt, get_init_vector, os_urandom. unfold_M. simpl.
  repeat (progress (rewrite ?Hne, ?Haes, ?Hs0, ?Hvalid, ?Hk1, ?Hk2; simpl)).
  eexists _, _. split; [reflexivity |]. simpl.
  split; [reflexivity | split; [reflexivity |]].
  repeat (progress (rewrite ?Hs0, ?lookup_insert_eq; simpl;
                    try (rewrite lookup_insert_ne by discriminate); simpl)).
  repeat split; reflexivity.
Qed.

End Facts.

(** The instance of [Account], and an account encrypted with the password
    ["pw"]. *)
Definition example_encrypted_account : @t string string :=
  {| ledger_id := "lbc_regtest"; name := "Account #1";
     seed := example_aes_encrypt "pw" example_seed "0123456789abcdef";
     modified_on := 0;
     private_key_string :=
       example_aes_encrypt "pw" (example_extended_key_string "key") "fedcba9876543210";
     init_vectors := ∅;
     encrypted := true; private_key := None; public_key := "xpubkey";
     address_generator := "single-address";
     receiving := AddressManager.SingleKey "xpubkey" KeyPath.RECEIVE;
     change := AddressManager.SingleKey "xpubkey" KeyPath.RECEIVE;
     channel_keys := ∅ |}.

Definition example_to_dict
  : option string -> bool -> M (@Process string string) AccountDict :=
  Account.to_dict example_aes_encrypt example_extended_key_string id.

Lemma to_dict_read_only_witness :
  exists d,
    example_to_dict (Some "pw") true (example_process example_encrypted_account)
      = (Ok d, example_process example_encrypted_account) /\
    d_seed d = seed example_encrypted_account /\
    d_encrypted d = true /\
    (true = true -> d_private_key d = private_key_string example_encrypted_account).
Proof.
  apply (to_dict_read_only example_aes_encrypt example_extended_key_string id
           (Some "pw") true (example_process example_encrypted_account)).
  left. reflexivity.
Defined.

Lemma to_dict_encrypts_like_encrypt_witness :
  exists d p1 p2,
    example_to_dict (Some "pw") true (example_process example_account) = (Ok d, p1) /\
    example_encrypt "pw" p1 = (Ok true, p2) /\
    example_to_dict None true p2 = (Ok d, p2).
Proof.
  apply (to_dict_encrypts_like_encrypt example_aes_encrypt
           example_extended_key_string id "pw" true
           (example_process example_account)); reflexivity.
Defined.

Lemma decrypt_then_encrypt_witness :
  exists p1 p2,
    example_decrypt "pw" (example_process example_encrypted_account) = (Ok true, p1) /\
    seed (self p1) = example_seed /\
    private_key (self p1) = Some "key" /\
    example_encrypt "pw" p1 = (Ok true, p2) /\
    seed (self p2) = seed example_encrypted_account /\
    private_key_string (self p2) = private_key_string example_encrypted_account /\
    private_key (self p2) = None /\
    encrypted (self p2) = true.
Proof.
  apply (decrypt_then_encrypt example_aes_encrypt example_aes_decrypt
           example_mnemonic_decode example_from_extended_key_string
           example_extended_key_string "pw"
           (example_process example_encrypted_account)
           example_seed "0123456789abcdef" "key" "fedcba9876543210").
  - exact example_aes_round_trip.
  - exact example_ciphertext_not_empty.
  - exact example_key_string_round_trip.
  - reflexivity.
  - reflexivity.
  - reflexivity.
  - exists 0%Z. reflexivity.
  - reflexivity.
Defined.

End AccountFacts.

(** ** Account.merge *)

Module AccountMerge.
Import Account.
Section Merge.
Local Open Scope Z_scope.

Context {PrivateKey PublicKey : Type}.

Local Abbreviation Account := (@Account.t PrivateKey PublicKey).

Definition set_name (v : string) (a : Account) : Account :=
  {| ledger_id := ledger_id a; name := v; seed := seed a;
     modified_on := modified_on a; private_key_string := private_key_string a;
     init_vectors := init_vectors a; encrypted := encrypted a;
     private_key := private_key a; public_key := public_key a;
     address_generator := address_generator a; receiving := receiving a;
     change := change a; channel_keys := channel_keys a |}.

Definition set_modified_on (v : Z) (a : Account) : Account :=
  {| ledger_id := ledger_id a; name := name a; seed := seed a;
     modified_on := v; private_key_string := private_key_string a;
     init_vectors := init_vectors a; encrypted := encrypted a;
     private_key := private_key a; public_key := public_key a;
     address_generator := address_generator a; receiving := receiving a;
     change := change a; channel_keys := channel_keys a |}.

Definition set_receiving (v : @AddressManager.t PublicKey) (a : Account) : Account :=
  {| ledger_id := ledger_id a; name := name a; seed := seed a;
     modified_on := modified_on a; private_key_string := private_key_string a;
     init_vectors := init_vectors a; encrypted := encrypted a;
     private_key := private_key a; public_key := public_key a;
     address_generator := address_generator a; receiving := v;
     change := change a; channel_keys := channel_keys a |}.

Definition set_change (v : @AddressManager.t PublicKey) (a : Account) : Account :=
  {| ledger_id := ledger_id a; name := name a; seed := seed a;
     modified_on := modified_on a; private_key_string := private_key_string a;
     init_vectors := init_vectors a; encrypted := encrypted a;
     private_key := private_key a; public_key := public_key a;
     address_generator := address_generator a; receiving := receiving a;
     change := v; channel_keys := channel_keys a |}.

Definition set_channel_keys (v : gmap string string) (a : Account) : Account :=
  {| ledger_id := ledger_id a; name := name a; seed := seed a;
     modified_on := modified_on a; private_key_string := private_key_string a;
     init_vectors := init_vectors a; encrypted := encrypted a;
     private_key := private_key a; public_key := public_key a;
     address_generator := address_generator a; receiving := receiving a;
     change := change a; channel_keys := v |}.

(** The dictionary given to [merge]: the keys that the method indexes
    ([d['name']], [d['address_generator']['name']]) are fields, the keys it
    reads with [get] or tests with [in] are options; the dictionary of a
    chain is the pair of its optional ['gap'] and
    ['maximum_uses_per_address']. *)
Record MergeDict : Type := mkMergeDict {
  m_modified_on : option Z;
  m_name : string;
  m_generator_name : string;
  m_receiving : option (option Z * option Z);
  m_change : option (option Z * option Z);
  m_certificates : option (gmap string string)
}.

(** [AddressManager.merge(d)], which does nothing, and its override
    [HierarchicalDeterministic.merge(d)]. *)
Definition manager_merge (d : option Z * option Z) (self : @AddressManager.t PublicKey)
  : @AddressManager.t PublicKey :=
  match self with
  | AddressManager.HierarchicalDeterministic pk cn gap maximum_uses_per_address =>
      AddressManager.HierarchicalDeterministic pk cn
        (default gap (fst d)) (default maximum_uses_per_address (snd d))
  | AddressManager.SingleKey _ _ => self
  end.

(** [merge(d)], with [now] what [time.time()] returns. *)
Definition merge (d : MergeDict) (now : Z) : M Account unit :=
  a ← get;
  (if modified_on a <? default 0 (m_modified_on d) then
     modify (set_name (m_name d));;
     modify (set_modified_on (default now (m_modified_on d)));;
     a ← get;
     py_assert (String.eqb (address_generator a) (m_generator_name d));;
     (match m_change d with
      | Some chain => modify (fun a => set_change (manager_merge chain (change a)) a)
      | None => mret tt
      end);;
     (match m_receiving d with
      | Some chain => modify (fun a => set_receiving (manager_merge chain (receiving a)) a)
      | None => mret tt
      end)
   else mret tt);;
  modify (fun a => set_channel_keys (default ∅ (m_certificates d) ∪ channel_keys a) a).

Lemma manager_merge_twice d (self : @AddressManager.t PublicKey) :
  manager_merge d (manager_merge d self) = manager_merge d self.
Proof.
  destruct self as [pk cn gap mu |]; [| reflexivity].
  destruct d as [[g |] [m |]]; reflexivity.
Qed.

(** X13: merging the same dictionary a second time changes nothing. *)
Theorem merge_idempotent d now a a' :
  merge d now a = (Ok tt, a') -> merge d now a' = (Ok tt, a').
Proof.
  destruct a as [lid nm sd mo pks ivs enc pk pub gen rcv chg certs].
  unfold merge. unfold_M. simpl.
  destruct (Z.ltb_spec mo (default 0 (m_modified_on d))) as [Hnewer | Hstale]; simpl.
  - destruct (String.eqb gen (m_generator_name d)) eqn:Hgen; simpl;
      [| discriminate].
    destruct (m_change d) as [c |], (m_receiving d) as [r |]; simpl;
      intros [= <-]; simpl;
      (destruct (Z.ltb_spec (default now (m_modified_on d)) (default 0 (m_modified_on d)));
       simpl; rewrite ?Hgen; simpl; rewrite ?manager_merge_twice;
       unfold set_channel_keys; simpl;
       rewrite (assoc (∪)), (idemp (∪) (default ∅ (m_certificates d)));
       reflexivity).
  - intros [= <-]. simpl.
    destruct (Z.ltb_spec mo (default 0 (m_modified_on d))); [lia |]. simpl.
    unfold set_channel_keys. simpl.
    rewrite (assoc (∪)), (idemp (∪) (default ∅ (m_certificates d))).
    reflexivity.
Qed.

(** X14: a dictionary that is not newer than the account only brings its
    certificates: name, date and gaps stay, every certificate of the
    dictionary is taken, and every other channel key of the account is
    kept. *)
Theorem merge_stale d now a :
  default 0 (m_modified_on d) <= modified_on a ->
  exists a',
    merge d now a = (Ok tt, a') /\
    name a' = name a /\ modified_on a' = modified_on a /\
    receiving a' = receiving a /\ change a' = change a /\
    forall address,
      channel_keys a' !! address =
      match default ∅ (m_certificates d) !! address with
      | Some pem => Some pem
      | None => channel_keys a !! address
      end.
Proof.
  intros Hstale. unfold merge. unfold_M. simpl.
  destruct (Z.ltb_spec (modified_on a) (default 0 (m_modified_on d))); [lia |].
  simpl. eexists. split; [reflexivity |]. simpl.
  repeat split. intros address. rewrite lookup_union.
  destruct (default ∅ (m_certificates d) !! address),
           (channel_keys a !! address); reflexivity.
Qed.

(** X15: a newer dictionary of another address generator makes [merge]
    fail on its assertion after the name and the date of the dictionary
    were taken: the account keeps them, while its gaps and its channel keys
    are as before. *)
Theorem merge_other_generator d now a :
  modified_on a < default 0 (m_modified_on d) ->
  address_generator a <> m_generator_name d ->
  exists a',
    merge d now a = (Raise AssertionError, a') /\
    name a' = m_name d /\
    modified_on a' = default now (m_modified_on d) /\
    receiving a' = receiving a /\ change a' = change a /\
    channel_keys a' = channel_keys a.
Proof.
  intros Hnewer Hgen. unfold merge. unfold_M. simpl.
  destruct (Z.ltb_spec (modified_on a) (default 0 (m_modified_on d))); [| lia].
  simpl. apply String.eqb_neq in Hgen. rewrite Hgen. simpl.
  eexists. split; [reflexivity |]. simpl. repeat split.
Qed.

End Merge.

(** A dictionary newer than the instance of [Account], with a certificate;
    one that is not newer; and a newer one of the other generator. *)
Definition example_newer : MergeDict :=
  {| m_modified_on := Some 10%Z; m_name := "renamed";
     m_generator_name := "single-address";
     m_receiving := None; m_change := None;
     m_certificates := Some {[ "address" := "-----BEGIN" ]} |}.

Definition example_stale : MergeDict :=
  {| m_modified_on := None; m_name := "renamed";
     m_generator_name := "single-address";
     m_receiving := None; m_change := None;
     m_certificates := Some {[ "address" := "-----BEGIN" ]} |}.

Definition example_other : MergeDict :=
  {| m_modified_on := Some 10%Z; m_name := "renamed";
     m_generator_name := "deterministic-chain";
     m_receiving := Some (Some 30%Z, None); m_change := None;
     m_certificates := Some {[ "address" := "-----BEGIN" ]} |}.

Lemma merge_idempotent_witness :
  merge example_newer 99 (snd (merge example_newer 99 Account.example_account))
  = (Ok tt, snd (merge example_newer 99 Account.example_account)).
Proof.
  apply (merge_idempotent example_newer 99 Account.example_account). reflexivity.
Defined.

Lemma merge_stale_witness :
  exists a',
    merge example_stale 99 Account.example_account = (Ok tt, a') /\
    name a' = name Account.example_account /\
    modified_on a' = modified_on Account.example_account /\
    receiving a' = receiving Account.example_account /\
    change a' = change Account.example_account /\
    forall address,
      channel_keys a' !! address =
      match default ∅ (m_certificates example_stale) !! address with
      | Some pem => Some pem
      | None => channel_keys Account.example_account !! address
      end.
Proof.
  apply (merge_stale example_stale 99 Account.example_account). simpl. lia.
Defined.

Lemma merge_other_generator_witness :
  exists a',
    merge example_other 99 Account.example_account = (Raise AssertionError, a') /\
    name a' = m_name example_other /\
    modified_on a' = default 99%Z (m_modified_on example_other) /\
    receiving a' = receiving Account.example_account /\
    change a' = change Account.example_account /\
    channel_keys a' = channel_keys Account.example_account.
Proof.
  apply (merge_other_generator example_other 99 Account.example_account).
  - simpl. lia.
  - discriminate.
Defined.

End AccountMerge.

(** ** Account.from_dict and the dictionary of to_dict *)

Module AccountDicts.
Import Account.
Section Dicts.
Local Open Scope Z_scope.

(** bip32 and mnemonic: the private key of a seed
    ([get_private_key_from_seed(ledger, seed, '')]), [.public_key],
    [PublicKey.child], [.address], and [from_extended_key_string] and
    [extended_key_string] for the two kinds of key. *)
Context {PrivateKey PublicKey : Type}.
Variable aes_encrypt : string -> string -> string -> string.
Variable aes_decrypt : string -> string -> result (string * string).
Variable mnemonic_decode : string -> result Z.
Variable private_key_from_seed : string -> PrivateKey.
Variable public_key_of : PrivateKey -> PublicKey.
Variable public_child : PublicKey -> Z -> PublicKey.
Variable address : PublicKey -> string.
Variable from_extended_key_string : string -> result PrivateKey.
Variable public_from_extended_key_string : string -> result PublicKey.
Variable extended_key_string : PrivateKey -> string.
Variable public_extended_key_string : PublicKey -> string.

Local Abbreviation Account := (@Account.t PrivateKey PublicKey).
Local Abbreviation to_dict :=
  (to_dict (PrivateKey := PrivateKey) aes_encrypt extended_key_string
     public_extended_key_string).
Local Abbreviation decrypt :=
  (decrypt (PublicKey := PublicKey) aes_decrypt mnemonic_decode
     from_extended_key_string).

Definition result_bind {A B} (r : result A) (k : A -> result B) : result B :=
  match r with
  | Ok a => k a
  | Raise e => Raise e
  end.

(** [keys_from_dict(ledger, d)], for a dictionary that has the keys that
    [to_dict] writes. *)
Definition keys_from_dict (d : AccountDict)
  : result (string * option PrivateKey * PublicKey) :=
  let seed := d_seed d in
  let private_key_string := d_private_key d in
  result_bind
    (if negb (d_encrypted d) then
       if truthy seed then
         let private_key := private_key_from_seed seed in
         Ok (Some private_key, Some (public_key_of private_key))
       else if truthy private_key_string then
         result_bind (from_extended_key_string private_key_string)
           (fun private_key => Ok (Some private_key, Some (public_key_of private_key)))
       else Ok (None, None)
     else Ok (None, None))
    (fun keys =>
       match snd keys with
       | Some public_key => Ok (seed, fst keys, public_key)
       | None =>
           result_bind (public_from_extended_key_string (d_public_key d))
             (fun public_key => Ok (seed, fst keys, public_key))
       end).

(** [cls.from_dict(account, d)] of the class named by the dictionary of the
    address generator; a name that [address_generators] does not have gives
    [KeyError], written [OtherError]. *)
Definition managers_from_dict (public_key : PublicKey)
  (d : AddressManager.GeneratorDict)
  : result (@AddressManager.t PublicKey * @AddressManager.t PublicKey) :=
  if String.eqb (AddressManager.d_name d) "single-address" then
    let same_address_manager := AddressManager.SingleKey public_key KeyPath.RECEIVE in
    Ok (same_address_manager, same_address_manager)
  else if String.eqb (AddressManager.d_name d) "deterministic-chain" then
    let receiving := default (20, 1) (AddressManager.d_receiving d) in
    let change := default (6, 1) (AddressManager.d_change d) in
    Ok (AddressManager.HierarchicalDeterministic
          (public_child public_key KeyPath.RECEIVE) KeyPath.RECEIVE
          (fst receiving) (snd receiving),
        AddressManager.HierarchicalDeterministic
          (public_child public_key KeyPath.CHANGE) KeyPath.CHANGE
          (fst change) (snd change))
  else Raise OtherError.

(** [from_dict(ledger, wallet, d)] and the constructor it calls, for a
    dictionary that has the keys that [to_dict] writes; [ledger] is the
    identifier of the ledger. *)
Definition from_dict (ledger : string) (d : AccountDict) : result Account :=
  result_bind (keys_from_dict d) (fun keys =>
    let '(seed, private_key, public_key) := keys in
    let name := if truthy (d_name d) then d_name d
                else String.append "Account #" (address public_key) in
    result_bind (managers_from_dict public_key (d_address_generator d))
      (fun managers =>
         Ok {| ledger_id := ledger;
               name := name;
               seed := seed;
               modified_on := d_modified_on d;
               private_key_string := d_private_key d;
               init_vectors := ∅;
               encrypted := d_encrypted d;
               private_key := private_key;
               public_key := public_key;
               address_generator := AddressManager.d_name (d_address_generator d);
               receiving := fst managers;
               change := snd managers;
               channel_keys := default ∅ (d_certificates d) |})).

(** The process of an account that was just loaded. *)
Definition loaded (a : Account) (source : nat -> string) : Process :=
  {| self := a; urandom_source := source; urandom_reads := 0 |}.

Definition public_key_string_round_trip : Prop :=
  forall public_key,
    public_from_extended_key_string (public_extended_key_string public_key)
    = Ok public_key.

Lemma managers_from_dict_to_dict public_key gd receiving change :
  managers_from_dict public_key gd = Ok (receiving, change) ->
  managers_from_dict public_key
    (AddressManager.to_dict (AddressManager.d_name gd) receiving change)
  = Ok (receiving, change).
Proof.
  unfold managers_from_dict. simpl.
  destruct (String.eqb (AddressManager.d_name gd) "single-address").
  - intros [= <- <-]. reflexivity.
  - destruct (String.eqb (AddressManager.d_name gd) "deterministic-chain");
      [| discriminate].
    intros [= <- <-]. reflexivity.
Qed.

(** X16: an account that was loaded with [from_dict] survives saving and
    loading: [from_dict] of what [to_dict] writes gives the same account
    (apart from [private_key_string], which becomes the string that was
    written), and saving that account writes the same dictionary again. *)
Theorem save_load_stable ledger d0 a source :
  key_string_round_trip from_extended_key_string extended_key_string ->
  public_key_string_round_trip ->
  from_dict ledger d0 = Ok a ->
  exists d1,
    to_dict None true (loaded a source) = (Ok d1, loaded a source) /\
    from_dict ledger d1 = Ok (set_private_key_string (d_private_key d1) a) /\
    to_dict None true (loaded (set_private_key_string (d_private_key d1) a) source)
    = (Ok d1, loaded (set_private_key_string (d_private_key d1) a) source).
Proof.
  intros Hkey Hpub Hload.
  unfold from_dict, keys_from_dict in Hload.
  destruct d0 as [dl dn ds de dp dpub dg dm dc]. simpl in Hload.
  assert (Hname : forall public_key,
    truthy (if truthy dn then dn else String.append "Account #" (address public_key))
    = true).
  { intros K. destruct (truthy dn) eqn:Hdn; [exact Hdn | reflexivity]. }
  destruct de; simpl in Hload.
  - (* an encrypted dictionary *)
    destruct (public_from_extended_key_string dpub) as [K | e] eqn:HK;
      simpl in Hload; [| discriminate].
    destruct (managers_from_dict K dg) as [[rcv chg] | e] eqn:Hm;
      simpl in Hload; [| discriminate].
    injection Hload as <-.
    eexists. split; [reflexivity |]. simpl.
    split; [| reflexivity].
    unfold from_dict, keys_from_dict. simpl. rewrite Hpub. simpl.
    rewrite (managers_from_dict_to_dict _ _ _ _ Hm). simpl.
    rewrite Hname. reflexivity.
  - destruct (truthy ds) eqn:Hds; simpl in Hload.
    + (* a seed *)
      destruct (managers_from_dict (public_key_of (private_key_from_seed ds)) dg)
        as [[rcv chg] | e] eqn:Hm; simpl in Hload; [| discriminate].
      injection Hload as <-.
      eexists. split; [reflexivity |]. simpl.
      split; [| reflexivity].
      unfold from_dict, keys_from_dict. simpl. rewrite Hds. simpl.
      rewrite (managers_from_dict_to_dict _ _ _ _ Hm). simpl.
      rewrite Hname. reflexivity.
    + apply truthy_false in Hds. subst ds.
      destruct (truthy dp) eqn:Hdp; simpl in Hload.
      * (* an extended private key *)
        destruct (from_extended_key_string dp) as [k | e] eqn:Hk;
          simpl in Hload; [| discriminate].
        destruct (managers_from_dict (public_key_of k) dg)
          as [[rcv chg] | e] eqn:Hm; simpl in Hload; [| discriminate].
        injection Hload as <-.
        destruct (Hkey k) as [Hk1 Hk2].
        eexists. split; [reflexivity |]. simpl.
        split; [| reflexivity].
        unfold from_dict, keys_from_dict. simpl. rewrite Hk1, Hk2. simpl.
        rewrite (managers_from_dict_to_dict _ _ _ _ Hm). simpl.
        rewrite Hname. reflexivity.
      * (* a public key only *)
        apply truthy_false in Hdp. subst dp.
        destruct (public_from_extended_key_string dpub) as [K | e] eqn:HK;
          simpl in Hload; [| discriminate].
        destruct (managers_from_dict K dg) as [[rcv chg] | e] eqn:Hm;
          simpl in Hload; [| discriminate].
        injection Hload as <-.
        eexists. split; [reflexivity |]. simpl.
        split; [| reflexivity].
        unfold from_dict, keys_from_dict. simpl. rewrite Hpub. simpl.
        rewrite (managers_from_dict_to_dict _ _ _ _ Hm). simpl.
        rewrite Hname. reflexivity.
Qed.

(** X17: the dictionary that [to_dict(encrypt_password=pw)] writes for a
    plain account with a seed and a private key loads as an encrypted
    account without a private key, and [decrypt(pw)] on it gives back the
    seed and the private key. *)
Theorem save_encrypted_load_decrypt ledger password p k source :
  aes_round_trip aes_encrypt aes_decrypt ->
  ciphertext_not_empty aes_encrypt ->
  key_string_round_trip from_extended_key_string extended_key_string ->
  public_key_string_round_trip ->
  encrypted (self p) = false ->
  truthy password = true ->
  truthy (seed (self p)) = true ->
  valid_seed mnemonic_decode (seed (self p)) ->
  private_key (self p) = Some k ->
  address_generator (self p) = "single-address"
  \/ address_generator (self p) = "deterministic-chain" ->
  exists d p1 a' p2,
    to_dict (Some password) true p = (Ok d, p1) /\
    from_dict ledger d = Ok a' /\
    encrypted a' = true /\
    private_key a' = None /\
    decrypt password (loaded a' source) = (Ok true, p2) /\
    seed (self p2) = seed (self p) /\
    private_key (self p2) = Some k /\
    encrypted (self p2) = false.
Proof.
  intros Haes Hne Hkey Hpub Henc Hpw Hsd [i Hvalid] Hpk Hgen.
  destruct (Hkey k) as [Hk1 Hk2].
  destruct p as [a src reads].
  destruct a as [lid nm sd mo pks ivs enc pk pub gen rcv chg certs].
  simpl in *. subst enc pk.
  unfold Account.to_dict, get_init_vector, os_urandom. unfold_M. simpl.
  rewrite Hpw, Hk1, Hsd. simpl.
  destruct Hgen as [-> | ->];
  destruct (ivs !! "private_key") as [iv1 |] eqn:H1,
           (ivs !! "seed") as [iv2 |] eqn:H2;
    run_lookups;
    (eexists _, _; eexists;
     eexists;
     split; [reflexivity |]);
    unfold from_dict, keys_from_dict, managers_from_dict; simpl;
    rewrite Hpub; simpl;
    ((split; [reflexivity |]); simpl;
     (split; [reflexivity |]); (split; [reflexivity |]);
     unfold Account.decrypt, _decrypt_seed, _decrypt_private_key_string, loaded;
     unfold_M; simpl;
     repeat (progress (rewrite ?Hne, ?Haes, ?Hsd, ?Hvalid, ?Hk1, ?Hk2; simpl));
     repeat split; reflexivity).
Qed.

End Dicts.

(** The instance: the private key of a seed is the seed behind ["key of "],
    the public key of a private key is the key behind ["pub of "], and a
    public key is its own extended key string. *)
Definition example_private_key_from_seed (seed : string) : string :=
  String.append "key of " seed.
Definition example_public_key_of (k : string) : string := String.append "pub of " k.
Definition example_public_child (K : string) (i : Z) : string :=
  String.append K (String.append "/" (pretty i)).
Definition example_public_from_extended_key_string (s : string) : result string :=
  Ok s.

Definition example_from_dict : AccountDict -> result (@Account.t string string) :=
  from_dict example_private_key_from_seed example_public_key_of
    example_public_child id example_from_extended_key_string
    example_public_from_extended_key_string "lbc_regtest".

(** The dictionary of a new account, as [generate] gives it to
    [from_dict]: a seed and nothing else. *)
Definition example_dict : AccountDict :=
  {| d_ledger := "lbc_regtest"; d_name := ""; d_seed := example_seed;
     d_encrypted := false; d_private_key := ""; d_public_key := "";
     d_address_generator :=
       {| AddressManager.d_name := "deterministic-chain";
          AddressManager.d_receiving := None;
          AddressManager.d_change := None |};
     d_modified_on := 5; d_certificates := None |}.

Definition example_loaded : @Account.t string string :=
  match example_from_dict example_dict with
  | Ok a => a
  | Raise _ => example_account
  end.

Lemma example_public_key_string_round_trip :
  public_key_string_round_trip example_public_from_extended_key_string id.
Proof. intros K. reflexivity. Qed.

Lemma save_load_stable_witness :
  exists d1,
    AccountFacts.example_to_dict None true (loaded example_loaded pretty)
      = (Ok d1, loaded example_loaded pretty) /\
    example_from_dict d1
      = Ok (set_private_key_string (d_private_key d1) example_loaded) /\
    AccountFacts.example_to_dict None true
      (loaded (set_private_key_string (d_private_key d1) example_loaded) pretty)
    = (Ok d1, loaded (set_private_key_string (d_private_key d1) example_loaded) pretty).
Proof.
  apply (save_load_stable example_aes_encrypt example_private_key_from_seed
           example_public_key_of example_public_child id
           example_from_extended_key_string
           example_public_from_extended_key_string
           example_extended_key_string id "lbc_regtest" example_dict
           example_loaded pretty).
  - exact example_key_string_round_trip.
  - exact example_public_key_string_round_trip.
  - reflexivity.
Defined.

Lemma save_encrypted_load_decrypt_witness :
  exists d p1 a' p2,
    AccountFacts.example_to_dict (Some "pw") true (example_process example_account)
      = (Ok d, p1) /\
    example_from_dict d = Ok a' /\
    encrypted a' = true /\
    private_key a' = None /\
    example_decrypt "pw" (loaded a' pretty) = (Ok true, p2) /\
    seed (self p2) = example_seed /\
    private_key (self p2) = Some "key" /\
    encrypted (self p2) = false.
Proof.
  apply (save_encrypted_load_decrypt example_aes_encrypt example_aes_decrypt
           example_mnemonic_decode example_private_key_from_seed
           example_public_key_of example_public_child id
           example_from_extended_key_string
           example_public_from_extended_key_string
           example_extended_key_string id "lbc_regtest" "pw"
           (example_process example_account) "key" pretty).
  - exact example_aes_round_trip.
  - exact example_ciphertext_not_empty.
  - exact example_key_string_round_trip.
  - exact example_public_key_string_round_trip.
  - reflexivity.
  - reflexivity.
  - reflexivity.
  - exists 0%Z. reflexivity.
  - reflexivity.
  - left. reflexivity.
Defined.

Example example_loaded_account :
  private_key example_loaded = Some "key of carbon elder sustain" /\
  public_key example_loaded = "pub of key of carbon elder sustain" /\
  name example_loaded = "Account #pub of key of carbon elder sustain" /\
  receiving example_loaded =
    AddressManager.HierarchicalDeterministic
      "pub of key of carbon elder sustain/0" 0 20 1.
Proof. repeat split. Qed.

End AccountDicts.

(** ** The keys and the gaps of an account *)

Module AccountKeys.
Import Account.
Section Keys.
Local Open Scope Z_scope.

(** bip32: [PrivateKey.child], [PublicKey.child], [.public_key], [.n] and
    [.address]. *)
Context {PrivateKey PublicKey : Type}.
Variable private_child : PrivateKey -> Z -> PrivateKey.
Variable public_child : PublicKey -> Z -> PublicKey.
Variable public_key_of : PrivateKey -> PublicKey.
Variable pk_n : PublicKey -> Z.
Variable pk_address : PublicKey -> string.
Variable private_key_from_seed : string -> PrivateKey.
Variable from_extended_key_string : string -> result PrivateKey.
Variable public_from_extended_key_string : string -> result PublicKey.

Local Abbreviation Account := (@Account.t PrivateKey PublicKey).
Local Abbreviation Manager := (@AddressManager.t PublicKey).
Local Abbreviation World := (@AddressManager.World PublicKey).
Local Abbreviation from_dict :=
  (AccountDicts.from_dict private_key_from_seed public_key_of public_child
     pk_address from_extended_key_string public_from_extended_key_string).
Local Abbreviation manager_ensure_address_gap :=
  (AddressManager.ensure_address_gap public_child pk_n pk_address).

(** [self.address_managers], the dictionary
    [{am.chain_number: am for am in (self.receiving, self.change)}] in the
    order of its keys: one entry when both managers have the same chain
    number. *)
Definition address_managers (a : Account) : list (Z * Manager) :=
  if AddressManager.chain_number (receiving a) =? AddressManager.chain_number (change a)
  then [(AddressManager.chain_number (receiving a), change a)]
  else [(AddressManager.chain_number (receiving a), receiving a);
        (AddressManager.chain_number (change a), change a)].

(** [self.address_managers[chain]]; [KeyError] is written [OtherError]. *)
Definition address_manager (a : Account) (chain : Z) : result Manager :=
  match List.find (fun entry => fst entry =? chain) (address_managers a) with
  | Some entry => Ok (snd entry)
  | None => Raise OtherError
  end.

(** [get_public_key(index)] of a manager of the account. *)
Definition manager_get_public_key (a : Account) (am : Manager) (index : Z)
  : PublicKey :=
  match am with
  | AddressManager.HierarchicalDeterministic _ chain_number _ _ =>
      public_child (public_child (public_key a) chain_number) index
  | AddressManager.SingleKey _ _ => public_key a
  end.

(** [get_private_key(index)] of a manager of the account; a method of
    [None] raises [AttributeError]. *)
Definition manager_get_private_key (a : Account) (am : Manager) (index : Z)
  : result (option PrivateKey) :=
  match am with
  | AddressManager.HierarchicalDeterministic _ chain_number _ _ =>
      match private_key a with
      | Some k => Ok (Some (private_child (private_child k chain_number) index))
      | None => Raise AttributeError
      end
  | AddressManager.SingleKey _ _ => Ok (private_key a)
  end.

(** [Account.get_public_key(chain, index)]. *)
Definition get_public_key (a : Account) (chain index : Z) : result PublicKey :=
  match address_manager a chain with
  | Ok am => Ok (manager_get_public_key a am index)
  | Raise e => Raise e
  end.

(** [Account.get_private_key(chain, index)]. *)
Definition get_private_key (a : Account) (chain index : Z)
  : result (option PrivateKey) :=
  if negb (encrypted a) then
    match address_manager a chain with
    | Ok am => manager_get_private_key a am index
    | Raise e => Raise e
    end
  else Raise AssertionError.

(** [Account.ensure_address_gap()]. *)
Definition ensure_address_gap (a : Account) : M World (list string) :=
  foldl (fun acc entry =>
           addresses ← acc;
           new_addresses ← AddressManager.ensure_address_gap
                             public_child pk_n pk_address (snd entry);
           mret (addresses ++ new_addresses))
        (mret []) (address_managers a).

(** What [save_max_gap] works on: the account, the address table and the
    number of times that [wallet.save()] was called. *)
Record Wallet : Type := mkWallet {
  account : Account;
  world : World;
  saves : nat
}.

Definition in_world {A} (m : M World A) : M Wallet A :=
  fun s => let '(r, w) := m (world s) in
           (r, {| account := account s; world := w; saves := saves s |}).

Definition on_account (f : Account -> Account) : M Wallet unit :=
  modify (fun s => {| account := f (account s); world := world s; saves := saves s |}).

Definition wallet_save : M Wallet unit :=
  modify (fun s => {| account := account s; world := world s; saves := S (saves s) |}).

(** [self.receiving.gap] and its assignment; the attribute does not exist
    on a single-address manager. *)
Definition manager_gap (am : Manager) : result Z :=
  match am with
  | AddressManager.HierarchicalDeterministic _ _ gap _ => Ok gap
  | AddressManager.SingleKey _ _ => Raise AttributeError
  end.

Definition manager_set_gap (gap : Z) (am : Manager) : Manager :=
  match am with
  | AddressManager.HierarchicalDeterministic pk cn _ mu =>
      AddressManager.HierarchicalDeterministic pk cn gap mu
  | AddressManager.SingleKey _ _ => am
  end.

(** [Account.get_max_gap()]: the pair is
    [(max_change_gap, max_receiving_gap)]. *)
Definition get_max_gap (a : Account) : M World (Z * Z) :=
  change_gap ← AddressManager.get_max_gap pk_n (change a);
  receiving_gap ← AddressManager.get_max_gap pk_n (receiving a);
  mret (change_gap, receiving_gap).

(** [save_max_gap()]. *)
Definition save_max_gap : M Wallet unit :=
  a ← gets account;
  if String.eqb (address_generator a) "deterministic-chain" then
    gap ← in_world (get_max_gap a);
    let new_receiving_gap := Z.max 20 (snd gap + 1) in
    receiving_gap ← lift (manager_gap (receiving a));
    changed1 ←
      (if negb (receiving_gap =? new_receiving_gap) then
         on_account (fun a => AccountMerge.set_receiving
                                (manager_set_gap new_receiving_gap (receiving a)) a);;
         mret true
       else mret false);
    let new_change_gap := Z.max 6 (fst gap + 1) in
    a ← gets account;
    change_gap ← lift (manager_gap (change a));
    changed2 ←
      (if negb (change_gap =? new_change_gap) then
         on_account (fun a => AccountMerge.set_change
                                (manager_set_gap new_change_gap (change a)) a);;
         mret true
       else mret false);
    if changed1 || changed2 then wallet_save else mret tt
  else mret tt.

(** The value that [get_max_gap] of a manager returns: it reads the
    address table and does not depend on the manager's gap. *)
Definition observed_max_gap (am : Manager) (w : World) : Z :=
  match am with
  | AddressManager.HierarchicalDeterministic _ chain_number _ _ =>
      AddressManager.max_gap_loop
        (AddressManager.get_addresses_rows pk_n chain_number
           {| AddressManager.used_times__lt := None;
              AddressManager.order_by := Some AddressManager.n_asc;
              AddressManager.limit := None |} (AddressManager.db w))
  | AddressManager.SingleKey _ _ => 0
  end.

Lemma manager_get_max_gap_run (am : Manager) (w : World) :
  AddressManager.get_max_gap pk_n am w = (Ok (observed_max_gap am w), w).
Proof. destruct am; reflexivity. Qed.

Lemma get_max_gap_run (a : Account) (w : World) :
  get_max_gap a w =
  (Ok (observed_max_gap (change a) w, observed_max_gap (receiving a) w), w).
Proof.
  unfold get_max_gap. unfold_M.
  rewrite !manager_get_max_gap_run. reflexivity.
Qed.

(** X18: after [save_max_gap] the gaps of a deterministic-chain account are
    at least 20 and 6 and greater than the gaps observed, and calling it
    again changes nothing and does not save the wallet again. *)
Theorem save_max_gap_stable s s' :
  save_max_gap s = (Ok tt, s') ->
  save_max_gap s' = (Ok tt, s') /\
  (address_generator (account s) = "deterministic-chain" ->
   exists max_change max_receiving,
     get_max_gap (account s') (world s') = (Ok (max_change, max_receiving), world s') /\
     manager_gap (receiving (account s')) = Ok (Z.max 20 (max_receiving + 1)) /\
     manager_gap (change (account s')) = Ok (Z.max 6 (max_change + 1))).
Proof.
  destruct s as [a w n].
  destruct a as [lid nm sd mo pks ivs enc pk pub gen rcv chg certs].
  unfold save_max_gap, in_world, on_account, wallet_save.
  unfold_M. cbn [account world saves address_generator receiving change].
  destruct (String.eqb gen "deterministic-chain") eqn:Hgen.
  - rewrite get_max_gap_run.
    cbn [account world saves address_generator receiving change fst snd].
    destruct rcv as [pkr cr gr mr | pkr cr]; [| discriminate].
    cbn [manager_gap].
    remember (observed_max_gap (AddressManager.HierarchicalDeterministic pkr cr gr mr) w)
      as max_receiving eqn:Hmr.
    assert (Hr' : forall g,
      observed_max_gap (AddressManager.HierarchicalDeterministic pkr cr g mr) w
      = max_receiving) by (intros; subst; reflexivity).
    destruct chg as [pkc cc gc mc | pkc cc];
      [| destruct (negb _); discriminate].
    remember (observed_max_gap (AddressManager.HierarchicalDeterministic pkc cc gc mc) w)
      as max_change eqn:Hmc.
    assert (Hc' : forall g,
      observed_max_gap (AddressManager.HierarchicalDeterministic pkc cc g mc) w
      = max_change) by (intros; subst; reflexivity).
    clear Hmr Hmc.
    destruct (Z.eqb_spec gr (Z.max 20 (max_receiving + 1))) as [Hr | Hr];
      cbn -[String.eqb Z.max Z.eqb Z.add observed_max_gap get_max_gap];
      (destruct (Z.eqb_spec gc (Z.max 6 (max_change + 1))) as [Hc | Hc]);
      cbn -[String.eqb Z.max Z.eqb Z.add observed_max_gap get_max_gap];
      intros [= Hs]; subst s'; try subst gr; try subst gc;
      cbn -[String.eqb Z.max Z.eqb Z.add observed_max_gap get_max_gap];
      rewrite Hgen;
      cbn -[String.eqb Z.max Z.eqb Z.add observed_max_gap get_max_gap];
      rewrite !get_max_gap_run;
      cbn -[String.eqb Z.max Z.eqb Z.add observed_max_gap get_max_gap];
      repeat (progress
        (rewrite ?Hr', ?Hc', ?Z.eqb_refl;
         cbn -[String.eqb Z.max Z.eqb Z.add observed_max_gap get_max_gap]));
      (split; [reflexivity |]); intros _;
      exists max_change, max_receiving; repeat split; reflexivity.
  - intros [= Hs]; subst s'. cbn -[String.eqb]. rewrite Hgen. split; [reflexivity |].
    intros ->. discriminate Hgen.
Qed.

(** What [from_dict] builds: the managers are those of the generator named
    by the dictionary, over the public key of the account, and an account
    with a private key is not encrypted and has the public key of that
    key. *)
Lemma from_dict_shape ledger d a :
  from_dict ledger d = Ok a ->
  AccountDicts.managers_from_dict public_child (public_key a)
    (d_address_generator d) = Ok (receiving a, change a) /\
  address_generator a = AddressManager.d_name (d_address_generator d) /\
  forall k, private_key a = Some k ->
    public_key a = public_key_of k /\ encrypted a = false.
Proof.
  unfold AccountDicts.from_dict, AccountDicts.keys_from_dict.
  destruct d as [dl dn ds de dp dpub dg dm dc]. simpl.
  destruct de; simpl.
  - destruct (public_from_extended_key_string dpub) as [K | e]; simpl;
      [| discriminate].
    destruct (AccountDicts.managers_from_dict public_child K dg)
      as [[rcv chg] | e] eqn:Hm; simpl; [| discriminate].
    intros [= <-]. simpl. repeat split; try assumption; discriminate.
  - destruct (truthy ds); simpl.
    + destruct (AccountDicts.managers_from_dict public_child
                  (public_key_of (private_key_from_seed ds)) dg)
        as [[rcv chg] | e] eqn:Hm; simpl; [| discriminate].
      intros [= <-]. simpl. split; [assumption |]. split; [reflexivity |].
      intros k [= <-]. split; reflexivity.
    + destruct (truthy dp); simpl.
      * destruct (from_extended_key_string dp) as [k0 | e]; simpl;
          [| discriminate].
        destruct (AccountDicts.managers_from_dict public_child (public_key_of k0) dg)
          as [[rcv chg] | e] eqn:Hm; simpl; [| discriminate].
        intros [= <-]. simpl. split; [assumption |]. split; [reflexivity |].
        intros k [= <-]. split; reflexivity.
      * destruct (public_from_extended_key_string dpub) as [K | e]; simpl;
          [| discriminate].
        destruct (AccountDicts.managers_from_dict public_child K dg)
          as [[rcv chg] | e] eqn:Hm; simpl; [| discriminate].
        intros [= <-]. simpl. repeat split; try assumption; discriminate.
Qed.

(** X19: in a deterministic-chain account built by [from_dict], the key
    that [get_public_key(chain, index)] returns is the key whose address
    the manager of that chain derives at [index], and if the account has a
    private key, [get_private_key(chain, index)] returns the private key
    of that public key (private and public derivation commute in
    bip32). *)
Theorem loaded_chain_keys ledger d a chain index :
  (forall k i, public_key_of (private_child k i) = public_child (public_key_of k) i) ->
  from_dict ledger d = Ok a ->
  address_generator a = "deterministic-chain" ->
  chain = KeyPath.RECEIVE \/ chain = KeyPath.CHANGE ->
  exists am,
    address_manager a chain = Ok am /\
    AddressManager.chain_number am = chain /\
    get_public_key a chain index
      = Ok (public_child (AddressManager.public_key am) index) /\
    forall k, private_key a = Some k ->
      exists sk,
        get_private_key a chain index = Ok (Some sk) /\
        public_key_of sk = public_child (AddressManager.public_key am) index.
Proof.
  intros Hbip Hload Hgen Hchain.
  destruct (from_dict_shape _ _ _ Hload) as (Hm & Hname & Hkeys).
  rewrite Hgen in Hname.
  unfold AccountDicts.managers_from_dict in Hm. rewrite <- Hname in Hm.
  simpl in Hm. injection Hm as Hr Hc.
  unfold get_public_key, get_private_key, address_manager, address_managers.
  rewrite <- Hr, <- Hc. simpl.
  destruct Hchain as [-> | ->]; simpl; eexists; (split; [reflexivity |]);
    (split; [reflexivity |]); (split; [reflexivity |]);
    intros k Hk; destruct (Hkeys k Hk) as [Hpub Henc];
    rewrite Henc, Hk, Hpub; simpl; eexists; (split; [reflexivity |]);
    rewrite !Hbip; reflexivity.
Qed.

(** X20: a single-address account built by [from_dict] has one address
    manager, under the receiving chain: [get_public_key] and
    [get_private_key] return the keys of the account for that chain at any
    index and raise [KeyError] for any other chain ([get_private_key]
    fails on its assertion first when the account is encrypted), and
    [ensure_address_gap] of the account is one call of the manager. *)
Theorem loaded_single_address_keys ledger d a chain index :
  from_dict ledger d = Ok a ->
  address_generator a = "single-address" ->
  get_public_key a chain index
    = (if chain =? KeyPath.RECEIVE then Ok (public_key a) else Raise OtherError) /\
  get_private_key a chain index
    = (if encrypted a then Raise AssertionError
       else if chain =? KeyPath.RECEIVE then Ok (private_key a)
       else Raise OtherError) /\
  forall w, ensure_address_gap a w = manager_ensure_address_gap (receiving a) w.
Proof.
  intros Hload Hgen.
  destruct (from_dict_shape _ _ _ Hload) as (Hm & Hname & _).
  rewrite Hgen in Hname.
  unfold AccountDicts.managers_from_dict in Hm. rewrite <- Hname in Hm.
  simpl in Hm. injection Hm as Hr Hc.
  split; [| split].
  - unfold get_public_key, address_manager, address_managers.
    rewrite <- Hr, <- Hc. cbn -[Z.eqb]. rewrite Z.eqb_refl.
    cbn -[Z.eqb]. rewrite (Z.eqb_sym KeyPath.RECEIVE chain).
    destruct (chain =? KeyPath.RECEIVE); reflexivity.
  - unfold get_private_key, address_manager, address_managers.
    rewrite <- Hr, <- Hc. cbn -[Z.eqb]. rewrite Z.eqb_refl.
    cbn -[Z.eqb]. rewrite (Z.eqb_sym KeyPath.RECEIVE chain).
    destruct (encrypted a); cbn -[Z.eqb]; [reflexivity |].
    destruct (chain =? KeyPath.RECEIVE); reflexivity.
  - intros w. unfold ensure_address_gap, address_managers.
    rewrite <- Hr, <- Hc. cbn [AddressManager.chain_number].
    rewrite Z.eqb_refl. cbn [foldl snd]. unfold_M.
    destruct (manager_ensure_address_gap
                (AddressManager.SingleKey (public_key a) KeyPath.RECEIVE) w)
      as [[l | e] w1]; reflexivity.
Qed.

(** What [ensure_address_gap] of a chain manager does to the table. *)
Lemma chain_ensure_address_gap_appends pk cn gap mu w r w' :
  AddressManager.address_generator_lock w = false ->
  manager_ensure_address_gap
    (AddressManager.HierarchicalDeterministic pk cn gap mu) w = (r, w') ->
  exists addresses new,
    r = Ok addresses /\
    AddressManager.db w' = AddressManager.db w ++ new /\
    Forall (fun row => AddressManager.chain row = cn
                       /\ AddressManager.used_times row = 0) new /\
    AddressManager.address_generator_lock w' = false.
Proof.
  intros Hlock Hrun.
  rewrite (AddressFacts.chain_ensure_address_gap_run _ _ _ _ _ _ _ _ Hlock) in Hrun.
  match type of Hrun with (if ?b then _ else _) = _ => destruct b end.
  - injection Hrun as <- <-. exists [], []. rewrite app_nil_r.
    repeat split; [constructor | assumption].
  - cbv zeta in Hrun. injection Hrun as <- <-.
    eexists _, _. simpl. split; [reflexivity |]. split; [reflexivity |].
    split; [apply AddressFacts.fresh_rows_own | reflexivity].
Qed.

(** Rows of another chain do not change the last addresses of a chain. *)
Lemma last_addresses_other_chain cn c gap (rows new : list (@AddressManager.AddressRow PublicKey)) :
  c <> cn ->
  Forall (fun row => AddressManager.chain row = cn
                     /\ AddressManager.used_times row = 0) new ->
  AddressFacts.last_addresses pk_n c gap (rows ++ new)
  = AddressFacts.last_addresses pk_n c gap rows.
Proof.
  intros Hne Hnew.
  unfold AddressFacts.last_addresses, AddressManager.get_addresses_rows.
  cbn [AddressManager.used_times__lt AddressManager.order_by AddressManager.limit].
  unfold AddressManager.chain_rows at 1. rewrite List.filter_app.
  fold (AddressManager.chain_rows c rows). fold (AddressManager.chain_rows c new).
  rewrite (AddressFacts.chain_rows_other cn c new Hne Hnew), app_nil_r.
  reflexivity.
Qed.

(** [ensure_address_gap] of an account with two chains, run. *)
Lemma ensure_address_gap_run a w :
  AddressManager.chain_number (receiving a)
    <> AddressManager.chain_number (change a) ->
  ensure_address_gap a w =
  match manager_ensure_address_gap (receiving a) w with
  | (Ok addresses, w1) =>
      match manager_ensure_address_gap (change a) w1 with
      | (Ok new_addresses, w2) => (Ok (addresses ++ new_addresses), w2)
      | (Raise e, w2) => (Raise e, w2)
      end
  | (Raise e, w1) => (Raise e, w1)
  end.
Proof.
  intros Hne. unfold ensure_address_gap, address_managers.
  destruct (Z.eqb_spec (AddressManager.chain_number (receiving a))
                       (AddressManager.chain_number (change a)));
    [contradiction |].
  cbn [foldl snd]. unfold_M.
  destruct (AddressManager.ensure_address_gap _ _ _ (receiving a) w)
    as [[l1 | e1] w1]; [| reflexivity].
  cbn [app].
  destruct (AddressManager.ensure_address_gap _ _ _ (change a) w1)
    as [[l2 | e2] w2]; reflexivity.
Qed.

(** X21: a second [ensure_address_gap] of an account with a receiving and
    a change chain, with no address used in between, returns [[]] and
    changes nothing: the addresses derived for one chain do not disturb the
    gap of the other. *)
Theorem ensure_address_gap_idempotent a pkr cr gr mr pkc cc gc mc w r w' :
  receiving a = AddressManager.HierarchicalDeterministic pkr cr gr mr ->
  change a = AddressManager.HierarchicalDeterministic pkc cc gc mc ->
  cr <> cc ->
  (forall i, pk_n (public_child pkr i) = i) ->
  (forall i, pk_n (public_child pkc i) = i) ->
  0 <= gr -> 0 <= gc ->
  AddressManager.address_generator_lock w = false ->
  ensure_address_gap a w = (r, w') ->
  ensure_address_gap a w' = (Ok [], w').
Proof.
  intros Hr Hc Hne Hnr Hnc Hgr Hgc Hlock Hrun.
  assert (Hne' : AddressManager.chain_number (receiving a)
                 <> AddressManager.chain_number (change a))
    by (rewrite Hr, Hc; exact Hne).
  rewrite (ensure_address_gap_run a w Hne') in Hrun.
  rewrite (ensure_address_gap_run a w' Hne').
  rewrite Hr, Hc in *.
  destruct (manager_ensure_address_gap
              (AddressManager.HierarchicalDeterministic pkr cr gr mr) w)
    as [r1 w1] eqn:H1.
  destruct (chain_ensure_address_gap_appends _ _ _ _ _ _ _ Hlock H1)
    as (l1 & new1 & -> & Hdb1 & Hnew1 & Hlock1).
  destruct (AddressFacts.chain_gap_is_full _ _ _ _ _ _ _ _ _ _ Hnr Hgr Hlock H1)
    as [_ Hfull1].
  destruct (manager_ensure_address_gap
              (AddressManager.HierarchicalDeterministic pkc cc gc mc) w1)
    as [r2 w2] eqn:H2.
  destruct (chain_ensure_address_gap_appends _ _ _ _ _ _ _ Hlock1 H2)
    as (l2 & new2 & -> & Hdb2 & Hnew2 & Hlock2).
  destruct (AddressFacts.chain_gap_is_full _ _ _ _ _ _ _ _ _ _ Hnc Hgc Hlock1 H2)
    as [_ Hfull2].
  cbv beta iota in Hrun. injection Hrun as <- <-.
  rewrite (AddressFacts.chain_ensure_address_gap_run _ _ _ _ _ _ _ _ Hlock2).
  rewrite Hdb2 at 1. rewrite (last_addresses_other_chain cc cr gr _ _ Hne Hnew2).
  rewrite Hfull1, Z.eqb_refl.
  rewrite (AddressFacts.chain_ensure_address_gap_run _ _ _ _ _ _ _ _ Hlock2).
  rewrite Hfull2, Z.eqb_refl. reflexivity.
Qed.

End Keys.

(** An instance over integer keys, as for the address managers: a
    deterministic-chain account whose chains have the gaps 3 and 2. *)
Definition example_chain_account : @Account.t Z Z :=
  {| ledger_id := "lbc_regtest"; name := "Account #1"; seed := "";
     modified_on := 0; private_key_string := ""; init_vectors := ∅;
     encrypted := false; private_key := None; public_key := 0%Z;
     address_generator := "deterministic-chain";
     receiving := AddressManager.HierarchicalDeterministic 0%Z KeyPath.RECEIVE 3%Z 1%Z;
     change := AddressManager.HierarchicalDeterministic 1%Z KeyPath.CHANGE 2%Z 1%Z;
     channel_keys := ∅ |}.

Definition example_wallet : @Wallet Z Z :=
  {| account := example_chain_account;
     world := AddressFacts.example_before;
     saves := 0 |}.

Definition example_saved : @Wallet Z Z := snd (save_max_gap id example_wallet).

Definition example_gap_run : result (list string) * @AddressManager.World Z :=
  ensure_address_gap AddressManager.example_child id AddressManager.example_address
    example_chain_account (AddressManager.example_world []).

(** An instance over strings, as for [from_dict]: a child of a private key
    is the key behind ["/"] and the index. *)
Definition example_private_child (k : string) (i : Z) : string :=
  String.append k (String.append "/" (pretty i)).

Definition example_single_dict : AccountDict :=
  {| d_ledger := "lbc_regtest"; d_name := ""; d_seed := example_seed;
     d_encrypted := false; d_private_key := ""; d_public_key := "";
     d_address_generator :=
       {| AddressManager.d_name := "single-address";
          AddressManager.d_receiving := None;
          AddressManager.d_change := None |};
     d_modified_on := 5; d_certificates := None |}.

Definition example_single : @Account.t string string :=
  match AccountDicts.example_from_dict example_single_dict with
  | Ok a => a
  | Raise _ => example_account
  end.

Lemma example_bip32 k i :
  AccountDicts.example_public_key_of (example_private_child k i)
  = AccountDicts.example_public_child (AccountDicts.example_public_key_of k) i.
Proof. reflexivity. Qed.

Lemma save_max_gap_stable_witness :
  save_max_gap id example_saved = (Ok tt, example_saved) /\
  (address_generator (account example_wallet) = "deterministic-chain" ->
   exists max_change max_receiving,
     get_max_gap id (account example_saved) (world example_saved)
       = (Ok (max_change, max_receiving), world example_saved) /\
     manager_gap (receiving (account example_saved))
       = Ok (Z.max 20 (max_receiving + 1)) /\
     manager_gap (change (account example_saved))
       = Ok (Z.max 6 (max_change + 1))).
Proof.
  apply (save_max_gap_stable id example_wallet example_saved).
  reflexivity.
Defined.

Lemma loaded_chain_keys_witness :
  exists am,
    address_manager AccountDicts.example_loaded KeyPath.CHANGE = Ok am /\
    AddressManager.chain_number am = KeyPath.CHANGE /\
    get_public_key AccountDicts.example_public_child
      AccountDicts.example_loaded KeyPath.CHANGE 5
      = Ok (AccountDicts.example_public_child (AddressManager.public_key am) 5) /\
    forall k, private_key AccountDicts.example_loaded = Some k ->
      exists sk,
        get_private_key example_private_child
          AccountDicts.example_loaded KeyPath.CHANGE 5 = Ok (Some sk) /\
        AccountDicts.example_public_key_of sk
        = AccountDicts.example_public_child (AddressManager.public_key am) 5.
Proof.
  apply (loaded_chain_keys example_private_child AccountDicts.example_public_child
           AccountDicts.example_public_key_of id
           AccountDicts.example_private_key_from_seed
           example_from_extended_key_string
           AccountDicts.example_public_from_extended_key_string
           "lbc_regtest" AccountDicts.example_dict AccountDicts.example_loaded
           KeyPath.CHANGE 5).
  - exact example_bip32.
  - reflexivity.
  - reflexivity.
  - right. reflexivity.
Defined.

Lemma loaded_single_address_keys_witness :
  get_public_key AccountDicts.example_public_child example_single KeyPath.CHANGE 0
    = Raise OtherError /\
  get_private_key example_private_child example_single KeyPath.CHANGE 0
    = Raise OtherError /\
  forall w : @AddressManager.World string,
    ensure_address_gap AccountDicts.example_public_child (fun _ => 0%Z) id
      example_single w
    = AddressManager.ensure_address_gap AccountDicts.example_public_child
        (fun _ => 0%Z) id (receiving example_single) w.
Proof.
  apply (loaded_single_address_keys example_private_child
           AccountDicts.example_public_child
           AccountDicts.example_public_key_of (fun _ => 0%Z) id
           AccountDicts.example_private_key_from_seed
           example_from_extended_key_string
           AccountDicts.example_public_from_extended_key_string
           "lbc_regtest" example_single_dict example_single KeyPath.CHANGE 0).
  - reflexivity.
  - reflexivity.
Defined.

Lemma ensure_address_gap_idempotent_witness :
  ensure_address_gap AddressManager.example_child id AddressManager.example_address
    example_chain_account (snd example_gap_run) = (Ok [], snd example_gap_run).
Proof.
  apply (ensure_address_gap_idempotent AddressManager.example_child id
           AddressManager.example_address example_chain_account
           0%Z KeyPath.RECEIVE 3%Z 1%Z 1%Z KeyPath.CHANGE 2%Z 1%Z
           (AddressManager.example_world []) (fst example_gap_run)).
  - reflexivity.
  - reflexivity.
  - discriminate.
  - exact AddressFacts.example_child_index.
  - intros i. reflexivity.
  - lia.
  - lia.
  - reflexivity.
  - reflexivity.
Defined.

End AccountKeys.

(** ** The channel keys of an account *)

Module ChannelKeys.
Section Keys.
Local Open Scope Z_scope.

(** bip32 and the ledger: [PrivateKey.child], [.public_key],
    [PublicKey.pubkey_bytes], [PublicKey.address], [PrivateKey.address],
    [PrivateKey.to_pem().decode()], [PrivateKey.from_pem(ledger, pem)],
    [ledger.public_key_to_address] and [db.is_channel_key_used]. *)
Context {PrivateKey PublicKey : Type}.
Variable child : PrivateKey -> Z -> PrivateKey.
Variable public_key_of : PrivateKey -> PublicKey.
Variable pubkey_bytes : PublicKey -> string.
Variable address : PublicKey -> string.
Variable private_key_address : PrivateKey -> string.
Variable to_pem : PrivateKey -> string.
Variable from_pem : string -> result PrivateKey.
Variable public_key_to_address : string -> string.
Variable is_channel_key_used : PublicKey -> bool.

Local Abbreviation Manager := (@DeterministicChannelKeyManager.t PrivateKey).

(** The two stores of channel keys of an account: [self.channel_keys] and
    [self.deterministic_channel_keys]. *)
Record t : Type := mk {
  channel_keys : gmap string string;
  deterministic_channel_keys : Manager
}.

Definition on_manager {A} (m : M Manager A) : M t A :=
  fun s => let '(r, manager) := m (deterministic_channel_keys s) in
           (r, {| channel_keys := channel_keys s;
                  deterministic_channel_keys := manager |}).

(** [generate_channel_private_key()]. *)
Definition generate_channel_private_key (fuel : nat) : M t (option PrivateKey) :=
  on_manager (DeterministicChannelKeyManager.generate_next_key
                child public_key_of address is_channel_key_used fuel).

(** [add_channel_private_key(private_key)]. *)
Definition add_channel_private_key (private_key : PrivateKey) : M t unit :=
  modify (fun s =>
    {| channel_keys :=
         <[private_key_address private_key := to_pem private_key]> (channel_keys s);
       deterministic_channel_keys := deterministic_channel_keys s |}).

(** [get_channel_private_key(public_key_bytes)]. *)
Definition get_channel_private_key (public_key_bytes : string)
  : M t (option PrivateKey) :=
  let channel_pubkey_hash := public_key_to_address public_key_bytes in
  private_key_pem ← gets (fun s => channel_keys s !! channel_pubkey_hash);
  if match private_key_pem with
     | Some pem => truthy pem
     | None => false
     end
  then
    private_key ← lift (from_pem (default "" private_key_pem));
    mret (Some private_key)
  else
    gets (fun s => DeterministicChannelKeyManager.get_private_key_from_pubkey_hash
                     channel_pubkey_hash (deterministic_channel_keys s)).

(** The key that [generate_next_key] returns is in the cache under its own
    address. *)
Lemma generate_next_key_cached fuel : forall (self self' : Manager) k,
  DeterministicChannelKeyManager.generate_next_key
    child public_key_of address is_channel_key_used fuel self
    = (Ok (Some k), self') ->
  DeterministicChannelKeyManager.cache self' !! address (public_key_of k) = Some k.
Proof.
  induction fuel as [| fuel IH]; intros self self' k.
  - simpl. unfold_M. discriminate.
  - rewrite DeterministicChannelKeyManager.generate_next_key_S.
    destruct (DeterministicChannelKeyManager.private_key self) as [sk |];
      [| discriminate].
    cbv zeta. destruct (is_channel_key_used _).
    + apply IH.
    + intros [= <- <-]. simpl. apply lookup_insert_eq.
Qed.

(** X22: a key stored by [add_channel_private_key] is the key that
    [get_channel_private_key] returns for its public key, whatever the
    deterministic keys hold for that address, and the keys of the other
    addresses are found as before. *)
Theorem added_key_is_found k s :
  from_pem (to_pem k) = Ok k ->
  truthy (to_pem k) = true ->
  private_key_address k = address (public_key_of k) ->
  public_key_to_address (pubkey_bytes (public_key_of k)) = address (public_key_of k) ->
  exists s',
    add_channel_private_key k s = (Ok tt, s') /\
    get_channel_private_key (pubkey_bytes (public_key_of k)) s' = (Ok (Some k), s') /\
    forall public_key_bytes,
      public_key_to_address public_key_bytes <> address (public_key_of k) ->
      get_channel_private_key public_key_bytes s'
      = (fst (get_channel_private_key public_key_bytes s), s').
Proof.
  intros Hpem Htruthy Haddress Hhash.
  eexists. split; [reflexivity |].
  unfold get_channel_private_key. unfold_M. simpl.
  split.
  - rewrite Hhash, Haddress, lookup_insert_eq. simpl.
    rewrite Htruthy, Hpem. reflexivity.
  - intros public_key_bytes Hne.
    rewrite Haddress, lookup_insert_ne by congruence.
    destruct (channel_keys s !! public_key_to_address public_key_bytes)
      as [pem |]; simpl; [| reflexivity].
    destruct (truthy pem); [| reflexivity].
    destruct (from_pem pem); reflexivity.
Qed.

(** X23: on an account with a private key, [generate_channel_private_key]
    returns the child at the first index whose key is not used, and
    [get_channel_private_key] finds that key afterwards, unless
    [channel_keys] holds a key under the same address. *)
Theorem generated_key_is_found n s sk :
  let manager := deterministic_channel_keys s in
  let k := child sk (DeterministicChannelKeyManager.last_known manager + Z.of_nat n) in
  public_key_to_address (pubkey_bytes (public_key_of k)) = address (public_key_of k) ->
  DeterministicChannelKeyManager.private_key manager = Some sk ->
  (forall i, (i < n)%nat ->
     is_channel_key_used
       (public_key_of
          (child sk (DeterministicChannelKeyManager.last_known manager + Z.of_nat i)))
     = true) ->
  is_channel_key_used (public_key_of k) = false ->
  channel_keys s !! address (public_key_of k) = None ->
  exists s',
    generate_channel_private_key (S n) s = (Ok (Some k), s') /\
    get_channel_private_key (pubkey_bytes (public_key_of k)) s' = (Ok (Some k), s').
Proof.
  intros manager k Hhash Hsk Hused Hfree Hnone.
  destruct (DeterministicChannelKeyManager.generate_next_key_returns
              child public_key_of address is_channel_key_used
              n manager sk Hsk Hused Hfree) as (manager' & Hrun & _).
  pose proof (generate_next_key_cached _ _ _ _ Hrun) as Hcached.
  unfold generate_channel_private_key, on_manager.
  fold manager. rewrite Hrun.
  eexists. split; [reflexivity |].
  unfold get_channel_private_key. unfold_M. simpl.
  fold k. rewrite Hhash, Hnone. simpl.
  unfold DeterministicChannelKeyManager.get_private_key_from_pubkey_hash.
  fold k in Hcached. rewrite Hcached. reflexivity.
Qed.

End Keys.

(** The instance of the channel key manager, with the decimal numeral of a
    key as its PEM text. *)
Definition example_from_pem (pem : string) : result Z :=
  if String.eqb pem (pretty 7%Z) then Ok 7%Z else Raise ValueError.

Definition example_keys : @t Z :=
  {| channel_keys := ∅;
     deterministic_channel_keys :=
       DeterministicChannelKeyManager.__init__
         DeterministicChannelKeyManager.example_child (Some 100%Z) |}.

Definition example_used (K : Z) : bool := (K <? 104)%Z.

Lemma added_key_is_found_witness :
  exists s',
    add_channel_private_key pretty pretty 7%Z example_keys = (Ok tt, s') /\
    get_channel_private_key example_from_pem id (pretty 7%Z) s' = (Ok (Some 7%Z), s') /\
    forall public_key_bytes,
      id public_key_bytes <> pretty 7%Z ->
      get_channel_private_key example_from_pem id public_key_bytes s'
      = (fst (get_channel_private_key example_from_pem id public_key_bytes
                example_keys), s').
Proof.
  apply (added_key_is_found id pretty pretty pretty pretty example_from_pem id
           7%Z example_keys); reflexivity.
Defined.

Lemma generated_key_is_found_witness :
  exists s',
    generate_channel_private_key DeterministicChannelKeyManager.example_child
      id pretty example_used 3 example_keys = (Ok (Some 104%Z), s') /\
    get_channel_private_key example_from_pem id (pretty 104%Z) s'
    = (Ok (Some 104%Z), s').
Proof.
  apply (generated_key_is_found DeterministicChannelKeyManager.example_child
           id pretty pretty example_from_pem id example_used
           2 example_keys 102%Z).
  - reflexivity.
  - reflexivity.
  - intros [| [| i]] Hi; [reflexivity | reflexivity | lia].
  - reflexivity.
  - reflexivity.
Defined.

End ChannelKeys.
